(** * The pipeline engine of automated-defi: definitions and their properties

    A shallow embedding of [pipeline/params.py], [pipeline/pipeline.py],
    [pipeline/evaluation.py], [errors.py] and [utils.camel_to_snake]:
    parameter resolution ([Step._prepare_args]), slug assignment
    ([Pipeline._init_slugs]) and the control flow of [Group] and [Repeat]
    against an arbitrary executor ([Visitor]). *)

From Stdlib Require Import ZArith String Ascii List Bool Lia.
From stdpp Require Import base option list list_numbers strings gmap pretty.

Set Warnings "-register-all,-clear-no-such-hyp".
Local Open Scope string_scope.
Local Open Scope list_scope.
Local Open Scope nat_scope.

(** ** Python values

    What a user-parameter document, a state mapping or a step field can hold:
    [None], [str], [bool], [int], [decimal.Decimal] (also its [assets.Asset]
    subclasses; a finite decimal is sign, coefficient, exponent, as in
    [Decimal.as_tuple]), nested [dict]s with string keys, and [list]s. *)

Inductive Value : Type :=
| VNone
| VStr (s : string)
| VBool (b : bool)
| VInt (z : Z)
| VDecimal (negative : bool) (coefficient : N) (exponent : Z)
| VDict (d : gmap string Value)
| VList (l : list Value).

(** [State(MutableMapping)]: string keys to values. [deepcopy(state)] is the
    identity on such a value. *)
Abbreviation State := (gmap string Value).

(** [bool(v)], the truth value tested by [if v:], [not v] and [a or b]. *)
Definition truthy (v : Value) : bool :=
  match v with
  | VNone => false
  | VStr s => negb (String.eqb s "")
  | VBool b => b
  | VInt z => negb (z =? 0)%Z
  | VDecimal _ c _ => negb (c =? 0)%N
  | VDict d => negb (Nat.eqb (size d) 0)
  | VList l => negb (Nat.eqb (length l) 0)
  end.

(** [v is None] *)
Definition is_None (v : Value) : bool :=
  match v with VNone => true | _ => false end.

(** [v == ""] *)
Definition is_empty_str (v : Value) : bool :=
  match v with VStr s => String.eqb s "" | _ => false end.

(** [isinstance(v, (str, bool, int, Decimal))] *)
Definition is_scalar (v : Value) : bool :=
  match v with
  | VStr _ | VBool _ | VInt _ | VDecimal _ _ _ => true
  | VNone | VDict _ | VList _ => false
  end.

(** ** Callables used as [Param.type]

    [construct (Some v)] is the call [type(v)], [construct None] the call
    [type()]; the result [None] stands for a raised exception. *)

Record PyType : Type := {
  type_name : string;
  construct : option Value → option Value
}.

(** [bool]: never raises. *)
Definition py_bool : PyType := {|
  type_name := "bool";
  construct := λ a, match a with
                    | None => Some (VBool false)
                    | Some v => Some (VBool (truthy v))
                    end
|}.

(** The characters [int()] skips before and after the literal in an ASCII
    string: tab, line feed, vertical tab, form feed, carriage return and
    space. *)
Definition is_space (c : ascii) : bool :=
  let n := nat_of_ascii c in
  ((9 <=? n) && (n <=? 13) || (n =? 32))%nat.

Definition digit_of (c : ascii) : option N :=
  let n := N_of_ascii c in
  if ((48 <=? n) && (n <=? 57))%N then Some (n - 48)%N else None.

Fixpoint lstrip (s : string) : string :=
  match s with
  | String c tl => if is_space c then lstrip tl else s
  | EmptyString => s
  end.

(** The rest of an integer literal once a digit has been read: digits, each
    optionally preceded by one underscore, then only white space. *)
Fixpoint int_digits (acc : N) (after_underscore : bool) (s : string) : option N :=
  match s with
  | EmptyString => if after_underscore then None else Some acc
  | String c tl =>
      match digit_of c with
      | Some d => int_digits (acc * 10 + d) false tl
      | None =>
          if after_underscore then None
          else if Ascii.eqb c "_" then int_digits acc true tl
          else if is_space c then
                 match lstrip tl with EmptyString => Some acc | _ => None end
               else None
      end
  end.

(** [int(s)] for an ASCII string, base 10. *)
Definition int_of_str (s : string) : option Z :=
  let unsigned (t : string) : option N :=
    match t with
    | String c tl =>
        match digit_of c with
        | Some d => int_digits d false tl
        | None => None
        end
    | EmptyString => None
    end in
  match lstrip s with
  | String "-" tl => (λ n, Z.opp (Z.of_N n)) <$> unsigned tl
  | String "+" tl => Z.of_N <$> unsigned tl
  | t => Z.of_N <$> unsigned t
  end.

(** [int]: truncates a [Decimal] towards zero, parses a [str], and raises
    [TypeError] on [None], [dict] and [list]. *)
Definition py_int : PyType := {|
  type_name := "int";
  construct := λ a,
    match a with
    | None => Some (VInt 0)
    | Some (VInt z) => Some (VInt z)
    | Some (VBool b) => Some (VInt (if b then 1 else 0))
    | Some (VDecimal neg c e) =>
        let magnitude :=
          (if (0 <=? e)%Z then c * 10 ^ Z.to_N e else c / 10 ^ Z.to_N (- e))%N in
        Some (VInt (if neg then - Z.of_N magnitude else Z.of_N magnitude))
    | Some (VStr s) => VInt <$> int_of_str s
    | Some VNone | Some (VDict _) | Some (VList _) => None
    end
|}.

(** ** [pipeline/params.py] *)

Module Param.
Record t : Type := {
  type : PyType;
  key : string;
  name : string;        (* default "" *)
  required : bool;      (* default True *)
  default : Value       (* Optional[T], default None *)
}.

(** [(self.default or self.type()) if self.required else None];
    the outer [None] is an exception raised by [self.type()]. *)
Definition initial (self : t) : option Value :=
  if required self then
    if truthy (default self) then Some (default self)
    else construct (type self) None
  else Some VNone.
End Param.

Module Ref.
Record t : Type := {
  key : string;
  required : bool;      (* default False *)
  default : Value       (* default None *)
}.
End Ref.

(** ** Steps ([pipeline/pipeline.py])

    A dataclass field of a step holds a literal, a [Param] or a [Ref]. *)

Inductive FieldValue : Type :=
| FLit (v : Value)
| FParam (p : Param.t)
| FRef (r : Ref.t).

(** One entry of [Step._formal_params()]: the field name, the [Param] the
    class declares for it, and what the instance holds ([getattr(self, f)]). *)
Record Field : Type := {
  fname : string;
  formal : Param.t;
  fvalue : FieldValue
}.

(** [Transform.func]; [None] stands for a raised exception. *)
Definition Callable : Type := State → list Value → option Value.

(** The concrete step classes without children. *)
Inductive LeafClass : Type :=
| Setup | Balance | Prices | BorrowLimit | BorrowLimitFraction | BorrowBalance
| Borrow | Transfer | SetAllowance | SetContractAllowance | Allowance
| GiveCollateral | Supply | Redeemable | Redeem | Repay | CompAccrued
| HarvestComp | LQTYAccrued | ETHAccrued | HarvestLQTY | DepositLUSD
| WithdrawLUSD | EstimateHarvestCost | StabilityPoolCheck | LiquityExitCheck
| StoreMinGasBalance | CalculateDifference | CalculateLiquityAPR
| ForecastBorrowLimitFractionAfterSwapWithinLimit | OneInchTargetQuote
| OneInchSourceQuote | SetOneInchAllowance | OneInchSwap | CTokenEquivalent
| ConvertETHToWETH.

(** [Transform] and its subclasses, which carry [func] and [args]. *)
Inductive TransformClass : Type := CTransform | CExpr | CReportResult.

(** The tree of steps. [Group.description] and [Group.hide_details] are
    display-only and left out; [Repeat.max] is a field like any other. *)
Inductive Step : Type :=
| Leaf (cls : LeafClass) (slug : string) (fields : list Field)
| Transform (cls : TransformClass) (slug : string) (func : Callable)
    (args : list FieldValue)
| Group (slug : string) (given : list Step) (entry_condition : option Step)
    (steps : list Step)
| Repeat (slug : string) (max : FieldValue) (given : list Step)
    (entry_condition : option Step) (steps : list Step).

Definition slug_of (s : Step) : string :=
  match s with
  | Leaf _ slug _ | Transform _ slug _ _ | Group slug _ _ _
  | Repeat slug _ _ _ _ => slug
  end.

Definition leaf_class_name (cls : LeafClass) : string :=
  match cls with
  | Setup => "Setup" | Balance => "Balance" | Prices => "Prices"
  | BorrowLimit => "BorrowLimit" | BorrowLimitFraction => "BorrowLimitFraction"
  | BorrowBalance => "BorrowBalance" | Borrow => "Borrow"
  | Transfer => "Transfer" | SetAllowance => "SetAllowance"
  | SetContractAllowance => "SetContractAllowance" | Allowance => "Allowance"
  | GiveCollateral => "GiveCollateral" | Supply => "Supply"
  | Redeemable => "Redeemable" | Redeem => "Redeem" | Repay => "Repay"
  | CompAccrued => "CompAccrued" | HarvestComp => "HarvestComp"
  | LQTYAccrued => "LQTYAccrued" | ETHAccrued => "ETHAccrued"
  | HarvestLQTY => "HarvestLQTY" | DepositLUSD => "DepositLUSD"
  | WithdrawLUSD => "WithdrawLUSD"
  | EstimateHarvestCost => "EstimateHarvestCost"
  | StabilityPoolCheck => "StabilityPoolCheck"
  | LiquityExitCheck => "LiquityExitCheck"
  | StoreMinGasBalance => "StoreMinGasBalance"
  | CalculateDifference => "CalculateDifference"
  | CalculateLiquityAPR => "CalculateLiquityAPR"
  | ForecastBorrowLimitFractionAfterSwapWithinLimit =>
      "ForecastBorrowLimitFractionAfterSwapWithinLimit"
  | OneInchTargetQuote => "OneInchTargetQuote"
  | OneInchSourceQuote => "OneInchSourceQuote"
  | SetOneInchAllowance => "SetOneInchAllowance"
  | OneInchSwap => "OneInchSwap" | CTokenEquivalent => "CTokenEquivalent"
  | ConvertETHToWETH => "ConvertETHToWETH"
  end.

(** [el.__class__.__name__] *)
Definition class_name (s : Step) : string :=
  match s with
  | Leaf cls _ _ => leaf_class_name cls
  | Transform CTransform _ _ _ => "Transform"
  | Transform CExpr _ _ _ => "Expr"
  | Transform CReportResult _ _ _ => "ReportResult"
  | Group _ _ _ _ => "Group"
  | Repeat _ _ _ _ _ => "Repeat"
  end.

(** [Allowance] defines [run], not [accept], and so inherits [Step.accept],
    which never reaches the visitor; every other class calls its visitor
    method. *)
Definition overrides_accept (cls : LeafClass) : bool :=
  match cls with Allowance => false | _ => true end.

(** The class attribute [Repeat.max]. *)
Definition Repeat_max : Param.t := {|
  Param.type := py_int; Param.key := "max"; Param.name := "";
  Param.required := true; Param.default := VInt 50
|}.

(** ** [errors.py] and the other exceptions the engine can raise *)

(** [InvalidChainEffectError] is given [step.slug] for a guard, and the
    [entry_condition] object itself for an entry condition. The exceptions
    that take a [value] keep [type(value)] of it; here they carry the value. *)
Inductive StepRef : Type :=
| BySlug (slug : string)
| ByStep (step : Step).

Inductive Error : Type :=
| InvalidReferenceError (step_slug key : string)
| InvalidFormalParamTypeError (step_slug name : string) (value : FieldValue)
| InvalidFormalParamError (step_slug name : string) (value : Value)
| InvalidChainEffectError (step_slug : StepRef) (caller : string)
| UnmetPreconditionError (step_slug msg : string)
| MissingParamError (step_slug param_key : string)
| InvalidParamTypeError (step_slug name : string) (value : Value)
| APIError (status : Z) (msg : string)
| RuntimeError (msg : string)
| AttributeError
| TypeError
| OtherException (what : string).

(** The two base classes of the pipeline errors. *)
Inductive ErrorFamily : Type :=
| PipelineDefinitionError
| PipelineExecutionError.

(** The base class each exception is declared with in [errors.py]. *)
Definition error_family (e : Error) : option ErrorFamily :=
  match e with
  | InvalidReferenceError _ _ | InvalidFormalParamTypeError _ _ _
  | InvalidFormalParamError _ _ _ | InvalidChainEffectError _ _ =>
      Some PipelineDefinitionError
  | UnmetPreconditionError _ _ | MissingParamError _ _
  | InvalidParamTypeError _ _ _ | APIError _ _ =>
      Some PipelineExecutionError
  | RuntimeError _ | AttributeError | TypeError | OtherException _ => None
  end.

(** A result or a raised exception. *)
Inductive res (A : Type) : Type :=
| Ok (a : A)
| Raise (e : Error).
Arguments Ok {A} a.
Arguments Raise {A} e.

#[global] Instance res_ret : MRet res := @Ok.
#[global] Instance res_bind : MBind res := λ A B f r,
  match r with
  | Ok a => f a
  | Raise e => Raise e
  end.

(** [d.get(k, dflt)]; anything but a [dict] has no [get]. *)
Definition dict_get (d : Value) (k : string) (dflt : Value) : res Value :=
  match d with
  | VDict m => Ok (default dflt (m !! k))
  | _ => Raise AttributeError
  end.

(** ** [Step._prepare_args] *)

(** The body of the loop of [Step._prepare_args] for one field. *)
Definition resolve_field (slug : string) (state : State) (user_params : Value)
    (f : Field) : res Value :=
  match fvalue f with
  | FLit p =>
      if is_scalar p then
        match construct (Param.type (formal f)) (Some p) with
        | None => Raise (InvalidParamTypeError slug (Param.key (formal f)) p)
        | Some actual =>
            if is_None actual && Param.required (formal f)
            then Raise (InvalidFormalParamError slug (fname f) p)
            else Ok actual
        end
      else Raise (InvalidFormalParamTypeError slug (fname f) (FLit p))
  | FParam p =>
      user_param ← dict_get user_params (Param.key p) (Param.default p);
      if is_None user_param || is_empty_str user_param then
        if Param.required p then Raise (MissingParamError slug (Param.key p))
        else Ok VNone
      else
        match construct (Param.type p) (Some user_param) with
        | Some actual => Ok actual
        | None => Raise (InvalidParamTypeError slug (Param.key p) user_param)
        end
  | FRef r =>
      let actual := default (Ref.default r) (state !! Ref.key r) in
      if is_None actual && Ref.required r
      then Raise (InvalidReferenceError slug (Ref.key r))
      else Ok actual
  end.

(** [replace(self, **actual_params)] for one field. *)
Definition with_actual (f : Field) (actual : Value) : Field :=
  {| fname := fname f; formal := formal f; fvalue := FLit actual |}.

(** The loop of [Step._prepare_args] over the formal parameters, in order:
    the first field that fails raises. *)
Fixpoint prepare_fields (slug : string) (state : State) (user_params : Value)
    (fields : list Field) : res (list Field) :=
  match fields with
  | [] => Ok []
  | f :: rest =>
      actual ← resolve_field slug state user_params f;
      rest' ← prepare_fields slug state user_params rest;
      Ok (with_actual f actual :: rest')
  end.

(** The body of the loop of [Transform._prepare_args] for [args[i]]. *)
Definition resolve_arg (slug : string) (state : State) (user_params : Value)
    (i : nat) (a : FieldValue) : res Value :=
  match a with
  | FLit p =>
      if is_scalar p then Ok p
      else Raise (InvalidFormalParamTypeError slug
                    ("args[" +:+ pretty i +:+ "]") (FLit p))
  | FParam p =>
      let where_ := "args[" +:+ pretty i +:+ "], key=" +:+ Param.key p in
      user_param ← dict_get user_params (Param.key p) (Param.default p);
      if is_None user_param || is_empty_str user_param then
        if Param.required p then Raise (MissingParamError slug where_)
        else Ok VNone
      else
        match construct (Param.type p) (Some user_param) with
        | Some actual => Ok actual
        | None => Raise (InvalidParamTypeError slug where_ user_param)
        end
  | FRef r =>
      let actual := default (Ref.default r) (state !! Ref.key r) in
      if is_None actual && Ref.required r
      then Raise (InvalidReferenceError slug (Ref.key r))
      else Ok actual
  end.

Fixpoint prepare_arg_list (slug : string) (state : State) (user_params : Value)
    (i : nat) (args : list FieldValue) : res (list FieldValue) :=
  match args with
  | [] => Ok []
  | a :: rest =>
      actual ← resolve_arg slug state user_params i a;
      rest' ← prepare_arg_list slug state user_params (S i) rest;
      Ok (FLit actual :: rest')
  end.

(** [self._formal_params()] with the values the instance holds: the fields
    of a leaf class, [max] for [Repeat], nothing for [Transform] and [Group]
    (none of their class attributes is a [Param]). *)
Definition formal_fields (self : Step) : list Field :=
  match self with
  | Leaf _ _ fields => fields
  | Repeat _ max _ _ _ =>
      [{| fname := "max"; formal := Repeat_max; fvalue := max |}]
  | Transform _ _ _ _ | Group _ _ _ _ => []
  end.

(** [self._prepare_args(state, user_params)]: a copy of the step with its
    formal parameters replaced by actual values. [Transform] has no formal
    parameter and resolves its [args]; [Group] has none either; [Repeat] has
    [max]. *)
Definition prepare_args (self : Step) (state : State) (user_params : Value)
    : res Step :=
  match self with
  | Leaf cls slug fields =>
      fields' ← prepare_fields slug state user_params fields;
      Ok (Leaf cls slug fields')
  | Transform cls slug func args =>
      args' ← prepare_arg_list slug state user_params 0 args;
      Ok (Transform cls slug func args')
  | Group slug given ec steps => Ok (Group slug given ec steps)
  | Repeat slug max given ec steps =>
      actual ← resolve_field slug state user_params
                 {| fname := "max"; formal := Repeat_max; fvalue := max |};
      Ok (Repeat slug (FLit actual) given ec steps)
  end.

(** ** [utils.camel_to_snake]

    On ASCII names, which is what class names are. *)

Definition is_upper (c : ascii) : bool :=
  let n := nat_of_ascii c in ((65 <=? n) && (n <=? 90))%nat.

Definition is_lower (c : ascii) : bool :=
  let n := nat_of_ascii c in ((97 <=? n) && (n <=? 122))%nat.

Definition is_digit (c : ascii) : bool :=
  let n := nat_of_ascii c in ((48 <=? n) && (n <=? 57))%nat.

Definition to_lower (c : ascii) : ascii :=
  if is_upper c then ascii_of_nat (nat_of_ascii c + 32) else c.

(** Where the scan of [_first1 = (.)([A-Z][a-z]+)] stands: looking for the
    start of a match, on the [[A-Z]] of a match, or inside its [[a-z]+]. *)
Inductive Scan : Type := Searching | OnUpper | InLower.

(** [_first1.sub(r"\1_\2", name)]: matches are found left to right and do
    not overlap; [.] is any character but a newline; [[a-z]+] is greedy. *)
Fixpoint sub_first1 (m : Scan) (s : string) : string :=
  match s with
  | EmptyString => EmptyString
  | String c tl =>
      match m with
      | OnUpper => String c (sub_first1 InLower tl)
      | _ =>
          if match m with InLower => is_lower c | _ => false end
          then String c (sub_first1 InLower tl)
          else
            match tl with
            | String u (String l _) =>
                if negb (Ascii.eqb c "010") && is_upper u && is_lower l
                then String c (String "_" (sub_first1 OnUpper tl))
                else String c (sub_first1 Searching tl)
            | _ => String c (sub_first1 Searching tl)
            end
      end
  end.

(** [_all2.sub(r"\1_\2", subbed)] with [_all2 = ([a-z0-9])([A-Z])]: the
    second character of a match is upper case and so never starts another
    match. *)
Fixpoint sub_all2 (s : string) : string :=
  match s with
  | EmptyString => EmptyString
  | String c tl =>
      match tl with
      | String u _ =>
          if (is_lower c || is_digit c) && is_upper u
          then String c (String "_" (sub_all2 tl))
          else String c (sub_all2 tl)
      | EmptyString => String c EmptyString
      end
  end.

Fixpoint lower (s : string) : string :=
  match s with
  | EmptyString => EmptyString
  | String c tl => String (to_lower c) (lower tl)
  end.

Definition camel_to_snake (name : string) : string :=
  let subbed := sub_first1 Searching name in
  lower (sub_all2 subbed).

(** ** [Step.walk] and [Group.walk]: the steps in pre-order, each with the
    path of slugs that leads to it. *)

Fixpoint walk (path : list string) (s : Step) : list (list string * Step) :=
  match s with
  | Leaf _ slug _ | Transform _ slug _ _ => [(path ++ [slug], s)]
  | Group slug given ec steps | Repeat slug _ given ec steps =>
      let p := path ++ [slug] in
      (p, s) :: flat_map (walk p) given
        ++ match ec with Some e => walk p e | None => [] end
        ++ flat_map (walk p) steps
  end.

(** The slugs of the tree, in the order of [walk]. *)
Definition slugs (s : Step) : list string :=
  map (λ x, slug_of x.2) (walk [] s).

(** ** [Pipeline._init_slugs] *)

(** The loop [while slug in seen: slug = "{}_{}".format(base_slug, i); i += 1],
    run for at most [fuel] tests. *)
Fixpoint gen_slug (fuel : nat) (base_slug : string) (seen : gset string)
    (slug : string) (i : nat) : option string :=
  match fuel with
  | O => None
  | S fuel' =>
      if decide (slug ∈ seen)
      then gen_slug fuel' base_slug seen (base_slug +:+ "_" +:+ pretty i) (S i)
      else Some slug
  end.

(** The body of the loop of [_init_slugs] for one element [el], given its
    class name and its slug: the slug it ends with and the new [seen]. More
    tests than [seen] has members always find a free slug
    ([gen_slug_total]), so that the last branch is never taken. *)
Definition init_slug (cls_name slug : string) (seen : gset string)
    : res (string * gset string) :=
  if negb (String.eqb slug "") then
    if decide (slug ∈ seen)
    then Raise (RuntimeError ("duplicate slug found: " +:+ slug))
    else Ok (slug, {[slug]} ∪ seen)
  else
    let base_slug := camel_to_snake cls_name in
    match gen_slug (S (size seen)) base_slug seen base_slug 1 with
    | Some slug' => Ok (slug', {[slug']} ∪ seen)
    | None => Raise (OtherException "gen_slug: out of fuel")
    end.

(** [for __, el in self.root.walk(): ...] over a list of sub-trees. *)
Definition init_slugs_list (f : Step → gset string → res (Step * gset string))
    : list Step → gset string → res (list Step * gset string) :=
  fix go (l : list Step) (seen : gset string) :=
    match l with
    | [] => Ok ([], seen)
    | el :: rest =>
        '(el', seen1) ← f el seen;
        '(rest', seen2) ← go rest seen1;
        Ok (el' :: rest', seen2)
    end.

(** [_init_slugs] on the tree below [el], in the order of [walk]: the step
    itself, the guards, the entry condition, the children. The terms of
    [Step] stand for the trees in which no step object occurs twice. A step
    object that occurs twice in a Python tree makes the loop raise: at the
    second visit the slug the object has by then, given or generated, is in
    [seen]. So a tree without sharing is all a constructed pipeline can be. *)
Fixpoint init_slugs (el : Step) (seen : gset string)
    : res (Step * gset string) :=
  '(slug, seen0) ← init_slug (class_name el) (slug_of el) seen;
  match el with
  | Leaf cls _ fields => Ok (Leaf cls slug fields, seen0)
  | Transform cls _ func args => Ok (Transform cls slug func args, seen0)
  | Group _ given ec steps =>
      '(given', seen1) ← init_slugs_list init_slugs given seen0;
      '(ec', seen2) ← match ec with
                      | Some e => '(e', s) ← init_slugs e seen1; Ok (Some e', s)
                      | None => Ok (None, seen1)
                      end;
      '(steps', seen3) ← init_slugs_list init_slugs steps seen2;
      Ok (Group slug given' ec' steps', seen3)
  | Repeat _ max given ec steps =>
      '(given', seen1) ← init_slugs_list init_slugs given seen0;
      '(ec', seen2) ← match ec with
                      | Some e => '(e', s) ← init_slugs e seen1; Ok (Some e', s)
                      | None => Ok (None, seen1)
                      end;
      '(steps', seen3) ← init_slugs_list init_slugs steps seen2;
      Ok (Repeat slug max given' ec' steps', seen3)
  end.

Record Pipeline : Type := { root : Step }.

(** [Pipeline.__init__]: [root] defaults to [Group(slug="main")]. *)
Definition Pipeline_init (root : option Step) : res Pipeline :=
  let root := default (Group "main" [] None []) root in
  '(root', _) ← init_slugs root ∅;
  Ok {| root := root' |}.

(** The argument [user_params.get(self.root.slug, None) or {}] that
    [Pipeline.__call__] hands to the root, after
    [if not user_params: user_params = {}]. *)
Definition root_params (p : Pipeline) (user_params : Value) : res Value :=
  let user_params := if truthy user_params then user_params else VDict ∅ in
  sub ← dict_get user_params (slug_of (root p)) VNone;
  Ok (if truthy sub then sub else VDict ∅).

(** ** Evaluation and the executor ([pipeline/evaluation.py]) *)

(** [Evaluation(NamedTuple)]; [chain_effect] defaults to [False]. *)
Record Evaluation : Type := {
  state : State;
  chain_effect : bool
}.

Section Engine.

(** What an executor object keeps between calls, such as the [log] of
    [PrintExecutor]. *)
Variable V : Type.

(** What a run can change besides the state it threads: the executor, and
    the warnings sent to the module's [logger]. *)
Record World : Type := {
  executor : V;
  warnings : list string
}.

(** A computation reads and updates the world and returns or raises; what
    it did to the world before raising stays done. *)
Definition M (A : Type) : Type := World → World * res A.

#[global] Instance M_ret : MRet M := λ A a w, (w, Ok a).
#[global] Instance M_bind : MBind M := λ A B f m w,
  match m w with
  | (w', Ok a) => f a w'
  | (w', Raise e) => (w', Raise e)
  end.

Definition lift {A : Type} (r : res A) : M A := λ w, (w, r).

Definition raise {A : Type} (e : Error) : M A := λ w, (w, Raise e).

(** A call of a method of the executor. *)
Definition call {A : Type} (method : V → V * res A) : M A := λ w,
  let '(x, r) := method (executor w) in
  ({| executor := x; warnings := warnings w |}, r).

(** [logger.warn(msg)] *)
Definition warn (msg : string) : M unit := λ w,
  ({| executor := executor w; warnings := warnings w ++ [msg] |}, Ok ()).

(** The [Visitor] interface: [visit] is the method of the step's class
    ([transform], [expr], [setup], [balance], ...), which is handed the
    prepared step and a copy of the state; the other four are the hooks of
    [Group] and [Repeat]. A method may raise. *)
Record Visitor : Type := {
  visit : Step → State → V → V * res Evaluation;
  enter_group : Step → State → V → V * res State;
  exit_group : Step → State → V → V * res State;
  enter_repeat : Step → State → V → V * res State;
  exit_repeat : Step → State → V → V * res State
}.

Variable visitor : Visitor.

(** The loop over [self.given] of [Group._eval_condition]. [accept] is the
    [accept] of the steps. *)
Definition eval_given (accept : Step → State → Value → M Evaluation)
    (self_slug : string) (user_params : Value)
    : list Step → State → M State :=
  fix go (given : list Step) (st : State) : M State :=
    match given with
    | [] => mret st
    | step :: rest =>
        up ← lift (dict_get user_params (slug_of step) (VDict ∅));
        ev ← accept step st up;
        if chain_effect ev
        then raise (InvalidChainEffectError (BySlug (slug_of step))
                      (self_slug +:+ ".given"))
        else go rest (state ev)
    end.

(** [Group._eval_condition] *)
Definition eval_condition (accept : Step → State → Value → M Evaluation)
    (self_slug : string) (given : list Step) (entry_condition : option Step)
    (user_params : Value) (st : State) : M (State * Value) :=
  st1 ← eval_given accept self_slug user_params given st;
  match entry_condition with
  | Some ec =>
      up ← lift (dict_get user_params (slug_of ec) (VDict ∅));
      ev ← accept ec st1 up;
      if chain_effect ev
      then raise (InvalidChainEffectError (ByStep ec)
                    (self_slug +:+ ".entry_condition"))
      else mret (state ev, default (VBool false) (state ev !! "_condition_"))
  | None => mret (st1, VBool true)
  end.

(** [for step in self.steps: ...], with the running [any_chain_effect]. *)
Definition run_steps (accept : Step → State → Value → M Evaluation)
    (user_params : Value) : list Step → State → bool → M (State * bool) :=
  fix go (steps : list Step) (st : State) (any_chain_effect : bool) :=
    match steps with
    | [] => mret (st, any_chain_effect)
    | step :: rest =>
        up ← lift (dict_get user_params (slug_of step) (VDict ∅));
        ev ← accept step st up;
        go rest (state ev) (any_chain_effect || chain_effect ev)
    end.

(** What the [for] loop of [Repeat.accept] leaves: the state, the flag,
    the loop variable [c], and (not in the Python code: a counter kept for
    the statements below) how many times the children were run. *)
Record LoopResult : Type := {
  loop_state : State;
  loop_chain_effect : bool;
  loop_c : Z;
  loop_passes : nat
}.

(** [for c in range(self.max): ...] over the values [cs] that [c] is still
    to take; [c] is its current value. *)
Definition Repeat_loop (cond : State → M (State * Value))
    (body : State → bool → M (State * bool))
    : list Z → Z → State → bool → nat → M LoopResult :=
  fix go (cs : list Z) (c : Z) (st : State) (any_chain_effect : bool)
      (passes : nat) : M LoopResult :=
    match cs with
    | [] => mret {| loop_state := st; loop_chain_effect := any_chain_effect;
                    loop_c := c; loop_passes := passes |}
    | c' :: rest =>
        '(st1, condition) ← cond st;
        if negb (truthy condition)
        then mret {| loop_state := st1;
                     loop_chain_effect := any_chain_effect;
                     loop_c := c'; loop_passes := passes |}
        else
          '(st2, any2) ← body st1 any_chain_effect;
          if negb any2
          then mret {| loop_state := st2; loop_chain_effect := any2;
                       loop_c := c'; loop_passes := S passes |}
          else go rest c' st2 any2 (S passes)
    end.

(** [range(n)]: [n] must be an [int] (a [bool] is one). *)
Definition py_range (n : Value) : res (list Z * Z) :=
  match n with
  | VInt z => Ok (seqZ 0 z, z)
  | VBool b => let z := (if b then 1 else 0)%Z in Ok (seqZ 0 z, z)
  | _ => Raise TypeError
  end.

Definition max_iterations_warning : string :=
  "maximum iterations reached for Repeat Group".

(** [step.accept(visitor, state, user_params)] for every class of step. *)
Fixpoint accept (self : Step) (st : State) (user_params : Value)
    : M Evaluation :=
  match self with
  | Leaf cls _ _ =>
      if overrides_accept cls then
        self' ← lift (prepare_args self st user_params);
        call (visit visitor self' st)
      else mret {| state := st; chain_effect := false |}
  | Transform _ _ _ _ =>
      self' ← lift (prepare_args self st user_params);
      call (visit visitor self' st)
  | Group slug given ec steps =>
      self' ← lift (prepare_args self st user_params);
      st0 ← call (enter_group visitor self' st);
      '(st1, condition) ← eval_condition accept slug given ec user_params st0;
      '(st2, any_chain_effect) ←
        (if truthy condition then run_steps accept user_params steps st1 false
         else mret (st1, false));
      st3 ← call (exit_group visitor self' st2);
      mret {| state := st3; chain_effect := any_chain_effect |}
  | Repeat slug max given ec steps =>
      actual ← lift (resolve_field slug st user_params
                       {| fname := "max"; formal := Repeat_max;
                          fvalue := max |});
      let self' := Repeat slug (FLit actual) given ec steps in
      st0 ← call (enter_repeat visitor self' st);
      '(cs, n) ← lift (py_range actual);
      r ← Repeat_loop (eval_condition accept slug given ec user_params)
            (run_steps accept user_params steps) cs 0 st0 false 0;
      _ ← (if (n - 1 <=? loop_c r)%Z then warn max_iterations_warning
           else mret ());
      st1 ← call (exit_repeat visitor self' (loop_state r));
      mret {| state := st1; chain_effect := loop_chain_effect r |}
  end.

(** [Pipeline.__call__] *)
Definition Pipeline_call (p : Pipeline) (user_params : Value) : M State :=
  up ← lift (root_params p user_params);
  ev ← accept (root p) ∅ up;
  mret (state ev).

End Engine.

Arguments executor {V}.
Arguments warnings {V}.
Arguments Build_World {V}.
Arguments lift {V A}.
Arguments raise {V A}.
Arguments call {V A}.
Arguments warn {V}.
Arguments visit {V}.
Arguments enter_group {V}.
Arguments exit_group {V}.
Arguments enter_repeat {V}.
Arguments exit_repeat {V}.
Arguments eval_given {V}.
Arguments eval_condition {V}.
Arguments run_steps {V}.
Arguments Repeat_loop {V}.
Arguments accept {V}.
Arguments Pipeline_call {V}.

(** The methods [Visitor] itself implements: the hooks return the state they
    are given, and [expr] stores the value of [step.func(state, *step.args)]
    under ["_condition_"]. *)
Definition Visitor_hook (step : Step) (st : State) : res State := Ok st.

Definition Visitor_expr (step : Step) (st : State) : res Evaluation :=
  match step with
  | Transform _ _ func args =>
      let values := omap (λ a, match a with FLit v => Some v | _ => None end)
                      args in
      match func st values with
      | Some condition =>
          Ok {| state := <["_condition_" := condition]> st;
                chain_effect := false |}
      | None => Raise (OtherException "func")
      end
  | _ => Raise AttributeError
  end.

(** ** Definitions used to state the properties *)

(** The [k]-th slug the loop of [_init_slugs] tries for a step without one:
    the base name, then the base name with [_1], [_2], ... *)
Definition candidate (base_slug : string) (k : nat) : string :=
  match k with
  | O => base_slug
  | S _ => base_slug +:+ "_" +:+ pretty k
  end.

(** The initial value of a [Param] as the specification words it: the
    default if one is set, else a zero value of the type when the parameter
    is required, else absent. *)
Definition initial_as_specified (p : Param.t) : option Value :=
  if negb (is_None (Param.default p)) then Some (Param.default p)
  else if Param.required p then construct (Param.type p) None
  else Some VNone.

(** The children [steps] run one after the other from state [st] and world
    [w], each on the state its predecessor returned and with its own part of
    [user_params]; [evs] are their evaluations, in order, and [st'] and [w']
    the state and the world after the last one. *)
Inductive Children {V : Type} (visitor : Visitor V) (user_params : Value)
    : list Step → State → World V → list Evaluation → State → World V → Prop :=
| Children_nil st w : Children visitor user_params [] st w [] st w
| Children_cons step rest st w up ev w1 evs st' w' :
    dict_get user_params (slug_of step) (VDict ∅) = Ok up →
    accept visitor step st up w = (w1, Ok ev) →
    Children visitor user_params rest (state ev) w1 evs st' w' →
    Children visitor user_params (step :: rest) st w (ev :: evs) st' w'.

(** An executor for the examples: it counts the calls of its step methods,
    stores the number of the call under the slug of the step, and reports a
    chain effect for the first [effects] calls only. Its hooks are those of
    [Visitor]. *)
Definition counting (effects : nat) : Visitor nat := {|
  visit := λ step st n,
    (S n, Ok {| state := <[slug_of step := VInt (Z.of_nat n)]> st;
                chain_effect := (n <? effects)%nat |});
  enter_group := λ step st n, (n, Visitor_hook step st);
  exit_group := λ step st n, (n, Visitor_hook step st);
  enter_repeat := λ step st n, (n, Visitor_hook step st);
  exit_repeat := λ step st n, (n, Visitor_hook step st)
|}.

(** [lambda state: False], the default of [Transform.func]: it takes the
    state and nothing else, so that a call with arguments raises. *)
Definition func_default : Callable := λ _ args,
  match args with
  | [] => Some (VBool false)
  | _ :: _ => None
  end.

(** [Repeat(slug="main_loop", max=max, steps=[Transform(slug="swap")])] *)
Definition main_loop (max : FieldValue) : Step :=
  Repeat "main_loop" max [] None [Transform CTransform "swap" func_default []].

(** [Group(slug="borrow", given=[Transform(slug="limit")],
    entry_condition=Expr(slug="above"), steps=[Transform(slug="swap")])] *)
Definition guarded_group : Step :=
  Group "borrow" [Transform CTransform "limit" func_default []]
    (Some (Transform CExpr "above" func_default []))
    [Transform CTransform "swap" func_default []].

(** The same group as the body of a [Repeat]. *)
Definition guarded_loop (max : FieldValue) : Step :=
  Repeat "main_loop" max [Transform CTransform "limit" func_default []]
    (Some (Transform CExpr "above" func_default []))
    [Transform CTransform "swap" func_default []].

(** A [Param] like [SetAllowance.set_unlimited], but optional. *)
Definition set_unlimited_optional : Param.t := {|
  Param.type := py_bool; Param.key := "set_unlimited";
  Param.name := "Set unlimited"; Param.required := false;
  Param.default := VBool true
|}.

(** [Ref(key="max_loops", required=True)] *)
Definition max_loops_ref : Ref.t := {|
  Ref.key := "max_loops"; Ref.required := true; Ref.default := VNone
|}.

(** What assigning slugs to part of a tree does to [seen]: the slugs [l]
    handed out (kept or generated) are new, distinct and not empty, and are
    added to [seen]. *)
Definition assigned (seen : gset string) (l : list string)
    (seen' : gset string) : Prop :=
  seen' = list_to_set l ∪ seen ∧ NoDup l
  ∧ (∀ x, x ∈ l → (x ∉ seen) ∧ x ≠ "").

(** A tree in which some steps come with a slug and some do not. *)
Definition sample_tree : Step :=
  Group "" [Transform CTransform "" func_default []]
    (Some (Transform CExpr "expr" func_default []))
    [Transform CTransform "" func_default [];
     Repeat "" (FParam Repeat_max) [] None
       [Transform CTransform "swap" func_default []]].

(** The error [_init_slugs] raises for a slug that occurs twice. *)
Definition is_duplicate_slug (e : Error) : Prop :=
  ∃ slug, slug ≠ "" ∧ e = RuntimeError ("duplicate slug found: " +:+ slug).

(** [Group(slug="borrow", entry_condition=Expr(slug="above"),
    steps=[Transform(slug="swap")])] *)
Definition gated_group : Step :=
  Group "borrow" [] (Some (Transform CExpr "above" func_default []))
    [Transform CTransform "swap" func_default []].

(** [Group(slug="main", steps=[Transform(slug="swap"),
    Transform(slug="repay")])] *)
Definition plain_group : Step :=
  Group "main" [] None
    [Transform CTransform "swap" func_default [];
     Transform CTransform "repay" func_default []].

(** The run of [self] from world [w] ends with exception [e] in world [w'],
    and so does the call of a pipeline that has [self] as its root. *)
Definition aborts_with {V : Type} (visitor : Visitor V) (self : Step)
    (st : State) (user_params : Value) (w w' : World V) (e : Error) : Prop :=
  accept visitor self st user_params w = (w', Raise e)
  ∧ (∀ p doc, root p = self → st = ∅ → root_params p doc = Ok user_params →
              Pipeline_call visitor p doc w = (w', Raise e)).

(** The condition and the body of the loop of [main_loop], under the
    executor [counting effects] and without user parameters. *)
Definition main_loop_cond (effects : nat) : State → M nat (State * Value) :=
  eval_condition (accept (counting effects)) "main_loop" [] None (VDict ∅).

Definition main_loop_body (effects : nat)
    : State → bool → M nat (State * bool) :=
  run_steps (accept (counting effects)) (VDict ∅)
    [Transform CTransform "swap" func_default []].

(** A tree with the slugs of all its steps blanked: what is left is its
    shape, the classes of its steps and their fields. *)
Fixpoint erase_slugs (s : Step) : Step :=
  match s with
  | Leaf cls _ fields => Leaf cls "" fields
  | Transform cls _ func args => Transform cls "" func args
  | Group _ given ec steps =>
      Group "" (map erase_slugs given) (option_map erase_slugs ec)
        (map erase_slugs steps)
  | Repeat _ max given ec steps =>
      Repeat "" max (map erase_slugs given) (option_map erase_slugs ec)
        (map erase_slugs steps)
  end.

(** A slug given by the author of the tree stays as it is. *)
Definition kept (before after : string) : Prop :=
  before ≠ "" → after = before.

(** The error [_init_slugs] raises for a slug that occurs twice, the slug
    being one of [l]. *)
Definition duplicate_slug_of (l : list string) (e : Error) : Prop :=
  ∃ slug, slug ≠ "" ∧ slug ∈ l
          ∧ e = RuntimeError ("duplicate slug found: " +:+ slug).

(** The slugs [l] can be handed out after those in [seen]: they are
    distinct, not empty and not in [seen]. *)
Definition fresh_for (seen : gset string) (l : list string) : Prop :=
  NoDup l ∧ ∀ x, x ∈ l → (x ∉ seen) ∧ x ≠ "".

(** No character of [s] is an upper-case letter. *)
Fixpoint no_upper (s : string) : bool :=
  match s with
  | EmptyString => true
  | String c tl => negb (is_upper c) && no_upper tl
  end.

(** [s] without its underscores. *)
Fixpoint strip_underscores (s : string) : string :=
  match s with
  | EmptyString => EmptyString
  | String c tl =>
      if Ascii.eqb c "_" then strip_underscores tl
      else String c (strip_underscores tl)
  end.

(** ** [Step.params] and [Transform.params] *)

(** What the instance holds where [_prepare_args] looks: the values of its
    formal parameters, and for a [Transform] its [args]. *)
Definition held_values (self : Step) : list FieldValue :=
  match self with
  | Transform _ _ _ args => args
  | _ => map fvalue (formal_fields self)
  end.

(** [Step.params] and [Transform.params]: the [Param]s the instance holds,
    by key; of two with the same key the later one stays. *)
Definition Step_params (self : Step) : gmap string Param.t :=
  foldl (λ p value, match value with
                    | FParam q => <[Param.key q := q]> p
                    | _ => p
                    end) ∅ (held_values self).

(** The keys of the [Ref]s the instance holds. *)
Definition ref_keys (self : Step) : list string :=
  omap (λ value, match value with
                 | FRef r => Some (Ref.key r)
                 | _ => None
                 end) (held_values self).

(** The errors of [errors.py] that [_prepare_args] raises, each with the
    slug of the step in [step_slug]. *)
Definition resolution_error (slug : string) (e : Error) : Prop :=
  match e with
  | InvalidReferenceError s _ | InvalidFormalParamTypeError s _ _
  | InvalidFormalParamError s _ _ | MissingParamError s _
  | InvalidParamTypeError s _ _ => s = slug
  | _ => False
  end.

(** Two states and two documents that a held value cannot tell apart. *)
Definition agree_on (st st' : State) (up up' : Value) (value : FieldValue)
    : Prop :=
  match value with
  | FLit _ => True
  | FParam p =>
      dict_get up (Param.key p) (Param.default p)
      = dict_get up' (Param.key p) (Param.default p)
  | FRef r => st !! Ref.key r = st' !! Ref.key r
  end.

(** The value is a literal: neither a [Param] nor a [Ref]. *)
Definition is_literal (value : FieldValue) : Prop := ∃ v, value = FLit v.

(** The name [Transform._prepare_args] gives [args[i]] in its errors when
    the argument is a [Param] with key [key]. *)
Definition arg_name (i : nat) (key : string) : string :=
  "args[" +:+ pretty i +:+ "], key=" +:+ key.

(** The world [w] with one more warning. *)
Definition warned {V : Type} (w : World V) : World V :=
  {| executor := executor w;
     warnings := warnings w ++ [max_iterations_warning] |}.

(** An executor that keeps nothing and takes [expr] and the hooks as
    [Visitor] implements them. *)
Definition inherited_expr : Visitor unit := {|
  visit := λ step st x, (x, Visitor_expr step st);
  enter_group := λ step st x, (x, Visitor_hook step st);
  exit_group := λ step st x, (x, Visitor_hook step st);
  enter_repeat := λ step st x, (x, Visitor_hook step st);
  exit_repeat := λ step st x, (x, Visitor_hook step st)
|}.

(** [lambda state: state["limit"]] *)
Definition func_limit : Callable := λ st _, st !! "limit".

(** The values of the arguments of a prepared [Transform]. *)
Definition literal_values (args : list FieldValue) : list Value :=
  omap (λ a, match a with FLit v => Some v | _ => None end) args.

(** ** [Pipeline.params] and [utils.nested] *)

(** What [Pipeline.params] holds under a key: a [Param] of a step, or the
    dictionary of a step. *)
Inductive ParamTree : Type :=
| PParam (p : Param.t)
| PDict (d : gmap string ParamTree).

(** [nested(d, list_of_keys)] together with what its caller does to the
    dictionary it returns: [nested] goes down from [d] along the keys, puts
    an empty dictionary where a key is missing, and returns the dictionary
    it ends in, which the caller changes in place ([change]); here the
    changed dictionary is put back along the way up. Where a key holds a
    [Param] and not a dictionary, the next test [k not in d] raises
    [TypeError], and when there is no next key, the caller's [update] of
    what [nested] returned raises [AttributeError]. *)
Fixpoint nested (list_of_keys : list string)
    (change : gmap string ParamTree → res (gmap string ParamTree))
    (d : gmap string ParamTree) : res (gmap string ParamTree) :=
  match list_of_keys with
  | [] => change d
  | k :: rest =>
      match default (PDict ∅) (d !! k) with
      | PDict inner =>
          inner' ← nested rest change inner;
          Ok (<[k := PDict inner']> d)
      | PParam _ =>
          Raise (match rest with [] => AttributeError | _ => TypeError end)
      end
  end.

(** The body of the loop of [Pipeline.params]:
    [nested(p, path).update(step.params)]. *)
Definition add_params (acc : res (gmap string ParamTree))
    (x : list string * Step) : res (gmap string ParamTree) :=
  p ← acc;
  nested x.1 (λ inner, Ok ((PParam <$> Step_params x.2) ∪ inner)) p.

(** [Pipeline.params] *)
Definition Pipeline_params (p : Pipeline) : res (gmap string ParamTree) :=
  foldl add_params (Ok ∅) (walk [] (root p)).

(** The steps directly below a step, in the order of [walk]. *)
Definition children (s : Step) : list Step :=
  match s with
  | Group _ given ec steps | Repeat _ _ given ec steps =>
      given ++ option_list ec ++ steps
  | Leaf _ _ _ | Transform _ _ _ _ => []
  end.

(** The dictionary of a step as one would describe it: its [Param]s by key
    and the dictionaries of its children by slug. *)
Fixpoint params_tree (s : Step) : gmap string ParamTree :=
  let add := foldl (λ m c, <[slug_of c := PDict (params_tree c)]> m) in
  let own := PParam <$> Step_params s in
  match s with
  | Leaf _ _ _ | Transform _ _ _ _ => own
  | Group _ given ec steps | Repeat _ _ given ec steps =>
      add (match ec with
           | Some e => <[slug_of e := PDict (params_tree e)]> (add own given)
           | None => add own given
           end) steps
  end.

(** No step of the tree has a child whose slug is the key of one of the
    [Param]s the step holds. *)
Fixpoint collision_free (s : Step) : bool :=
  let free c := bool_decide (slug_of c ∉ dom (Step_params s)) in
  match s with
  | Leaf _ _ _ | Transform _ _ _ _ => true
  | Group _ given ec steps | Repeat _ _ given ec steps =>
      forallb (λ c, free c && collision_free c) given
      && match ec with
         | Some e => free e && collision_free e
         | None => true
         end
      && forallb (λ c, free c && collision_free c) steps
  end.

(** ** The course of a run, step by step *)

(** The guards [given] run one after the other from state [st] and world
    [w], each on the state its predecessor returned and with its own part of
    [user_params], and none of them reports a chain effect; [st'] and [w']
    are the state and the world after the last one. *)
Inductive Guards {V : Type} (visitor : Visitor V) (user_params : Value)
    : list Step → State → World V → State → World V → Prop :=
| Guards_nil st w : Guards visitor user_params [] st w st w
| Guards_cons g rest st w upg ev w1 st' w' :
    dict_get user_params (slug_of g) (VDict ∅) = Ok upg →
    accept visitor g st upg w = (w1, Ok ev) →
    chain_effect ev = false →
    Guards visitor user_params rest (state ev) w1 st' w' →
    Guards visitor user_params (g :: rest) st w st' w'.

(** The guards, and then the entry condition on the state the guards left,
    run without a chain effect; [st'] is the state the last of them
    returned and [condition] what it holds under ["_condition_"] ([False]
    when the key is missing), or [True] when there is no entry condition. *)
Inductive Condition {V : Type} (visitor : Visitor V) (user_params : Value)
    (given : list Step)
    : option Step → State → World V → State → Value → World V → Prop :=
| Condition_none st w st1 w1 :
    Guards visitor user_params given st w st1 w1 →
    Condition visitor user_params given None st w st1 (VBool true) w1
| Condition_some cond st w st1 w1 upc ev w2 :
    Guards visitor user_params given st w st1 w1 →
    dict_get user_params (slug_of cond) (VDict ∅) = Ok upc →
    accept visitor cond st1 upc w1 = (w2, Ok ev) →
    chain_effect ev = false →
    Condition visitor user_params given (Some cond) st w (state ev)
      (default (VBool false) (state ev !! "_condition_")) w2.

(** [n] passes of a loop, one after the other: in each the condition is
    evaluated on the state the pass before it left and is true, the children
    run on the state the condition left, and the flag [any_chain_effect] is
    set when they are through (so that the loop goes on). [st'], [any'] and
    [w'] are the state, the flag and the world after the last pass. *)
Inductive Passes {V : Type} (visitor : Visitor V) (user_params : Value)
    (given : list Step) (ec : option Step) (steps : list Step)
    : nat → State → bool → World V → State → bool → World V → Prop :=
| Passes_O st any w :
    Passes visitor user_params given ec steps 0 st any w st any w
| Passes_S n st any w st1 condition w1 evs st2 w2 st' any' w' :
    Condition visitor user_params given ec st w st1 condition w1 →
    truthy condition = true →
    Children visitor user_params steps st1 w1 evs st2 w2 →
    any || existsb chain_effect evs = true →
    Passes visitor user_params given ec steps n st2 true w2 st' any' w' →
    Passes visitor user_params given ec steps (S n) st any w st' any' w'.

(** Where the guards, the entry condition and the children of a group, or
    of one pass of a loop, that start in state [st] and world [w] call
    [accept] of one of them: the step, and the state, the part of
    [user_params] and the world it is called with. *)
Inductive InBlock {V : Type} (visitor : Visitor V) (user_params : Value)
    (given : list Step) (ec : option Step) (steps : list Step) (st : State)
    (w : World V) : Step → State → Value → World V → Prop :=
| InBlock_given pre g post st1 w1 upg :
    given = pre ++ g :: post →
    Guards visitor user_params pre st w st1 w1 →
    dict_get user_params (slug_of g) (VDict ∅) = Ok upg →
    InBlock visitor user_params given ec steps st w g st1 upg w1
| InBlock_condition cond st1 w1 upc :
    ec = Some cond →
    Guards visitor user_params given st w st1 w1 →
    dict_get user_params (slug_of cond) (VDict ∅) = Ok upc →
    InBlock visitor user_params given ec steps st w cond st1 upc w1
| InBlock_step pre s post st1 condition w1 evs st2 w2 ups :
    steps = pre ++ s :: post →
    Condition visitor user_params given ec st w st1 condition w1 →
    truthy condition = true →
    Children visitor user_params pre st1 w1 evs st2 w2 →
    dict_get user_params (slug_of s) (VDict ∅) = Ok ups →
    InBlock visitor user_params given ec steps st w s st2 ups w2.

(** [accept] of a [Group] or [Repeat], called with [st], [user_params] and
    [w], calls [accept] of a step directly below it with [st'], [up'] and
    [w']: for a [Repeat] in the pass after [k] passes that ran through. *)
Inductive Calls {V : Type} (visitor : Visitor V)
    : Step → State → Value → World V → Step → State → Value → World V
      → Prop :=
| Calls_Group slug given ec steps st up w w0 st0 s st' up' w' :
    call (enter_group visitor (Group slug given ec steps) st) w
    = (w0, Ok st0) →
    InBlock visitor up given ec steps st0 w0 s st' up' w' →
    Calls visitor (Group slug given ec steps) st up w s st' up' w'
| Calls_Repeat slug max given ec steps st up w actual w0 st0 cs n k stk anyk
    wk s st' up' w' :
    resolve_field slug st up
      {| fname := "max"; formal := Repeat_max; fvalue := max |} = Ok actual →
    call (enter_repeat visitor (Repeat slug (FLit actual) given ec steps) st)
      w = (w0, Ok st0) →
    py_range actual = Ok (cs, n) →
    (Z.of_nat k < n)%Z →
    Passes visitor up given ec steps k st0 false w0 stk anyk wk →
    InBlock visitor up given ec steps stk wk s st' up' w' →
    Calls visitor (Repeat slug max given ec steps) st up w s st' up' w'.

(** The run of a step reaches a step of the tree below it, or is that
    step's own run. *)
Inductive Within {V : Type} (visitor : Visitor V)
    : Step → State → Value → World V → Step → State → Value → World V
      → Prop :=
| Within_here s st up w : Within visitor s st up w s st up w
| Within_below s st up w s1 st1 up1 w1 s2 st2 up2 w2 :
    Calls visitor s st up w s1 st1 up1 w1 →
    Within visitor s1 st1 up1 w1 s2 st2 up2 w2 →
    Within visitor s st up w s2 st2 up2 w2.

(** The run of [self] from world [w] ends with exception [e] in world [w'],
    and so does the call of every pipeline whose run reaches that run of
    [self], wherever [self] stands in its tree. *)
Definition aborts_run {V : Type} (visitor : Visitor V) (self : Step)
    (st : State) (user_params : Value) (w w' : World V) (e : Error) : Prop :=
  accept visitor self st user_params w = (w', Raise e)
  ∧ (∀ p doc up0 w0,
       root_params p doc = Ok up0 →
       Within visitor (root p) ∅ up0 w0 self st user_params w →
       Pipeline_call visitor p doc w0 = (w', Raise e)).

(** [Repeat(slug="main_loop", max=5, steps=[Transform(slug="swap"), body])]:
    a group as the second child of the main loop. *)
Definition looped (body : Step) : Step :=
  Repeat "main_loop" (FLit (VInt 5)) [] None
    [Transform CTransform "swap" func_default []; body].

(** An executor that counts the calls of its step methods, like
    [counting], and keeps what it wrote: under the slug of a step it stores
    the list of the numbers of all the calls made for that step so far. The
    calls whose number is in [effects] report a chain effect. *)
Definition appending (effects : list nat) : Visitor nat := {|
  visit := λ step st n,
    let before := match st !! slug_of step with
                  | Some (VList l) => l
                  | _ => []
                  end in
    (S n, Ok {| state := <[slug_of step :=
                             VList (before ++ [VInt (Z.of_nat n)])]> st;
                chain_effect := bool_decide (n ∈ effects) |});
  enter_group := λ step st n, (n, Visitor_hook step st);
  exit_group := λ step st n, (n, Visitor_hook step st);
  enter_repeat := λ step st n, (n, Visitor_hook step st);
  exit_repeat := λ step st n, (n, Visitor_hook step st)
|}.

(** The lowercase, underscore-separated form of the name of each step
    class, written out. *)
Definition snake_case_name (s : Step) : string :=
  match s with
  | Leaf cls _ _ =>
      match cls with
      | Setup => "setup"
      | Balance => "balance"
      | Prices => "prices"
      | BorrowLimit => "borrow_limit"
      | BorrowLimitFraction => "borrow_limit_fraction"
      | BorrowBalance => "borrow_balance"
      | Borrow => "borrow"
      | Transfer => "transfer"
      | SetAllowance => "set_allowance"
      | SetContractAllowance => "set_contract_allowance"
      | Allowance => "allowance"
      | GiveCollateral => "give_collateral"
      | Supply => "supply"
      | Redeemable => "redeemable"
      | Redeem => "redeem"
      | Repay => "repay"
      | CompAccrued => "comp_accrued"
      | HarvestComp => "harvest_comp"
      | LQTYAccrued => "lqty_accrued"
      | ETHAccrued => "eth_accrued"
      | HarvestLQTY => "harvest_lqty"
      | DepositLUSD => "deposit_lusd"
      | WithdrawLUSD => "withdraw_lusd"
      | EstimateHarvestCost => "estimate_harvest_cost"
      | StabilityPoolCheck => "stability_pool_check"
      | LiquityExitCheck => "liquity_exit_check"
      | StoreMinGasBalance => "store_min_gas_balance"
      | CalculateDifference => "calculate_difference"
      | CalculateLiquityAPR => "calculate_liquity_apr"
      | ForecastBorrowLimitFractionAfterSwapWithinLimit =>
          "forecast_borrow_limit_fraction_after_swap_within_limit"
      | OneInchTargetQuote => "one_inch_target_quote"
      | OneInchSourceQuote => "one_inch_source_quote"
      | SetOneInchAllowance => "set_one_inch_allowance"
      | OneInchSwap => "one_inch_swap"
      | CTokenEquivalent => "c_token_equivalent"
      | ConvertETHToWETH => "convert_eth_to_weth"
      end
  | Transform CTransform _ _ _ => "transform"
  | Transform CExpr _ _ _ => "expr"
  | Transform CReportResult _ _ _ => "report_result"
  | Group _ _ _ _ => "group"
  | Repeat _ _ _ _ _ => "repeat"
  end.

(** A tree of steps without slugs whose class names have several words. *)
Definition harvest_tree : Step :=
  Group "" [Leaf LQTYAccrued "" []] None
    [Leaf HarvestLQTY "" []; Leaf HarvestLQTY "" [];
     Leaf ConvertETHToWETH "" []; Leaf OneInchSwap "" [];
     Transform CReportResult "" func_default []].

(** * Properties *)

(** ** [Param.initial] *)

Lemma initial_falsy_default (p : Param.t) :
  Param.required p = true → truthy (Param.default p) = false →
  Param.initial p = construct (Param.type p) None.
Proof. unfold Param.initial. intros -> ->. reflexivity. Qed.

(** C8, as the specification states it, fails: an optional parameter with a
    default has no initial value. *)
Lemma C8_counterexample :
  Param.initial set_unlimited_optional
  ≠ initial_as_specified set_unlimited_optional.
Proof. vm_compute. discriminate. Qed.

(** C8 (amended): the initial value of a [Param] is absent when the
    parameter is not required, whether or not it has a default; when it is
    required, it is the default if that is set and true in a boolean context,
    and else the zero value [type()] of its declared type: when no default
    is set, and also when the default is set but false ([False], [0], the
    empty string). *)
Theorem C8_initial_value (p : Param.t) :
  (Param.required p = false → Param.initial p = Some VNone)
  ∧ (Param.required p = true → truthy (Param.default p) = true →
     Param.initial p = Some (Param.default p))
  ∧ (Param.required p = true → truthy (Param.default p) = false →
     Param.initial p = construct (Param.type p) None).
Proof.
  unfold Param.initial. repeat split.
  - intros ->. reflexivity.
  - intros -> ->. reflexivity.
  - intros -> ->. reflexivity.
Qed.

(** An optional parameter with a default; [Repeat.max]; and required
    parameters of type [int] without a default, with the default [""] and
    with the default [False]. *)
Lemma C8_initial_value_witness :
  Param.initial set_unlimited_optional = Some VNone
  ∧ Param.initial Repeat_max = Some (VInt 50)
  ∧ Param.initial
      {| Param.type := py_int; Param.key := "max"; Param.name := "";
         Param.required := true; Param.default := VNone |} = Some (VInt 0)
  ∧ Param.initial
      {| Param.type := py_int; Param.key := "max"; Param.name := "";
         Param.required := true; Param.default := VStr "" |} = Some (VInt 0)
  ∧ Param.initial
      {| Param.type := py_int; Param.key := "max"; Param.name := "";
         Param.required := true; Param.default := VBool false |}
    = Some (VInt 0).
Proof.
  split; [|split; [|split; [|split]]].
  - apply (proj1 (C8_initial_value set_unlimited_optional)). reflexivity.
  - apply (proj1 (proj2 (C8_initial_value Repeat_max))); reflexivity.
  - exact (proj2 (proj2 (C8_initial_value
             {| Param.type := py_int; Param.key := "max"; Param.name := "";
                Param.required := true; Param.default := VNone |}))
             eq_refl eq_refl).
  - exact (proj2 (proj2 (C8_initial_value
             {| Param.type := py_int; Param.key := "max"; Param.name := "";
                Param.required := true; Param.default := VStr "" |}))
             eq_refl eq_refl).
  - exact (proj2 (proj2 (C8_initial_value
             {| Param.type := py_int; Param.key := "max"; Param.name := "";
                Param.required := true; Param.default := VBool false |}))
             eq_refl eq_refl).
Defined.

(** ** [Step._prepare_args] *)

Lemma res_bind_Ok {A B : Type} (f : A → res B) (a : A) : Ok a ≫= f = f a.
Proof. reflexivity. Qed.

Lemma res_bind_Raise {A B : Type} (f : A → res B) (e : Error) :
  Raise e ≫= f = Raise e.
Proof. reflexivity. Qed.

Lemma prepare_fields_app slug st up (l1 l2 : list Field) :
  prepare_fields slug st up (l1 ++ l2)
  = (r1 ← prepare_fields slug st up l1;
     r2 ← prepare_fields slug st up l2;
     Ok (r1 ++ r2)).
Proof.
  induction l1 as [|f l1 IH]; simpl.
  - destruct (prepare_fields slug st up l2); reflexivity.
  - destruct (resolve_field slug st up f); simpl; [|reflexivity].
    rewrite IH. destruct (prepare_fields slug st up l1); simpl; [|reflexivity].
    destruct (prepare_fields slug st up l2); reflexivity.
Qed.

(** A field that fails after a prefix that resolves makes the loop raise. *)
Lemma prepare_fields_raise slug st up pre pre' f post e :
  prepare_fields slug st up pre = Ok pre' →
  resolve_field slug st up f = Raise e →
  prepare_fields slug st up (pre ++ f :: post) = Raise e.
Proof.
  intros Hpre Hf. rewrite prepare_fields_app, Hpre. simpl. rewrite Hf.
  reflexivity.
Qed.

Lemma prepare_fields_ok slug st up pre pre' f actual post post' :
  prepare_fields slug st up pre = Ok pre' →
  resolve_field slug st up f = Ok actual →
  prepare_fields slug st up post = Ok post' →
  prepare_fields slug st up (pre ++ f :: post)
  = Ok (pre' ++ with_actual f actual :: post').
Proof.
  intros Hpre Hf Hpost. rewrite prepare_fields_app, Hpre. simpl.
  rewrite Hf, Hpost. reflexivity.
Qed.

(** [_prepare_args] of a step with formal parameters is the loop over them. *)
Lemma prepare_args_raise self st up e :
  prepare_fields (slug_of self) st up (formal_fields self) = Raise e →
  prepare_args self st up = Raise e.
Proof.
  destruct self as [cls slug fields| | |slug max given ec steps]; simpl;
    try discriminate.
  - intros ->. reflexivity.
  - destruct (resolve_field _ _ _ _); simpl; [discriminate|].
    intros [= ->]. reflexivity.
Qed.

Lemma prepare_args_ok self st up fs :
  formal_fields self ≠ [] →
  prepare_fields (slug_of self) st up (formal_fields self) = Ok fs →
  ∃ self', prepare_args self st up = Ok self'
           ∧ formal_fields self' = fs ∧ slug_of self' = slug_of self.
Proof.
  destruct self as [cls slug fields| | |slug max given ec steps]; simpl;
    try congruence.
  - intros _ ->. eexists. split; [reflexivity|]. split; reflexivity.
  - intros _. destruct (resolve_field _ _ _ _); simpl; [|discriminate].
    intros [= <-]. eexists. split; [reflexivity|]. split; reflexivity.
Qed.

Lemma resolve_field_Param slug st (up : gmap string Value) f p :
  fvalue f = FParam p →
  let raw := default (Param.default p) (up !! Param.key p) in
  resolve_field slug st (VDict up) f
  = if is_None raw || is_empty_str raw then
      if Param.required p then Raise (MissingParamError slug (Param.key p))
      else Ok VNone
    else match construct (Param.type p) (Some raw) with
         | Some actual => Ok actual
         | None => Raise (InvalidParamTypeError slug (Param.key p) raw)
         end.
Proof. intros Hf. unfold resolve_field. rewrite Hf. reflexivity. Qed.

Lemma resolve_field_Ref slug st up f r :
  fvalue f = FRef r →
  resolve_field slug st up f
  = let actual := default (Ref.default r) (st !! Ref.key r) in
    if is_None actual && Ref.required r
    then Raise (InvalidReferenceError slug (Ref.key r))
    else Ok actual.
Proof. intros Hf. unfold resolve_field. rewrite Hf. reflexivity. Qed.

(** The same rule in [Transform._prepare_args], where the position of the
    argument goes into the name. *)
Lemma resolve_arg_Param slug st (up : gmap string Value) (i : nat) p :
  let raw := default (Param.default p) (up !! Param.key p) in
  let where_ := "args[" +:+ pretty i +:+ "], key=" +:+ Param.key p in
  resolve_arg slug st (VDict up) i (FParam p)
  = if is_None raw || is_empty_str raw then
      if Param.required p then Raise (MissingParamError slug where_)
      else Ok VNone
    else match construct (Param.type p) (Some raw) with
         | Some actual => Ok actual
         | None => Raise (InvalidParamTypeError slug where_ raw)
         end.
Proof. reflexivity. Qed.

(** C5: for a step with a required [Param] field (the fields before it
    resolving), let [raw] be the value found in [user_params] under the key
    of the parameter, or else its default. If [raw] is [None] or the empty
    string, resolution raises [MissingParamError] with the slug of the step
    and the key; if [raw] is present and the type refuses it, resolution
    raises [InvalidParamTypeError] with slug, key and [raw]; if the type
    accepts it (whatever the type of [raw]), the field resolves to the
    coerced value, and with it the step once the remaining fields resolve. *)
Theorem C5_required_param (self : Step) (st : State)
    (up : gmap string Value) (pre post pre' : list Field) (f : Field)
    (p : Param.t) :
  formal_fields self = pre ++ f :: post →
  fvalue f = FParam p →
  Param.required p = true →
  prepare_fields (slug_of self) st (VDict up) pre = Ok pre' →
  let raw := default (Param.default p) (up !! Param.key p) in
  (is_None raw || is_empty_str raw = true →
   prepare_args self st (VDict up)
   = Raise (MissingParamError (slug_of self) (Param.key p)))
  ∧ (is_None raw || is_empty_str raw = false →
     construct (Param.type p) (Some raw) = None →
     prepare_args self st (VDict up)
     = Raise (InvalidParamTypeError (slug_of self) (Param.key p) raw))
  ∧ (∀ actual post',
       is_None raw || is_empty_str raw = false →
       construct (Param.type p) (Some raw) = Some actual →
       prepare_fields (slug_of self) st (VDict up) post = Ok post' →
       ∃ self', prepare_args self st (VDict up) = Ok self'
                ∧ formal_fields self' = pre' ++ with_actual f actual :: post'
                ∧ slug_of self' = slug_of self).
Proof.
  intros Hfields Hf Hreq Hpre raw.
  pose proof (resolve_field_Param (slug_of self) st up f p Hf) as Hres.
  cbv zeta in Hres. fold raw in Hres. rewrite Hreq in Hres.
  repeat split.
  - intros Hraw. rewrite Hraw in Hres.
    apply prepare_args_raise. rewrite Hfields.
    eapply prepare_fields_raise; eassumption.
  - intros Hraw Hty. rewrite Hraw, Hty in Hres.
    apply prepare_args_raise. rewrite Hfields.
    eapply prepare_fields_raise; eassumption.
  - intros actual post' Hraw Hty Hpost. rewrite Hraw, Hty in Hres.
    apply prepare_args_ok.
    + rewrite Hfields. destruct pre; discriminate.
    + rewrite Hfields. eapply prepare_fields_ok; eassumption.
Qed.

(** [Repeat(max=Param(int, "max", default=50))] with the documents
    [{"max": ""}], [{"max": "many"}] and [{"max": "7"}]. *)
Lemma C5_required_param_witness :
  prepare_args (main_loop (FParam Repeat_max)) ∅ (VDict {["max" := VStr ""]})
  = Raise (MissingParamError "main_loop" "max")
  ∧ prepare_args (main_loop (FParam Repeat_max)) ∅
      (VDict {["max" := VStr "many"]})
    = Raise (InvalidParamTypeError "main_loop" "max" (VStr "many"))
  ∧ ∃ self', prepare_args (main_loop (FParam Repeat_max)) ∅
               (VDict {["max" := VStr "7"]}) = Ok self'
             ∧ formal_fields self'
               = [] ++ with_actual
                         {| fname := "max"; formal := Repeat_max;
                            fvalue := FParam Repeat_max |} (VInt 7) :: []
             ∧ slug_of self' = "main_loop".
Proof.
  split; [|split].
  - exact (proj1 (C5_required_param (main_loop (FParam Repeat_max)) ∅
                    {["max" := VStr ""]} [] [] [] _ Repeat_max
                    eq_refl eq_refl eq_refl eq_refl) eq_refl).
  - exact (proj1 (proj2 (C5_required_param (main_loop (FParam Repeat_max)) ∅
                    {["max" := VStr "many"]} [] [] [] _ Repeat_max
                    eq_refl eq_refl eq_refl eq_refl)) eq_refl eq_refl).
  - exact (proj2 (proj2 (C5_required_param (main_loop (FParam Repeat_max)) ∅
                    {["max" := VStr "7"]} [] [] [] _ Repeat_max
                    eq_refl eq_refl eq_refl eq_refl)) (VInt 7) []
                    eq_refl eq_refl eq_refl).
Defined.

(** C6, as the specification states it, fails: the error raised for a
    missing required reference is not of the execution-error family. *)
Lemma C6_counterexample :
  prepare_args (main_loop (FRef max_loops_ref)) ∅ (VDict ∅)
  = Raise (InvalidReferenceError "main_loop" "max_loops")
  ∧ error_family (InvalidReferenceError "main_loop" "max_loops")
    ≠ Some PipelineExecutionError.
Proof. split; [reflexivity|discriminate]. Qed.

(** C6 (amended): for a step with a required [Ref] field whose key is not
    in the state and which has no default (the fields before it resolving),
    resolution raises [InvalidReferenceError] with the slug of the step and
    the key of the reference, and this error is declared in the
    definition-error family ([PipelineDefinitionError]). *)
Theorem C6_required_ref (self : Step) (st : State) (up : Value)
    (pre post pre' : list Field) (f : Field) (r : Ref.t) :
  formal_fields self = pre ++ f :: post →
  fvalue f = FRef r →
  Ref.required r = true →
  st !! Ref.key r = None →
  Ref.default r = VNone →
  prepare_fields (slug_of self) st up pre = Ok pre' →
  prepare_args self st up
  = Raise (InvalidReferenceError (slug_of self) (Ref.key r))
  ∧ error_family (InvalidReferenceError (slug_of self) (Ref.key r))
    = Some PipelineDefinitionError.
Proof.
  intros Hfields Hf Hreq Hst Hdef Hpre. split; [|reflexivity].
  apply prepare_args_raise. rewrite Hfields.
  eapply prepare_fields_raise; [eassumption|].
  rewrite (resolve_field_Ref _ _ _ _ _ Hf). cbv zeta.
  rewrite Hst, Hdef, Hreq. reflexivity.
Qed.

Lemma C6_required_ref_witness :
  prepare_args (main_loop (FRef max_loops_ref)) ∅ (VDict ∅)
  = Raise (InvalidReferenceError "main_loop" "max_loops")
  ∧ error_family (InvalidReferenceError "main_loop" "max_loops")
    = Some PipelineDefinitionError.
Proof.
  refine (C6_required_ref (main_loop (FRef max_loops_ref)) ∅ (VDict ∅)
            [] [] [] _ max_loops_ref _ _ _ _ _ _); reflexivity.
Defined.

(** ** [Pipeline._init_slugs] *)

Lemma append_cons_neq (s : string) (c : ascii) (t : string) :
  s ≠ s +:+ String c t.
Proof.
  induction s as [|a s IH]; simpl; [discriminate|].
  intros [= H]. exact (IH H).
Qed.

Lemma candidate_inj (base_slug : string) (i j : nat) :
  candidate base_slug i = candidate base_slug j → i = j.
Proof.
  destruct i as [|i], j as [|j]; simpl; intros H.
  - reflexivity.
  - exfalso. exact (append_cons_neq _ _ _ H).
  - exfalso. symmetry in H. exact (append_cons_neq _ _ _ H).
  - apply (inj (String.append base_slug)) in H.
    injection H as H. exact (inj pretty _ _ H).
Qed.

Lemma candidate_nonempty (base_slug : string) (k : nat) :
  base_slug ≠ "" → candidate base_slug k ≠ "".
Proof.
  intros Hb. destruct k as [|k]; simpl; [exact Hb|].
  destruct base_slug; [congruence|discriminate].
Qed.

(** What the loop returns, when it returns: the first candidate not in
    [seen], counting from the one it starts with. *)
Lemma gen_slug_first_free (fuel : nat) (base_slug : string) (seen : gset string)
    (k : nat) (slug : string) :
  gen_slug fuel base_slug seen (candidate base_slug k) (S k) = Some slug →
  ∃ j, k ≤ j ∧ slug = candidate base_slug j ∧ (slug ∉ seen)
       ∧ (∀ m, k ≤ m < j → candidate base_slug m ∈ seen).
Proof.
  revert k. induction fuel as [|fuel IH]; intros k; simpl; [discriminate|].
  destruct (decide (candidate base_slug k ∈ seen)) as [Hin|Hout].
  - intros H. destruct (IH (S k) H) as (j & Hle & Hj & Hnot & Hbelow).
    exists j. repeat split; [lia|assumption|assumption|].
    intros m Hm. destruct (decide (m = k)) as [->|Hne]; [assumption|].
    apply Hbelow. lia.
  - intros [= <-]. exists k. repeat split; [lia|assumption|].
    intros m Hm. lia.
Qed.

Lemma gen_slug_ext (fuel : nat) (base_slug : string) (seen seen' : gset string)
    (k : nat) :
  (∀ m, k ≤ m → candidate base_slug m ∈ seen ↔ candidate base_slug m ∈ seen') →
  gen_slug fuel base_slug seen (candidate base_slug k) (S k)
  = gen_slug fuel base_slug seen' (candidate base_slug k) (S k).
Proof.
  revert k. induction fuel as [|fuel IH]; intros k Hext; simpl; [reflexivity|].
  pose proof (Hext k (le_n k)) as Hk.
  destruct (decide (candidate base_slug k ∈ seen)),
           (decide (candidate base_slug k ∈ seen')); try tauto.
  apply (IH (S k)). intros m Hm. apply Hext. lia.
Qed.

(** More tests than [seen] has members are enough for the loop to return. *)
Lemma gen_slug_total (fuel : nat) (base_slug : string) (seen : gset string)
    (k : nat) :
  size seen < fuel →
  is_Some (gen_slug fuel base_slug seen (candidate base_slug k) (S k)).
Proof.
  revert seen k. induction fuel as [|fuel IH]; intros seen k Hsize; [lia|].
  simpl. destruct (decide (candidate base_slug k ∈ seen)) as [Hin|Hout];
    [|eexists; reflexivity].
  change (base_slug +:+ "_" +:+ pretty (S k))
    with (candidate base_slug (S k)).
  rewrite (gen_slug_ext fuel base_slug seen (seen ∖ {[candidate base_slug k]})).
  - apply IH.
    rewrite size_difference by set_solver. rewrite size_singleton.
    assert (size seen ≠ 0); [|lia].
    intros H0. apply size_empty_inv in H0. set_solver.
  - intros m Hm. rewrite elem_of_difference, elem_of_singleton.
    split; [|tauto]. intros H. split; [exact H|].
    intros Heq. apply candidate_inj in Heq. lia.
Qed.

Lemma sub_first1_cons (c : ascii) (tl : string) :
  ∃ t, sub_first1 Searching (String c tl) = String c t.
Proof.
  simpl. destruct tl as [|u [|l tl]]; try (eexists; reflexivity).
  destruct (negb (Ascii.eqb c "010") && is_upper u && is_lower l);
    eexists; reflexivity.
Qed.

Lemma sub_all2_cons (c : ascii) (tl : string) :
  ∃ t, sub_all2 (String c tl) = String c t.
Proof.
  simpl. destruct tl as [|u tl]; [eexists; reflexivity|].
  destruct ((is_lower c || is_digit c) && is_upper u); eexists; reflexivity.
Qed.

Lemma camel_to_snake_nonempty (name : string) :
  name ≠ "" → camel_to_snake name ≠ "".
Proof.
  destruct name as [|c tl]; [congruence|]. intros _.
  unfold camel_to_snake.
  destruct (sub_first1_cons c tl) as [t ->].
  destruct (sub_all2_cons c t) as [t' ->]. discriminate.
Qed.

Lemma class_name_nonempty (s : Step) : class_name s ≠ "".
Proof. destruct s as [cls| cls| |]; try destruct cls; discriminate. Qed.

Lemma res_bind_Ok_inv {A B : Type} (r : res A) (f : A → res B) (b : B) :
  r ≫= f = Ok b → ∃ a, r = Ok a ∧ f a = Ok b.
Proof. destruct r as [a|e]; simpl; [eauto|discriminate]. Qed.

(** Induction on the tree of steps, through the lists of guards and of
    children and through the entry condition. *)
Lemma Step_tree_ind (P : Step → Prop) :
  (∀ cls slug fields, P (Leaf cls slug fields)) →
  (∀ cls slug func args, P (Transform cls slug func args)) →
  (∀ slug given ec steps,
     Forall P given → (∀ e, ec = Some e → P e) → Forall P steps →
     P (Group slug given ec steps)) →
  (∀ slug max given ec steps,
     Forall P given → (∀ e, ec = Some e → P e) → Forall P steps →
     P (Repeat slug max given ec steps)) →
  ∀ s, P s.
Proof.
  intros Hleaf Htransform Hgroup Hrepeat.
  fix IH 1. intros [cls slug fields|cls slug func args|slug given ec steps
                    |slug max given ec steps].
  - apply Hleaf.
  - apply Htransform.
  - apply Hgroup.
    + revert given. fix IHl 1.
      intros [|x l]; constructor; [apply IH|apply IHl].
    + destruct ec as [e0|]; intros e Heq; [|discriminate].
      injection Heq as <-. apply IH.
    + revert steps. fix IHl 1.
      intros [|x l]; constructor; [apply IH|apply IHl].
  - apply Hrepeat.
    + revert given. fix IHl 1.
      intros [|x l]; constructor; [apply IH|apply IHl].
    + destruct ec as [e0|]; intros e Heq; [|discriminate].
      injection Heq as <-. apply IH.
    + revert steps. fix IHl 1.
      intros [|x l]; constructor; [apply IH|apply IHl].
Qed.

Lemma flat_map_walk_slugs (l : list Step) (p q : list string) :
  Forall (λ s, ∀ p q, map (λ x, slug_of x.2) (walk p s)
                      = map (λ x, slug_of x.2) (walk q s)) l →
  map (λ x, slug_of x.2) (flat_map (walk p) l)
  = map (λ x, slug_of x.2) (flat_map (walk q) l).
Proof.
  induction 1 as [|s l Hs _ IH]; simpl; [reflexivity|].
  rewrite !map_app, IH, (Hs p q). reflexivity.
Qed.

(** The slugs [walk] yields do not depend on the path it starts from. *)
Lemma walk_slugs_path (s : Step) (p q : list string) :
  map (λ x, slug_of x.2) (walk p s) = map (λ x, slug_of x.2) (walk q s).
Proof.
  revert p q. induction s as [| |slug given ec steps Hg He Hs
                              |slug max given ec steps Hg He Hs]
    using Step_tree_ind; intros p q; simpl; try reflexivity.
  - rewrite !map_app.
    rewrite (flat_map_walk_slugs given _ (q ++ [slug]) Hg).
    rewrite (flat_map_walk_slugs steps _ (q ++ [slug]) Hs).
    destruct ec as [e|]; [|reflexivity].
    rewrite (He e eq_refl _ (q ++ [slug])). reflexivity.
  - rewrite !map_app.
    rewrite (flat_map_walk_slugs given _ (q ++ [slug]) Hg).
    rewrite (flat_map_walk_slugs steps _ (q ++ [slug]) Hs).
    destruct ec as [e|]; [|reflexivity].
    rewrite (He e eq_refl _ (q ++ [slug])). reflexivity.
Qed.

Lemma flat_map_slugs (l : list Step) (p : list string) :
  map (λ x, slug_of x.2) (flat_map (walk p) l) = flat_map slugs l.
Proof.
  induction l as [|s l IH]; simpl; [reflexivity|].
  rewrite map_app, IH. unfold slugs at 1.
  rewrite (walk_slugs_path s p []). reflexivity.
Qed.

(** The slugs of a composite step: its own, its guards', its entry
    condition's, its children's. *)
Lemma slugs_composite (s : Step) (slug : string) (given : list Step)
    (ec : option Step) (steps : list Step) :
  (s = Group slug given ec steps ∨ ∃ max, s = Repeat slug max given ec steps) →
  slugs s = slug :: flat_map slugs given
              ++ match ec with Some e => slugs e | None => [] end
              ++ flat_map slugs steps.
Proof.
  intros [->|[max ->]]; unfold slugs at 1; simpl;
    rewrite !map_app, !flat_map_slugs;
    (destruct ec as [e|]; [|reflexivity]);
    rewrite (walk_slugs_path e _ []); reflexivity.
Qed.

Lemma assigned_nil (seen : gset string) : assigned seen [] seen.
Proof.
  split; [set_solver|]. split; [constructor|]. intros x Hx. inversion Hx.
Qed.

Lemma assigned_app (seen seen1 seen2 : gset string) (l1 l2 : list string) :
  assigned seen l1 seen1 → assigned seen1 l2 seen2 →
  assigned seen (l1 ++ l2) seen2.
Proof.
  intros (-> & Hnd1 & H1) (-> & Hnd2 & H2). split; [set_solver|]. split.
  - apply NoDup_app. split; [assumption|]. split; [|assumption].
    intros x Hx1 Hx2. destruct (H2 x Hx2) as [Hout _]. set_solver.
  - intros x Hx. apply elem_of_app in Hx as [Hx|Hx].
    + apply H1, Hx.
    + destruct (H2 x Hx) as [Hout Hne]. split; [set_solver|assumption].
Qed.

Lemma init_slug_assigned (cls_name slug slug' : string)
    (seen seen' : gset string) :
  cls_name ≠ "" →
  init_slug cls_name slug seen = Ok (slug', seen') →
  assigned seen [slug'] seen'.
Proof.
  intros Hname. unfold init_slug.
  assert (∀ x, x ∉ seen → x ≠ "" → assigned seen [x] ({[x]} ∪ seen)) as Hone.
  { intros x Hout Hne. split; [set_solver|]. split.
    - apply NoDup_singleton.
    - intros y Hy. apply list_elem_of_singleton in Hy as ->. tauto. }
  destruct (String.eqb slug "") eqn:Hempty; cbn [negb].
  - destruct (gen_slug _ _ _ _ _) as [s|] eqn:Hgen; [|discriminate].
    intros [= <- <-].
    destruct (gen_slug_first_free _ _ _ 0 _ Hgen) as (j & _ & -> & Hout & _).
    apply Hone; [assumption|].
    apply candidate_nonempty, camel_to_snake_nonempty, Hname.
  - destruct (decide (slug ∈ seen)); [discriminate|]. intros [= <- <-].
    apply Hone; [assumption|]. intros ->. discriminate.
Qed.

Ltac bind_inv H :=
  let H1 := fresh "Hstep" in
  apply res_bind_Ok_inv in H as ([? ?] & H1 & H); simpl in H.

Lemma init_slugs_list_assigned (l : list Step) :
  Forall (λ el, ∀ seen el' seen',
            init_slugs el seen = Ok (el', seen') →
            assigned seen (slugs el') seen') l →
  ∀ seen l' seen',
    init_slugs_list init_slugs l seen = Ok (l', seen') →
    assigned seen (flat_map slugs l') seen'.
Proof.
  induction 1 as [|el l Hel _ IH]; intros seen l' seen' H; simpl in H.
  - injection H as <- <-. apply assigned_nil.
  - bind_inv H. bind_inv H. injection H as <- <-. simpl.
    eapply assigned_app; [apply Hel|apply IH]; eassumption.
Qed.

(** The slugs below a step, after [_init_slugs], are new with respect to the
    slugs seen before, distinct, and not empty. *)
Lemma init_slugs_assigned (el : Step) (seen : gset string) (el' : Step)
    (seen' : gset string) :
  init_slugs el seen = Ok (el', seen') → assigned seen (slugs el') seen'.
Proof.
  revert seen el' seen'.
  induction el as [cls slug fields|cls slug func args
                   |slug given ec steps Hg He Hs
                   |slug max given ec steps Hg He Hs] using Step_tree_ind;
    intros seen el' seen' H; simpl in H.
  - bind_inv H. injection H as <- <-.
    eapply init_slug_assigned; [|eassumption].
    apply (class_name_nonempty (Leaf cls slug fields)).
  - bind_inv H. injection H as <- <-.
    eapply init_slug_assigned; [|eassumption].
    apply (class_name_nonempty (Transform cls slug func args)).
  - bind_inv H. bind_inv H. bind_inv H. bind_inv H. injection H as <- <-.
    rewrite (slugs_composite _ _ _ _ _ (or_introl eq_refl)).
    eapply (assigned_app _ _ _ [_]);
      [eapply init_slug_assigned; [|eassumption]; discriminate|].
    eapply assigned_app;
      [eapply (init_slugs_list_assigned given Hg); eassumption|].
    eapply assigned_app;
      [|eapply (init_slugs_list_assigned steps Hs); eassumption].
    destruct ec as [e|]; simpl in *.
    + bind_inv Hstep1. injection Hstep1 as <- <-.
      eapply He; [reflexivity|eassumption].
    + injection Hstep1 as <- <-. apply assigned_nil.
  - bind_inv H. bind_inv H. bind_inv H. bind_inv H. injection H as <- <-.
    rewrite (slugs_composite _ _ _ _ _ (or_intror (ex_intro _ _ eq_refl))).
    eapply (assigned_app _ _ _ [_]);
      [eapply init_slug_assigned; [|eassumption]; discriminate|].
    eapply assigned_app;
      [eapply (init_slugs_list_assigned given Hg); eassumption|].
    eapply assigned_app;
      [|eapply (init_slugs_list_assigned steps Hs); eassumption].
    destruct ec as [e|]; simpl in *.
    + bind_inv Hstep1. injection Hstep1 as <- <-.
      eapply He; [reflexivity|eassumption].
    + injection Hstep1 as <- <-. apply assigned_nil.
Qed.

(** A step that comes with a slug keeps it. *)
Lemma init_slug_kept (cls_name slug slug' : string) (seen seen' : gset string) :
  slug ≠ "" → init_slug cls_name slug seen = Ok (slug', seen') → slug' = slug.
Proof.
  intros Hne. unfold init_slug.
  destruct (String.eqb_spec slug ""); [congruence|]. cbn [negb].
  destruct (decide (slug ∈ seen)); [discriminate|]. congruence.
Qed.

(** A step without a slug gets the first candidate that is not in [seen]. *)
Lemma init_slug_generated (cls_name slug' : string) (seen seen' : gset string) :
  init_slug cls_name "" seen = Ok (slug', seen') →
  ∃ k, slug' = candidate (camel_to_snake cls_name) k ∧ (slug' ∉ seen)
       ∧ (∀ j, j < k → candidate (camel_to_snake cls_name) j ∈ seen).
Proof.
  unfold init_slug. cbn [String.eqb negb].
  destruct (gen_slug _ _ _ _ _) as [s|] eqn:Hgen; [|discriminate].
  intros [= <- <-].
  destruct (gen_slug_first_free _ _ _ 0 _ Hgen) as (k & _ & -> & Hout & Hlt).
  exists k. split; [reflexivity|]. split; [assumption|].
  intros j Hj. apply Hlt. lia.
Qed.

(** The loop never runs out of fuel: it fails on a duplicate slug only. *)
Lemma init_slug_raises (cls_name slug : string) (seen : gset string) (e : Error) :
  init_slug cls_name slug seen = Raise e →
  slug ≠ "" ∧ slug ∈ seen ∧ e = RuntimeError ("duplicate slug found: " +:+ slug).
Proof.
  unfold init_slug. destruct (String.eqb_spec slug "") as [->|Hne]; cbn [negb].
  - destruct (gen_slug_total (S (size seen)) (camel_to_snake cls_name) seen 0
                (Nat.lt_succ_diag_r _)) as [s Hs].
    change (candidate (camel_to_snake cls_name) 0)
      with (camel_to_snake cls_name) in Hs.
    rewrite Hs. discriminate.
  - destruct (decide (slug ∈ seen)); [|discriminate].
    intros [= <-]. tauto.
Qed.

(** [_init_slugs] assigns the slug of the step at the root of a sub-tree
    from the slugs seen before it. *)
Lemma init_slugs_head (el : Step) (seen : gset string) (el' : Step)
    (seen' : gset string) :
  init_slugs el seen = Ok (el', seen') →
  ∃ seen0, init_slug (class_name el) (slug_of el) seen = Ok (slug_of el', seen0).
Proof.
  destruct el; simpl; intros H.
  - bind_inv H. injection H as <- <-. eauto.
  - bind_inv H. injection H as <- <-. eauto.
  - bind_inv H. bind_inv H. bind_inv H. bind_inv H. injection H as <- <-. eauto.
  - bind_inv H. bind_inv H. bind_inv H. bind_inv H. injection H as <- <-. eauto.
Qed.

(** The snake-case form [camel_to_snake] computes for the name of each
    step class is the lowercase, underscore-separated form of that name. *)
Lemma camel_to_snake_class_name (el : Step) :
  camel_to_snake (class_name el) = snake_case_name el.
Proof. destruct el as [cls| cls| |]; try destruct cls; reflexivity. Qed.

(** C7: in every constructed pipeline the slugs of the steps of the tree are
    pairwise distinct and not empty; a step without a slug, reached when the
    slugs in [seen] have been handed out, receives the lowercase,
    underscore-separated form of its class name ([harvest_lqty] for
    [HarvestLQTY], [convert_eth_to_weth] for [ConvertETHToWETH]), which is
    what [camel_to_snake] makes of that name, or that form with the first of
    [_1], [_2], ... that makes it new; and two sibling [Transform] steps
    without slugs receive [transform] and [transform_1]. *)
Theorem C7_unique_slugs :
  (∀ r p, Pipeline_init r = Ok p →
          NoDup (slugs (root p)) ∧ Forall (λ slug, slug ≠ "") (slugs (root p)))
  ∧ (∀ el seen el' seen',
       slug_of el = "" → init_slugs el seen = Ok (el', seen') →
       ∃ k, slug_of el' = candidate (snake_case_name el) k
            ∧ (slug_of el' ∉ seen)
            ∧ (∀ j, j < k → candidate (snake_case_name el) j ∈ seen))
  ∧ (∀ el, camel_to_snake (class_name el) = snake_case_name el)
  ∧ (∀ func1 args1 func2 args2,
       Pipeline_init
         (Some (Group "main" [] None
                  [Transform CTransform "" func1 args1;
                   Transform CTransform "" func2 args2]))
       = Ok {| root := Group "main" [] None
                         [Transform CTransform "transform" func1 args1;
                          Transform CTransform "transform_1" func2 args2] |}).
Proof.
  split; [|split; [|split]].
  - intros r p H. unfold Pipeline_init in H. bind_inv H. injection H as <-.
    apply init_slugs_assigned in Hstep as (_ & Hnodup & Hnew). simpl.
    split; [assumption|]. apply Forall_forall. intros x Hx. apply Hnew, Hx.
  - intros el seen el' seen' Hempty H.
    apply init_slugs_head in H as [seen0 H]. rewrite Hempty in H.
    rewrite <- camel_to_snake_class_name. eapply init_slug_generated, H.
  - apply camel_to_snake_class_name.
  - intros. reflexivity.
Qed.

(** [sample_tree], and a tree of steps whose class names have several
    words, two of them of the same class. *)
Lemma C7_unique_slugs_witness :
  (∃ p, Pipeline_init (Some sample_tree) = Ok p
        ∧ slugs (root p)
          = ["group"; "transform"; "expr"; "transform_1"; "repeat"; "swap"]
        ∧ NoDup (slugs (root p))
        ∧ Forall (λ slug, slug ≠ "") (slugs (root p)))
  ∧ (∃ p, Pipeline_init (Some harvest_tree) = Ok p
          ∧ slugs (root p)
            = ["group"; "lqty_accrued"; "harvest_lqty"; "harvest_lqty_1";
               "convert_eth_to_weth"; "one_inch_swap"; "report_result"]
          ∧ NoDup (slugs (root p))
          ∧ Forall (λ slug, slug ≠ "") (slugs (root p)))
  ∧ ∃ k, "harvest_lqty_1" = candidate (snake_case_name (Leaf HarvestLQTY "" []))
                               k
         ∧ ("harvest_lqty_1" ∉ ({["harvest_lqty"; "group"]} : gset string))
         ∧ (∀ j, j < k →
                 candidate (snake_case_name (Leaf HarvestLQTY "" [])) j
                 ∈ ({["harvest_lqty"; "group"]} : gset string)).
Proof.
  split; [|split].
  - eexists. split; [reflexivity|]. split; [reflexivity|].
    exact (proj1 C7_unique_slugs (Some sample_tree) _ eq_refl).
  - eexists. split; [reflexivity|]. split; [reflexivity|].
    exact (proj1 C7_unique_slugs (Some harvest_tree) _ eq_refl).
  - exact (proj1 (proj2 C7_unique_slugs) (Leaf HarvestLQTY "" [])
             {["harvest_lqty"; "group"]}
             (Leaf HarvestLQTY "harvest_lqty_1" [])
             ({["harvest_lqty_1"]} ∪ {["harvest_lqty"; "group"]})
             eq_refl eq_refl).
Defined.

Lemma res_bind_Raise_inv {A B : Type} (r : res A) (f : A → res B) (e : Error) :
  r ≫= f = Raise e → r = Raise e ∨ ∃ a, r = Ok a ∧ f a = Raise e.
Proof. destruct r as [a|e']; simpl; [eauto|]. intros [= ->]. eauto. Qed.

Ltac raise_inv H :=
  let H1 := fresh "Hstep" in
  apply res_bind_Raise_inv in H as [H|([? ?] & H1 & H)]; simpl in H.

Lemma init_slugs_list_raises (l : list Step) :
  Forall (λ el, ∀ seen e, init_slugs el seen = Raise e → is_duplicate_slug e) l →
  ∀ seen e, init_slugs_list init_slugs l seen = Raise e → is_duplicate_slug e.
Proof.
  induction 1 as [|el l Hel _ IH]; intros seen e H; simpl in H;
    [discriminate|].
  raise_inv H; [eapply Hel, H|]. raise_inv H; [eapply IH, H|discriminate].
Qed.

(** Construction fails on a duplicate slug only. *)
Lemma init_slugs_raises (el : Step) (seen : gset string) (e : Error) :
  init_slugs el seen = Raise e → is_duplicate_slug e.
Proof.
  assert (∀ n s sn e', init_slug n s sn = Raise e' → is_duplicate_slug e')
    as Hhead.
  { intros n s sn e' H. apply init_slug_raises in H as (Hne & _ & ->).
    exists s. tauto. }
  revert seen e.
  induction el as [cls slug fields|cls slug func args
                   |slug given ec steps Hg He Hs
                   |slug max given ec steps Hg He Hs] using Step_tree_ind;
    intros seen e H; simpl in H.
  - raise_inv H; [eapply Hhead, H|discriminate].
  - raise_inv H; [eapply Hhead, H|discriminate].
  - raise_inv H; [eapply Hhead, H|].
    raise_inv H; [eapply (init_slugs_list_raises given Hg), H|].
    raise_inv H.
    { destruct ec as [e0|]; [|discriminate].
      raise_inv H; [eapply He; [reflexivity|exact H]|discriminate]. }
    raise_inv H; [eapply (init_slugs_list_raises steps Hs), H|discriminate].
  - raise_inv H; [eapply Hhead, H|].
    raise_inv H; [eapply (init_slugs_list_raises given Hg), H|].
    raise_inv H.
    { destruct ec as [e0|]; [|discriminate].
      raise_inv H; [eapply He; [reflexivity|exact H]|discriminate]. }
    raise_inv H; [eapply (init_slugs_list_raises steps Hs), H|discriminate].
Qed.

(** ** The computations of the engine *)

Section EngineFacts.

Context {V : Type} (v : Visitor V).

Lemma bind_Ok {A B : Type} (m : M V A) (f : A → M V B) (w w' : World V)
    (a : A) :
  m w = (w', Ok a) → (m ≫= f) w = f a w'.
Proof. unfold mbind, M_bind. intros ->. reflexivity. Qed.

Lemma bind_Raise {A B : Type} (m : M V A) (f : A → M V B) (w w' : World V)
    (e : Error) :
  m w = (w', Raise e) → (m ≫= f) w = (w', Raise e).
Proof. unfold mbind, M_bind. intros ->. reflexivity. Qed.

Lemma bind_lift_Ok {A B : Type} (a : A) (f : A → M V B) (w : World V) :
  (lift (Ok a) ≫= f) w = f a w.
Proof. reflexivity. Qed.

Lemma accept_Group (slug : string) (given : list Step) (ec : option Step)
    (steps : list Step) (st : State) (up : Value) (w : World V) :
  accept v (Group slug given ec steps) st up w
  = (st0 ← call (enter_group v (Group slug given ec steps) st);
     '(st1, condition) ← eval_condition (accept v) slug given ec up st0;
     '(st2, any_chain_effect) ←
       (if truthy condition then run_steps (accept v) up steps st1 false
        else mret (st1, false));
     st3 ← call (exit_group v (Group slug given ec steps) st2);
     mret {| state := st3; chain_effect := any_chain_effect |}) w.
Proof. reflexivity. Qed.

Lemma eval_given_app (slug : string) (up : Value) (l1 l2 : list Step)
    (st : State) (w : World V) :
  eval_given (accept v) slug up (l1 ++ l2) st w
  = (st' ← eval_given (accept v) slug up l1 st;
     eval_given (accept v) slug up l2 st') w.
Proof.
  revert st w. induction l1 as [|g l1 IH]; intros st w; [reflexivity|].
  simpl. unfold mbind, M_bind.
  destruct (lift _ w) as [w0 [upg|e]]; [|reflexivity].
  destruct (accept v g st upg w0) as [w1 [ev|e]]; [|reflexivity].
  destruct (chain_effect ev); [reflexivity|]. apply IH.
Qed.

(** A guard that reports a chain effect makes the loop over the guards
    raise, in the world that guard left. *)
Lemma eval_given_chain_effect (slug : string) (up : Value) (g : Step)
    (post : list Step) (st : State) (w w' : World V) (upg : Value)
    (ev : Evaluation) :
  dict_get up (slug_of g) (VDict ∅) = Ok upg →
  accept v g st upg w = (w', Ok ev) →
  chain_effect ev = true →
  eval_given (accept v) slug up (g :: post) st w
  = (w', Raise (InvalidChainEffectError (BySlug (slug_of g))
                  (slug +:+ ".given"))).
Proof.
  intros Hget Hacc Heff. simpl. rewrite Hget, bind_lift_Ok.
  rewrite (bind_Ok _ _ _ _ _ Hacc), Heff. reflexivity.
Qed.

Lemma Pipeline_call_raise (p : Pipeline) (doc up : Value) (w w' : World V)
    (e : Error) :
  root_params p doc = Ok up →
  accept v (root p) ∅ up w = (w', Raise e) →
  Pipeline_call v p doc w = (w', Raise e).
Proof.
  intros Hup Hacc. unfold Pipeline_call. rewrite Hup, bind_lift_Ok.
  apply bind_Raise, Hacc.
Qed.

End EngineFacts.

Section LoopFacts.

Context {V : Type} (v : Visitor V).

Lemma accept_Repeat (slug : string) (max : FieldValue) (given : list Step)
    (ec : option Step) (steps : list Step) (st : State) (up : Value)
    (w : World V) :
  accept v (Repeat slug max given ec steps) st up w
  = (actual ← lift (resolve_field slug st up
                      {| fname := "max"; formal := Repeat_max;
                         fvalue := max |});
     st0 ← call (enter_repeat v (Repeat slug (FLit actual) given ec steps) st);
     '(cs, n) ← lift (py_range actual);
     r ← Repeat_loop (eval_condition (accept v) slug given ec up)
           (run_steps (accept v) up steps) cs 0%Z st0 false 0;
     _ ← (if (n - 1 <=? loop_c r)%Z then warn max_iterations_warning
          else mret ());
     st1 ← call (exit_repeat v (Repeat slug (FLit actual) given ec steps)
                   (loop_state r));
     mret {| state := st1; chain_effect := loop_chain_effect r |}) w.
Proof. reflexivity. Qed.

(** The children, run in order, are what [run_steps] computes. *)
Lemma Children_run_steps (up : Value) (steps : list Step) (st : State)
    (w : World V) (evs : list Evaluation) (st' : State) (w' : World V)
    (any : bool) :
  Children v up steps st w evs st' w' →
  run_steps (accept v) up steps st any w
  = (w', Ok (st', any || existsb chain_effect evs)).
Proof.
  intros H. revert any.
  induction H as [st w|step rest st w ups ev w1 evs st' w' Hget Hacc _ IH];
    intros any; simpl.
  - rewrite orb_false_r. reflexivity.
  - rewrite Hget, bind_lift_Ok, (bind_Ok _ _ _ _ _ Hacc), IH, orb_assoc.
    reflexivity.
Qed.


Section Loop.

Variables (cond : State → M V (State * Value))
          (body : State → bool → M V (State * bool)).


(** A first pass whose condition is false ends the loop before the body
    runs. *)
Lemma Repeat_loop_condition_false (c' : Z) (cs : list Z) (c : Z)
    (st : State) (any : bool) (n : nat) (w w1 : World V) (st1 : State)
    (condition : Value) :
  cond st w = (w1, Ok (st1, condition)) →
  truthy condition = false →
  Repeat_loop cond body (c' :: cs) c st any n w
  = (w1, Ok {| loop_state := st1; loop_chain_effect := any;
               loop_c := c'; loop_passes := n |}).
Proof.
  intros Hcond Hfalse. simpl. rewrite (bind_Ok _ _ _ _ _ Hcond). simpl.
  rewrite Hfalse. reflexivity.
Qed.

(** A pass without any chain effect so far, in this pass or before it,
    ends the loop. *)
Lemma Repeat_loop_no_effect (c' : Z) (cs : list Z) (c : Z) (st : State)
    (n : nat) (w w1 w2 : World V) (st1 st2 : State) (condition : Value) :
  cond st w = (w1, Ok (st1, condition)) →
  truthy condition = true →
  body st1 false w1 = (w2, Ok (st2, false)) →
  Repeat_loop cond body (c' :: cs) c st false n w
  = (w2, Ok {| loop_state := st2; loop_chain_effect := false;
               loop_c := c'; loop_passes := S n |}).
Proof.
  intros Hcond Htrue Hbody. simpl. rewrite (bind_Ok _ _ _ _ _ Hcond).
  simpl. rewrite Htrue. simpl. rewrite (bind_Ok _ _ _ _ _ Hbody).
  reflexivity.
Qed.

(** A pass that ends with the flag set goes on to the next value of [c],
    whether or not the pass itself had a chain effect. *)
Lemma Repeat_loop_continue (c' : Z) (cs : list Z) (c : Z) (st : State)
    (any : bool) (n : nat) (w w1 w2 : World V) (st1 st2 : State)
    (condition : Value) :
  cond st w = (w1, Ok (st1, condition)) →
  truthy condition = true →
  body st1 any w1 = (w2, Ok (st2, true)) →
  Repeat_loop cond body (c' :: cs) c st any n w
  = Repeat_loop cond body cs c' st2 true (S n) w2.
Proof.
  intros Hcond Htrue Hbody. simpl. rewrite (bind_Ok _ _ _ _ _ Hcond).
  simpl. rewrite Htrue. simpl. rewrite (bind_Ok _ _ _ _ _ Hbody).
  reflexivity.
Qed.

End Loop.


Lemma last_seqZ (m n : Z) :
  (0 < n)%Z → last (seqZ m n) = Some (m + n - 1)%Z.
Proof.
  intros Hn. replace n with (Z.of_nat (S (Z.to_nat (n - 1)))) at 1 by lia.
  rewrite seqZ_S, last_snoc. f_equal. lia.
Qed.

End LoopFacts.

(** ** [Group.accept] *)

Section GroupFacts.

Context {V : Type} (v : Visitor V).

Lemma aborts_with_intro (self : Step) (st : State) (up : Value)
    (w w' : World V) (e : Error) :
  accept v self st up w = (w', Raise e) → aborts_with v self st up w w' e.
Proof.
  intros H. split; [exact H|]. intros p doc Hroot -> Hup.
  apply Pipeline_call_raise with up; [exact Hup|]. rewrite Hroot. exact H.
Qed.

(** An exception raised while the condition is evaluated leaves the group
    in the world it was raised in. *)
Lemma accept_Group_condition_raise (slug : string) (given : list Step)
    (ec : option Step) (steps : list Step) (st : State) (up : Value)
    (w w0 w1 : World V) (st0 : State) (e : Error) :
  call (enter_group v (Group slug given ec steps) st) w = (w0, Ok st0) →
  eval_condition (accept v) slug given ec up st0 w0 = (w1, Raise e) →
  accept v (Group slug given ec steps) st up w = (w1, Raise e).
Proof.
  intros Henter Hcond. rewrite accept_Group, (bind_Ok _ _ _ _ _ Henter).
  apply bind_Raise, Hcond.
Qed.

(** An exception raised by a child leaves the group in the world it was
    raised in: a group catches nothing. *)
Lemma accept_Group_children_raise (slug : string) (given : list Step)
    (ec : option Step) (steps : list Step) (st : State) (up : Value)
    (w w0 w1 w2 : World V) (st0 st1 : State) (condition : Value)
    (e : Error) :
  call (enter_group v (Group slug given ec steps) st) w = (w0, Ok st0) →
  eval_condition (accept v) slug given ec up st0 w0
  = (w1, Ok (st1, condition)) →
  truthy condition = true →
  run_steps (accept v) up steps st1 false w1 = (w2, Raise e) →
  accept v (Group slug given ec steps) st up w = (w2, Raise e).
Proof.
  intros Henter Hcond Htrue Hrun.
  rewrite accept_Group, (bind_Ok _ _ _ _ _ Henter).
  rewrite (bind_Ok _ _ _ _ _ Hcond). simpl. rewrite Htrue.
  apply bind_Raise, Hrun.
Qed.

(** A false condition: the children are skipped. *)
Lemma accept_Group_skip (slug : string) (given : list Step)
    (ec : option Step) (steps : list Step) (st : State) (up : Value)
    (w w0 w1 : World V) (st0 st1 : State) (condition : Value) :
  call (enter_group v (Group slug given ec steps) st) w = (w0, Ok st0) →
  eval_condition (accept v) slug given ec up st0 w0
  = (w1, Ok (st1, condition)) →
  truthy condition = false →
  accept v (Group slug given ec steps) st up w
  = (st3 ← call (exit_group v (Group slug given ec steps) st1);
     mret {| state := st3; chain_effect := false |}) w1.
Proof.
  intros Henter Hcond Hfalse.
  rewrite accept_Group, (bind_Ok _ _ _ _ _ Henter).
  rewrite (bind_Ok _ _ _ _ _ Hcond). simpl. rewrite Hfalse. reflexivity.
Qed.

(** A true condition: the children run. *)
Lemma accept_Group_run (slug : string) (given : list Step)
    (ec : option Step) (steps : list Step) (st : State) (up : Value)
    (w w0 w1 w2 : World V) (st0 st1 st2 : State) (condition : Value)
    (evs : list Evaluation) :
  call (enter_group v (Group slug given ec steps) st) w = (w0, Ok st0) →
  eval_condition (accept v) slug given ec up st0 w0
  = (w1, Ok (st1, condition)) →
  truthy condition = true →
  Children v up steps st1 w1 evs st2 w2 →
  accept v (Group slug given ec steps) st up w
  = (st3 ← call (exit_group v (Group slug given ec steps) st2);
     mret {| state := st3; chain_effect := existsb chain_effect evs |}) w2.
Proof.
  intros Henter Hcond Htrue Hch.
  rewrite accept_Group, (bind_Ok _ _ _ _ _ Henter).
  rewrite (bind_Ok _ _ _ _ _ Hcond). simpl. rewrite Htrue.
  rewrite (bind_Ok _ _ _ _ _ (Children_run_steps v up _ _ _ _ _ _ false Hch)).
  reflexivity.
Qed.

End GroupFacts.

(** ** Runs, described step by step *)

Section RunFacts.

Context {V : Type} (v : Visitor V).

Lemma run_steps_app (up : Value) (l1 l2 : list Step) (st : State)
    (any : bool) (w : World V) :
  run_steps (accept v) up (l1 ++ l2) st any w
  = ('(st', any') ← run_steps (accept v) up l1 st any;
     run_steps (accept v) up l2 st' any') w.
Proof.
  revert st any w. induction l1 as [|s l1 IH]; intros st any w;
    [reflexivity|].
  simpl. unfold mbind, M_bind.
  destruct (lift _ w) as [w0 [ups|e]]; [|reflexivity].
  destruct (accept v s st ups w0) as [w1 [ev|e]]; [|reflexivity].
  apply IH.
Qed.

Lemma py_range_seqZ (actual : Value) (cs : list Z) (n : Z) :
  py_range actual = Ok (cs, n) → cs = seqZ 0 n.
Proof.
  destruct actual as [| |b|z| | |]; try discriminate; simpl;
    intros [= <- <-]; reflexivity.
Qed.

Lemma Guards_eval_given (slug : string) (up : Value) (given : list Step)
    (st : State) (w : World V) (st' : State) (w' : World V) :
  Guards v up given st w st' w' →
  eval_given (accept v) slug up given st w = (w', Ok st').
Proof.
  induction 1 as [st w|g rest st w upg ev w1 st' w' Hget Hacc Heff _ IH];
    [reflexivity|].
  simpl. rewrite Hget, bind_lift_Ok, (bind_Ok _ _ _ _ _ Hacc), Heff.
  exact IH.
Qed.

Lemma Condition_eval_condition (slug : string) (up : Value)
    (given : list Step) (ec : option Step) (st : State) (w : World V)
    (st1 : State) (condition : Value) (w1 : World V) :
  Condition v up given ec st w st1 condition w1 →
  eval_condition (accept v) slug given ec up st w
  = (w1, Ok (st1, condition)).
Proof.
  intros [st0 w0 st2 w2 Hg|cond st0 w0 st2 w2 upc ev w3 Hg Hget Hacc Heff];
    unfold eval_condition;
    rewrite (bind_Ok _ _ _ _ _ (Guards_eval_given slug _ _ _ _ _ _ Hg)).
  - reflexivity.
  - rewrite Hget, bind_lift_Ok, (bind_Ok _ _ _ _ _ Hacc), Heff. reflexivity.
Qed.

(** An exception of a guard, of the entry condition or of a child is the
    exception of the condition or of the children. *)
Lemma InBlock_raise (slug : string) (up : Value) (given : list Step)
    (ec : option Step) (steps : list Step) (st : State) (w : World V)
    (s : Step) (st' : State) (up' : Value) (w' w'' : World V) (e : Error) :
  InBlock v up given ec steps st w s st' up' w' →
  accept v s st' up' w' = (w'', Raise e) →
  eval_condition (accept v) slug given ec up st w = (w'', Raise e)
  ∨ (∃ st1 condition w1,
       eval_condition (accept v) slug given ec up st w
       = (w1, Ok (st1, condition))
       ∧ truthy condition = true
       ∧ ∀ any, run_steps (accept v) up steps st1 any w1 = (w'', Raise e)).
Proof.
  intros [pre g post st1 w1 upg -> Hg Hget
          |cond st1 w1 upc -> Hg Hget
          |pre s0 post st1 condition w1 evs st2 w2 ups -> Hc Htrue Hch Hget]
         Hacc.
  - left. unfold eval_condition. apply bind_Raise.
    rewrite eval_given_app.
    rewrite (bind_Ok _ _ _ _ _ (Guards_eval_given slug _ _ _ _ _ _ Hg)).
    simpl. rewrite Hget, bind_lift_Ok. apply bind_Raise, Hacc.
  - left. unfold eval_condition.
    rewrite (bind_Ok _ _ _ _ _ (Guards_eval_given slug _ _ _ _ _ _ Hg)).
    rewrite Hget, bind_lift_Ok. apply bind_Raise, Hacc.
  - right. exists st1, condition, w1.
    split; [apply Condition_eval_condition, Hc|]. split; [exact Htrue|].
    intros any. rewrite run_steps_app.
    rewrite (bind_Ok _ _ _ _ _ (Children_run_steps v up _ _ _ _ _ _ any Hch)).
    simpl. rewrite Hget, bind_lift_Ok. apply bind_Raise, Hacc.
Qed.

Lemma Repeat_loop_cond_raise (cond : State → M V (State * Value))
    (body : State → bool → M V (State * bool)) (c' : Z) (cs : list Z)
    (c : Z) (st : State) (any : bool) (p : nat) (w w' : World V)
    (e : Error) :
  cond st w = (w', Raise e) →
  Repeat_loop cond body (c' :: cs) c st any p w = (w', Raise e).
Proof. intros H. simpl. apply bind_Raise, H. Qed.

Lemma Repeat_loop_body_raise (cond : State → M V (State * Value))
    (body : State → bool → M V (State * bool)) (c' : Z) (cs : list Z)
    (c : Z) (st : State) (any : bool) (p : nat) (w w1 w' : World V)
    (st1 : State) (condition : Value) (e : Error) :
  cond st w = (w1, Ok (st1, condition)) →
  truthy condition = true →
  body st1 any w1 = (w', Raise e) →
  Repeat_loop cond body (c' :: cs) c st any p w = (w', Raise e).
Proof.
  intros Hcond Htrue Hbody. simpl. rewrite (bind_Ok _ _ _ _ _ Hcond).
  simpl. rewrite Htrue. simpl. apply bind_Raise, Hbody.
Qed.

(** Passes that run through are passes of the loop: after them the loop
    goes on with what is left of the values of [c], from the state, the flag
    and the world they left. *)
Lemma Passes_Repeat_loop (slug : string) (up : Value) (given : list Step)
    (ec : option Step) (steps : list Step) (k : nat) (st : State)
    (any : bool) (w : World V) (stk : State) (anyk : bool) (wk : World V) :
  Passes v up given ec steps k st any w stk anyk wk →
  ∀ pre rest c p,
    length pre = k →
    Repeat_loop (eval_condition (accept v) slug given ec up)
      (run_steps (accept v) up steps) (pre ++ rest) c st any p w
    = Repeat_loop (eval_condition (accept v) slug given ec up)
        (run_steps (accept v) up steps) rest (default c (last pre)) stk anyk
        (p + k) wk.
Proof.
  induction 1 as [st any w
                  |n st any w st1 condition w1 evs st2 w2 st' any' w'
                     Hc Htrue Hch Hany _ IH];
    intros pre rest c p Hlen.
  - destruct pre; [|discriminate]. rewrite Nat.add_0_r. reflexivity.
  - destruct pre as [|c' pre]; [discriminate|]. injection Hlen as Hlen.
    pose proof (Children_run_steps v up _ _ _ _ _ _ any Hch) as Hbody.
    rewrite Hany in Hbody. simpl app.
    rewrite (Repeat_loop_continue _ _ _ _ _ _ _ _ _ _ _ _ _ _
               (Condition_eval_condition slug _ _ _ _ _ _ _ _ Hc) Htrue
               Hbody).
    rewrite (IH pre rest c' (S p) Hlen), last_cons.
    replace (S p + n) with (p + S n) by lia.
    destruct (last pre); reflexivity.
Qed.

(** An exception raised where a step calls a step below it is the exception
    of the calling step: neither [Group] nor [Repeat] catches anything. *)
Lemma Calls_raise (s : Step) (st : State) (up : Value) (w : World V)
    (s' : Step) (st' : State) (up' : Value) (w' w'' : World V) (e : Error) :
  Calls v s st up w s' st' up' w' →
  accept v s' st' up' w' = (w'', Raise e) →
  accept v s st up w = (w'', Raise e).
Proof.
  intros [slug given ec steps st0 up0 w0 w1 st1 s0 st2 up2 w2 Henter Hin
          |slug max given ec steps st0 up0 w0 actual w1 st1 cs n k stk anyk
             wk s0 st2 up2 w2 Hmax Henter Hrange Hk Hpasses Hin] Hacc.
  - rewrite accept_Group, (bind_Ok _ _ _ _ _ Henter).
    destruct (InBlock_raise slug _ _ _ _ _ _ _ _ _ _ _ _ Hin Hacc)
      as [Hcond|(st3 & condition & w3 & Hcond & Htrue & Hrun)].
    + apply bind_Raise, Hcond.
    + rewrite (bind_Ok _ _ _ _ _ Hcond). simpl. rewrite Htrue.
      apply bind_Raise, Hrun.
  - rewrite accept_Repeat, Hmax, bind_lift_Ok, (bind_Ok _ _ _ _ _ Henter).
    rewrite Hrange, bind_lift_Ok. apply bind_Raise.
    apply py_range_seqZ in Hrange as ->.
    rewrite <- (take_drop k (seqZ 0 n)).
    rewrite (Passes_Repeat_loop slug _ _ _ _ _ _ _ _ _ _ _ Hpasses)
      by (rewrite length_take, length_seqZ; lia).
    destruct (drop k (seqZ 0 n)) as [|c' rest] eqn:Hdrop.
    { apply (f_equal length) in Hdrop.
      rewrite length_drop, length_seqZ in Hdrop. simpl in Hdrop. lia. }
    destruct (InBlock_raise slug _ _ _ _ _ _ _ _ _ _ _ _ Hin Hacc)
      as [Hcond|(st3 & condition & w3 & Hcond & Htrue & Hrun)].
    + apply Repeat_loop_cond_raise, Hcond.
    + eapply Repeat_loop_body_raise; [exact Hcond|exact Htrue|apply Hrun].
Qed.

Lemma Within_raise (s : Step) (st : State) (up : Value) (w : World V)
    (s' : Step) (st' : State) (up' : Value) (w' w'' : World V) (e : Error) :
  Within v s st up w s' st' up' w' →
  accept v s' st' up' w' = (w'', Raise e) →
  accept v s st up w = (w'', Raise e).
Proof.
  induction 1 as [|s st up w s1 st1 up1 w1 s2 st2 up2 w2 Hcalls _ IH];
    intros Hacc; [exact Hacc|].
  eapply Calls_raise; [exact Hcalls|]. apply IH, Hacc.
Qed.

Lemma aborts_run_intro (self : Step) (st : State) (up : Value)
    (w w' : World V) (e : Error) :
  accept v self st up w = (w', Raise e) → aborts_run v self st up w w' e.
Proof.
  intros H. split; [exact H|]. intros p doc up0 w0 Hup Hwithin.
  apply Pipeline_call_raise with up0; [exact Hup|].
  eapply Within_raise; eassumption.
Qed.

End RunFacts.

(** C2: when a guard of a group reports a chain effect (the guards before
    it having run without one), the group raises [InvalidChainEffectError]
    with the slug of that guard and [<slug of the group>.given]; when the
    entry condition does (the guards having run without one), it raises
    [InvalidChainEffectError] with the entry condition and
    [<slug of the group>.entry_condition]. Either way the run of the group
    ends in the world the offending step left, whatever the children are:
    none of them runs. And the whole run of the pipeline ends there with the
    same exception, wherever the group stands in the tree: as the root, or
    as a guard, an entry condition or a child of other groups and loops, in
    whatever pass of these loops the run of the group was reached. *)
Theorem C2_chain_effect_in_guard {V : Type} (v : Visitor V) (slug : string)
    (given : list Step) (ec : option Step) (steps : list Step) (st : State)
    (up : Value) (w w0 : World V) (st0 : State) :
  call (enter_group v (Group slug given ec steps) st) w = (w0, Ok st0) →
  (∀ pre g post st1 w1 upg ev w2,
     given = pre ++ g :: post →
     eval_given (accept v) slug up pre st0 w0 = (w1, Ok st1) →
     dict_get up (slug_of g) (VDict ∅) = Ok upg →
     accept v g st1 upg w1 = (w2, Ok ev) →
     chain_effect ev = true →
     aborts_run v (Group slug given ec steps) st up w w2
       (InvalidChainEffectError (BySlug (slug_of g)) (slug +:+ ".given")))
  ∧ (∀ cond st1 w1 upc ev w2,
       ec = Some cond →
       eval_given (accept v) slug up given st0 w0 = (w1, Ok st1) →
       dict_get up (slug_of cond) (VDict ∅) = Ok upc →
       accept v cond st1 upc w1 = (w2, Ok ev) →
       chain_effect ev = true →
       aborts_run v (Group slug given ec steps) st up w w2
         (InvalidChainEffectError (ByStep cond)
            (slug +:+ ".entry_condition"))).
Proof.
  intros Henter. split.
  - intros pre g post st1 w1 upg ev w2 -> Hpre Hget Hacc Heff.
    apply aborts_run_intro.
    eapply accept_Group_condition_raise; [exact Henter|].
    unfold eval_condition. apply bind_Raise.
    rewrite eval_given_app, (bind_Ok _ _ _ _ _ Hpre).
    eapply eval_given_chain_effect; eassumption.
  - intros cond st1 w1 upc ev w2 -> Hgiven Hget Hacc Heff.
    apply aborts_run_intro.
    eapply accept_Group_condition_raise; [exact Henter|].
    unfold eval_condition. rewrite (bind_Ok _ _ _ _ _ Hgiven).
    rewrite Hget, bind_lift_Ok, (bind_Ok _ _ _ _ _ Hacc), Heff. reflexivity.
Qed.

(** [guarded_group] as the root of a pipeline, and [guarded_group] and
    [gated_group] as the second child of the main loop of a pipeline: there
    the guard reports a chain effect in the second pass of the loop (the
    calls 0 and 4 of the executor do), and the entry condition in the
    first. *)
Lemma C2_chain_effect_in_guard_witness :
  Pipeline_call (counting 1) {| root := guarded_group |} VNone
    (Build_World 0 [])
  = (Build_World 1 [],
     Raise (InvalidChainEffectError (BySlug "limit") "borrow.given"))
  ∧ Pipeline_call (appending [0; 4]) {| root := looped guarded_group |}
      VNone (Build_World 0 [])
    = (Build_World 5 [],
       Raise (InvalidChainEffectError (BySlug "limit") "borrow.given"))
  ∧ Pipeline_call (appending [1]) {| root := looped gated_group |}
      (VDict {["main_loop" := VDict {["swap" := VDict ∅]}]})
      (Build_World 0 [])
    = (Build_World 2 [],
       Raise (InvalidChainEffectError
                (ByStep (Transform CExpr "above" func_default []))
                "borrow.entry_condition")).
Proof.
  split; [|split].
  - refine (proj2 (proj1 (C2_chain_effect_in_guard (counting 1) "borrow"
                     [Transform CTransform "limit" func_default []]
                     (Some (Transform CExpr "above" func_default []))
                     [Transform CTransform "swap" func_default []] ∅
                     (VDict ∅) (Build_World 0 []) (Build_World 0 []) ∅
                     eq_refl)
              [] (Transform CTransform "limit" func_default []) []
              ∅ (Build_World 0 []) (VDict ∅)
              {| state := {["limit" := VInt 0]}; chain_effect := true |}
              (Build_World 1 []) eq_refl eq_refl eq_refl eq_refl eq_refl)
              {| root := guarded_group |} VNone (VDict ∅) (Build_World 0 [])
              _ _).
    + reflexivity.
    + apply Within_here.
  - refine (proj2 (proj1 (C2_chain_effect_in_guard (appending [0; 4])
                     "borrow"
                     [Transform CTransform "limit" func_default []]
                     (Some (Transform CExpr "above" func_default []))
                     [Transform CTransform "swap" func_default []]
                     {["swap" := VList [VInt 0; VInt 3];
                       "limit" := VList [VInt 1];
                       "above" := VList [VInt 2]]}
                     (VDict ∅) (Build_World 4 []) (Build_World 4 [])
                     {["swap" := VList [VInt 0; VInt 3];
                       "limit" := VList [VInt 1];
                       "above" := VList [VInt 2]]}
                     eq_refl)
              [] (Transform CTransform "limit" func_default []) []
              {["swap" := VList [VInt 0; VInt 3];
                "limit" := VList [VInt 1];
                "above" := VList [VInt 2]]}
              (Build_World 4 []) (VDict ∅)
              {| state := {["swap" := VList [VInt 0; VInt 3];
                            "limit" := VList [VInt 1; VInt 4];
                            "above" := VList [VInt 2]]};
                 chain_effect := true |}
              (Build_World 5 []) eq_refl eq_refl eq_refl eq_refl eq_refl)
              {| root := looped guarded_group |} VNone (VDict ∅)
              (Build_World 0 []) _ _).
    + reflexivity.
    + eapply Within_below; [|apply Within_here].
      eapply (Calls_Repeat _ _ _ _ _ _ _ _ _ (VInt 5) _ _ (seqZ 0 5) 5 1);
        [reflexivity|reflexivity|reflexivity|lia| |].
      * eapply Passes_S;
          [apply Condition_none, Guards_nil|reflexivity| | |apply Passes_O].
        -- eapply Children_cons; [reflexivity|reflexivity|].
           eapply Children_cons; [reflexivity|reflexivity|].
           apply Children_nil.
        -- reflexivity.
      * eapply (InBlock_step _ _ _ _ _ _ _
                  [Transform CTransform "swap" func_default []]);
          [reflexivity|apply Condition_none, Guards_nil|reflexivity|
          |reflexivity].
        eapply Children_cons; [reflexivity|reflexivity|apply Children_nil].
  - refine (proj2 (proj2 (C2_chain_effect_in_guard (appending [1]) "borrow"
                     [] (Some (Transform CExpr "above" func_default []))
                     [Transform CTransform "swap" func_default []]
                     {["swap" := VList [VInt 0]]}
                     (VDict ∅) (Build_World 1 []) (Build_World 1 [])
                     {["swap" := VList [VInt 0]]}
                     eq_refl)
              (Transform CExpr "above" func_default [])
              {["swap" := VList [VInt 0]]} (Build_World 1 []) (VDict ∅)
              {| state := {["swap" := VList [VInt 0];
                            "above" := VList [VInt 1]]};
                 chain_effect := true |}
              (Build_World 2 []) eq_refl eq_refl eq_refl eq_refl eq_refl)
              {| root := looped gated_group |}
              (VDict {["main_loop" := VDict {["swap" := VDict ∅]}]})
              (VDict {["swap" := VDict ∅]}) (Build_World 0 []) _ _).
    + reflexivity.
    + eapply Within_below; [|apply Within_here].
      eapply (Calls_Repeat _ _ _ _ _ _ _ _ _ (VInt 5) _ _ (seqZ 0 5) 5 0);
        [reflexivity|reflexivity|reflexivity|lia|apply Passes_O|].
      eapply (InBlock_step _ _ _ _ _ _ _
                [Transform CTransform "swap" func_default []]);
        [reflexivity|apply Condition_none, Guards_nil|reflexivity|
        |reflexivity].
      eapply Children_cons; [reflexivity|reflexivity|apply Children_nil].
Defined.

(** C3: once the condition of a group has been evaluated ([_eval_condition]
    returning a state and a condition): if the condition is false the
    children are skipped, and the group hands the state to [exit_group] and
    returns with [chain_effect = False]; if it is true the children run in
    the order they are declared, each on the state its predecessor returned,
    and the group returns with the disjunction of every child's
    [chain_effect]; and without an entry condition the condition is [True]
    once the guards have run. *)
Theorem C3_group_condition {V : Type} (v : Visitor V) (slug : string)
    (given : list Step) (ec : option Step) (steps : list Step) (st : State)
    (up : Value) (w w0 : World V) (st0 : State) :
  call (enter_group v (Group slug given ec steps) st) w = (w0, Ok st0) →
  (∀ st1 condition w1,
     eval_condition (accept v) slug given ec up st0 w0
     = (w1, Ok (st1, condition)) →
     truthy condition = false →
     accept v (Group slug given ec steps) st up w
     = (st3 ← call (exit_group v (Group slug given ec steps) st1);
        mret {| state := st3; chain_effect := false |}) w1)
  ∧ (∀ st1 condition w1 evs st2 w2,
       eval_condition (accept v) slug given ec up st0 w0
       = (w1, Ok (st1, condition)) →
       truthy condition = true →
       Children v up steps st1 w1 evs st2 w2 →
       accept v (Group slug given ec steps) st up w
       = (st3 ← call (exit_group v (Group slug given ec steps) st2);
          mret {| state := st3;
                  chain_effect := existsb chain_effect evs |}) w2)
  ∧ (∀ st1 w1,
       ec = None →
       eval_given (accept v) slug up given st0 w0 = (w1, Ok st1) →
       eval_condition (accept v) slug given ec up st0 w0
       = (w1, Ok (st1, VBool true))).
Proof.
  intros Henter. split; [|split].
  - intros st1 condition w1 Hcond Hfalse.
    eapply accept_Group_skip; eassumption.
  - intros st1 condition w1 evs st2 w2 Hcond Htrue Hch.
    eapply accept_Group_run; eassumption.
  - intros st1 w1 -> Hgiven. unfold eval_condition.
    rewrite (bind_Ok _ _ _ _ _ Hgiven). reflexivity.
Qed.

Lemma C3_group_condition_witness :
  accept (counting 0) guarded_group ∅ (VDict ∅) (Build_World 0 [])
  = (Build_World 2 [],
     Ok {| state := {["limit" := VInt 0; "above" := VInt 1]};
           chain_effect := false |})
  ∧ accept (counting 1) plain_group ∅ (VDict ∅) (Build_World 0 [])
    = (Build_World 2 [],
       Ok {| state := {["swap" := VInt 0; "repay" := VInt 1]};
             chain_effect := true |})
  ∧ eval_condition (accept (counting 1)) "main" [] None (VDict ∅) ∅
      (Build_World 0 [])
    = (Build_World 0 [], Ok (∅, VBool true)).
Proof.
  split; [|split].
  - refine (proj1 (C3_group_condition (counting 0) "borrow" _ _ _ ∅ (VDict ∅)
                     (Build_World 0 []) (Build_World 0 []) ∅ _)
              {["limit" := VInt 0; "above" := VInt 1]} (VBool false)
              (Build_World 2 []) _ _); reflexivity.
  - refine (proj1 (proj2 (C3_group_condition (counting 1) "main" [] None _ ∅
                            (VDict ∅) (Build_World 0 []) (Build_World 0 [])
                            ∅ _))
              ∅ (VBool true) (Build_World 0 [])
              [{| state := {["swap" := VInt 0]}; chain_effect := true |};
               {| state := {["swap" := VInt 0; "repay" := VInt 1]};
                  chain_effect := false |}]
              {["swap" := VInt 0; "repay" := VInt 1]} (Build_World 2 [])
              _ _ _); try reflexivity.
    eapply Children_cons; [reflexivity|reflexivity|].
    eapply Children_cons; [reflexivity|reflexivity|].
    apply Children_nil.
  - refine (proj2 (proj2 (C3_group_condition (counting 1) "main" [] None
                            [Transform CTransform "swap" func_default [];
                             Transform CTransform "repay" func_default []]
                            ∅ (VDict ∅) (Build_World 0 [])
                            (Build_World 0 []) ∅ _))
              ∅ (Build_World 0 []) _ _); reflexivity.
Defined.

(** What [Visitor.expr] returns has the key ["_condition_"]: it is missing
    only under an executor that replaces [expr]. *)
Lemma Visitor_expr_sets_condition (step : Step) (st : State) (ev : Evaluation) :
  Visitor_expr step st = Ok ev → is_Some (state ev !! "_condition_").
Proof.
  destruct step as [|cls slug func args| |]; simpl; try discriminate.
  destruct (func st _) as [condition|]; [|discriminate].
  intros [= <-]. simpl. rewrite lookup_insert_eq. eexists. reflexivity.
Qed.

(** The entry condition of a group or of a loop that runs without a chain
    effect and leaves no ["_condition_"] in the state makes the condition
    [False]. *)
Lemma eval_condition_missing {V : Type} (v : Visitor V) (slug : string)
    (given : list Step) (cond : Step) (up : Value) (st0 : State)
    (w0 w1 w2 : World V) (st1 : State) (upc : Value) (ev : Evaluation) :
  eval_given (accept v) slug up given st0 w0 = (w1, Ok st1) →
  dict_get up (slug_of cond) (VDict ∅) = Ok upc →
  accept v cond st1 upc w1 = (w2, Ok ev) →
  chain_effect ev = false →
  state ev !! "_condition_" = None →
  eval_condition (accept v) slug given (Some cond) up st0 w0
  = (w2, Ok (state ev, VBool false)).
Proof.
  intros Hgiven Hget Hacc Heff Hmissing. unfold eval_condition.
  rewrite (bind_Ok _ _ _ _ _ Hgiven), Hget, bind_lift_Ok.
  rewrite (bind_Ok _ _ _ _ _ Hacc), Heff, Hmissing. reflexivity.
Qed.

(** C9: when the entry condition of a group runs (after the guards, without
    a chain effect) and leaves the state without the key ["_condition_"],
    the condition is [False]: the group goes on to [exit_group] with the
    state the entry condition returned and reports no chain effect, whatever
    its children are. In a [Repeat], a pass in which this happens ends the
    loop without running the children (the count of passes stays as it was);
    when it is the first pass, the step goes on to [exit_repeat] (after the
    warning, if [max] is 1) and reports no chain effect. *)
Theorem C9_missing_condition_is_false {V : Type} (v : Visitor V)
    (slug : string) (given : list Step) (cond : Step) (steps : list Step)
    (st : State) (up : Value) (w w0 w1 w2 : World V) (st0 st1 : State)
    (upc : Value) (ev : Evaluation) :
  eval_given (accept v) slug up given st0 w0 = (w1, Ok st1) →
  dict_get up (slug_of cond) (VDict ∅) = Ok upc →
  accept v cond st1 upc w1 = (w2, Ok ev) →
  chain_effect ev = false →
  state ev !! "_condition_" = None →
  (call (enter_group v (Group slug given (Some cond) steps) st) w
   = (w0, Ok st0) →
   accept v (Group slug given (Some cond) steps) st up w
   = (st3 ← call (exit_group v (Group slug given (Some cond) steps)
                    (state ev));
      mret {| state := st3; chain_effect := false |}) w2)
  ∧ (∀ c' cs c any n,
       Repeat_loop (eval_condition (accept v) slug given (Some cond) up)
         (run_steps (accept v) up steps) (c' :: cs) c st0 any n w0
       = (w2, Ok {| loop_state := state ev; loop_chain_effect := any;
                    loop_c := c'; loop_passes := n |}))
  ∧ (∀ max actual cs n,
       resolve_field slug st up
         {| fname := "max"; formal := Repeat_max; fvalue := max |}
       = Ok actual →
       py_range actual = Ok (cs, n) →
       (0 < n)%Z →
       call (enter_repeat v
               (Repeat slug (FLit actual) given (Some cond) steps) st) w
       = (w0, Ok st0) →
       accept v (Repeat slug max given (Some cond) steps) st up w
       = (_ ← (if (n - 1 <=? 0)%Z then warn max_iterations_warning
               else mret ());
          st3 ← call (exit_repeat v
                        (Repeat slug (FLit actual) given (Some cond) steps)
                        (state ev));
          mret {| state := st3; chain_effect := false |}) w2).
Proof.
  intros Hgiven Hget Hacc Heff Hmissing.
  pose proof (eval_condition_missing v slug given cond up st0 w0 w1 w2 st1
                upc ev Hgiven Hget Hacc Heff Hmissing) as Hcond.
  split; [|split].
  - intros Henter.
    exact (accept_Group_skip v slug given (Some cond) steps st up w w0 w2
             st0 (state ev) (VBool false) Henter Hcond eq_refl).
  - intros c' cs c any n.
    exact (Repeat_loop_condition_false _ _ c' cs c st0 any n w0 w2 (state ev)
             (VBool false) Hcond eq_refl).
  - intros max actual cs n Hmax Hrange Hn Henter.
    assert (cs = 0%Z :: seqZ 1 (n - 1)) as ->.
    { destruct actual as [| |b|z| | |]; try discriminate; simpl in Hrange.
      - destruct b; injection Hrange as <- <-; [reflexivity|lia].
      - injection Hrange as <- <-. rewrite seqZ_cons by lia. reflexivity. }
    pose proof (Repeat_loop_condition_false
                  (eval_condition (accept v) slug given (Some cond) up)
                  (run_steps (accept v) up steps) 0%Z (seqZ 1 (n - 1)) 0%Z
                  st0 false 0 w0 w2 (state ev) (VBool false) Hcond eq_refl)
      as Hloop.
    rewrite accept_Repeat, Hmax, bind_lift_Ok, (bind_Ok _ _ _ _ _ Henter).
    rewrite Hrange, bind_lift_Ok, (bind_Ok _ _ _ _ _ Hloop). reflexivity.
Qed.

Lemma C9_missing_condition_is_false_witness :
  accept (counting 0) guarded_group ∅ (VDict ∅) (Build_World 0 [])
  = (Build_World 2 [],
     Ok {| state := {["limit" := VInt 0; "above" := VInt 1]};
           chain_effect := false |})
  ∧ accept (counting 0) (guarded_loop (FLit (VInt 3))) ∅ (VDict ∅)
      (Build_World 0 [])
    = (Build_World 2 [],
       Ok {| state := {["limit" := VInt 0; "above" := VInt 1]};
             chain_effect := false |}).
Proof.
  pose proof (C9_missing_condition_is_false (counting 0) "borrow"
                [Transform CTransform "limit" func_default []]
                (Transform CExpr "above" func_default [])
                [Transform CTransform "swap" func_default []]
                ∅ (VDict ∅) (Build_World 0 []) (Build_World 0 [])
                (Build_World 1 []) (Build_World 2 []) ∅
                {["limit" := VInt 0]} (VDict ∅)
                {| state := {["limit" := VInt 0; "above" := VInt 1]};
                   chain_effect := false |}
                eq_refl eq_refl eq_refl eq_refl eq_refl) as [Hgroup _].
  pose proof (C9_missing_condition_is_false (counting 0) "main_loop"
                [Transform CTransform "limit" func_default []]
                (Transform CExpr "above" func_default [])
                [Transform CTransform "swap" func_default []]
                ∅ (VDict ∅) (Build_World 0 []) (Build_World 0 [])
                (Build_World 1 []) (Build_World 2 []) ∅
                {["limit" := VInt 0]} (VDict ∅)
                {| state := {["limit" := VInt 0; "above" := VInt 1]};
                   chain_effect := false |}
                eq_refl eq_refl eq_refl eq_refl eq_refl) as [_ [_ Hloop]].
  split.
  - exact (Hgroup eq_refl).
  - exact (Hloop (FLit (VInt 3)) (VInt 3) (seqZ 0 3) 3%Z
             eq_refl eq_refl eq_refl eq_refl).
Defined.

(** C10: in a group whose guards run one after the other, each on the state
    its predecessor returned, and whose entry condition, run on the state
    the last guard returned, leaves a false condition: the state the group
    hands to [exit_group], and returns from it, is the state the entry
    condition returned. So what the guards and the entry condition wrote is
    not undone when the children are skipped; with the hook of [Visitor]
    itself, the state of the evaluation the group returns is that state. *)
Theorem C10_guard_state_persists {V : Type} (v : Visitor V) (slug : string)
    (given : list Step) (cond : Step) (steps : list Step) (st : State)
    (up : Value) (w w0 w1 w2 : World V) (st0 st1 : State) (upc : Value)
    (ev : Evaluation) :
  call (enter_group v (Group slug given (Some cond) steps) st) w
  = (w0, Ok st0) →
  Guards v up given st0 w0 st1 w1 →
  dict_get up (slug_of cond) (VDict ∅) = Ok upc →
  accept v cond st1 upc w1 = (w2, Ok ev) →
  chain_effect ev = false →
  truthy (default (VBool false) (state ev !! "_condition_")) = false →
  (∀ w3 st3,
     call (exit_group v (Group slug given (Some cond) steps) (state ev)) w2
     = (w3, Ok st3) →
     accept v (Group slug given (Some cond) steps) st up w
     = (w3, Ok {| state := st3; chain_effect := false |}))
  ∧ (exit_group v (Group slug given (Some cond) steps) (state ev)
       (executor w2)
     = (executor w2,
        Visitor_hook (Group slug given (Some cond) steps) (state ev)) →
     accept v (Group slug given (Some cond) steps) st up w
     = (w2, Ok {| state := state ev; chain_effect := false |})).
Proof.
  intros Henter Hguards Hget Hacc Heff Hfalse.
  pose proof (accept_Group_skip v slug given (Some cond) steps st up w w0 w2
                st0 (state ev) _ Henter
                (Condition_eval_condition v slug up given (Some cond) _ _ _
                   _ _ (Condition_some v up given cond _ _ _ _ _ _ _
                          Hguards Hget Hacc Heff))
                Hfalse) as Hskip.
  split.
  - intros w3 st3 Hexit. rewrite Hskip, (bind_Ok _ _ _ _ _ Hexit).
    reflexivity.
  - intros Hhook. rewrite Hskip. unfold mbind, M_bind, call.
    rewrite Hhook. destruct w2. reflexivity.
Qed.

(** Under an executor that keeps what it wrote, in a state that already
    holds an entry of the guard: the guard and the entry condition add to
    it, and the state returned has all of it. *)
Lemma C10_guard_state_persists_witness :
  accept (appending []) guarded_group {["limit" := VList [VInt 7]]}
    (VDict ∅) (Build_World 0 [])
  = (Build_World 2 [],
     Ok {| state := {["limit" := VList [VInt 7; VInt 0];
                      "above" := VList [VInt 1]]};
           chain_effect := false |}).
Proof.
  refine (proj2 (C10_guard_state_persists (appending []) "borrow"
                   [Transform CTransform "limit" func_default []]
                   (Transform CExpr "above" func_default [])
                   [Transform CTransform "swap" func_default []]
                   {["limit" := VList [VInt 7]]} (VDict ∅)
                   (Build_World 0 []) (Build_World 0 []) (Build_World 1 [])
                   (Build_World 2 []) {["limit" := VList [VInt 7]]}
                   {["limit" := VList [VInt 7; VInt 0]]} (VDict ∅)
                   {| state := {["limit" := VList [VInt 7; VInt 0];
                                 "above" := VList [VInt 1]]};
                      chain_effect := false |}
                   eq_refl _ eq_refl eq_refl eq_refl eq_refl) eq_refl).
  eapply Guards_cons; [reflexivity|reflexivity|reflexivity|apply Guards_nil].
Defined.

(** ** [Repeat.accept] *)



(** The loop of [main_loop] under the executor [counting effects]. *)
Lemma counting_cond (effects : nat) (st : State) (w : World nat) :
  main_loop_cond effects st w = (w, Ok (st, VBool true)).
Proof. reflexivity. Qed.

Lemma counting_body (effects : nat) (st : State) (any : bool)
    (w : World nat) :
  main_loop_body effects st any w
  = ({| executor := S (executor w); warnings := warnings w |},
     Ok (<["swap" := VInt (Z.of_nat (executor w))]> st,
         any || (executor w <? effects))).
Proof. reflexivity. Qed.

(** With the flag set, every remaining pass runs. *)
Lemma counting_loop_flag_set (effects : nat) (cs : list Z) (c : Z) (st : State) (n : nat)
    (w : World nat) :
  ∃ st', Repeat_loop (main_loop_cond effects) (main_loop_body effects) cs c st true n w
         = ({| executor := executor w + length cs; warnings := warnings w |},
            Ok {| loop_state := st'; loop_chain_effect := true;
                  loop_c := default c (last cs);
                  loop_passes := n + length cs |}).
Proof.
  revert c st n w. induction cs as [|c' cs IH]; intros c st n w.
  - exists st. simpl. rewrite !Nat.add_0_r. destruct w. reflexivity.
  - rewrite (Repeat_loop_continue (main_loop_cond effects) (main_loop_body effects) c' cs c st true n w _ _ _ _ _
               (counting_cond effects st w) eq_refl
               (counting_body effects st true w)).
    destruct (IH c' (<["swap" := VInt (Z.of_nat (executor w))]> st) (S n)
                {| executor := S (executor w); warnings := warnings w |})
      as [st' ->].
    exists st'. simpl. rewrite last_cons. rewrite !Nat.add_succ_r.
    destruct (last cs); reflexivity.
Qed.

(** A chain effect in the first pass is enough for the loop to run to the
    cap, whatever the later passes report. *)
Lemma counting_loop_runs_to_cap (effects : nat) (max : Z) :
  0 < effects → (0 < max)%Z →
  ∃ st', Repeat_loop (main_loop_cond effects) (main_loop_body effects) (seqZ 0 max) 0%Z ∅ false 0 (Build_World 0 [])
         = (Build_World (Z.to_nat max) [],
            Ok {| loop_state := st'; loop_chain_effect := true;
                  loop_c := (max - 1)%Z; loop_passes := Z.to_nat max |}).
Proof.
  intros Heff Hmax. rewrite seqZ_cons by exact Hmax.
  assert ((0 <? effects) = true) as Hfirst by (apply Nat.ltb_lt, Heff).
  pose proof (counting_body effects ∅ false (Build_World 0 [])) as Hbody.
  simpl in Hbody. rewrite Hfirst in Hbody.
  rewrite (Repeat_loop_continue (main_loop_cond effects) (main_loop_body effects) 0%Z _ 0%Z ∅ false 0
             (Build_World 0 []) _ _ _ _ _
             (counting_cond effects ∅ (Build_World 0 [])) eq_refl Hbody).
  destruct (counting_loop_flag_set effects (seqZ (Z.succ 0) (Z.pred max)) 0%Z
              (<["swap" := VInt (Z.of_nat 0)]> ∅) 1 (Build_World 1 []))
    as [st' ->].
  exists st'. simpl. rewrite length_seqZ.
  assert (default 0%Z (last (seqZ (Z.succ 0) (Z.pred max))) = (max - 1)%Z)
    as ->.
  { destruct (Z_lt_le_dec 0 (Z.pred max)) as [Hpos|Hneg].
    - rewrite last_seqZ by exact Hpos. simpl. lia.
    - rewrite seqZ_nil by exact Hneg. simpl. lia. }
  replace (S (Z.to_nat (Z.pred max))) with (Z.to_nat max) by lia.
  reflexivity.
Qed.



(** C1 does not hold of [Repeat.accept]: with children that report a chain
    effect in the first pass only and [max = 5], the loop runs the children
    five times, not twice, and ends at the cap with the warning. The flag
    tested by [if not any_chain_effect: break] is the one accumulated over
    all passes. *)
Theorem C1_repeat_runs_to_cap :
  Repeat_loop (main_loop_cond 1) (main_loop_body 1)
    (seqZ 0 5) 0%Z ∅ false 0 (Build_World 0 [])
  = (Build_World 5 [],
     Ok {| loop_state := {["swap" := VInt 4]}; loop_chain_effect := true;
           loop_c := 4; loop_passes := 5 |})
  ∧ accept (counting 1) (main_loop (FLit (VInt 5))) ∅ (VDict ∅)
      (Build_World 0 [])
    = (Build_World 5 [max_iterations_warning],
       Ok {| state := {["swap" := VInt 4]}; chain_effect := true |}).
Proof. split; vm_compute; reflexivity. Qed.

(** * Further properties *)

(** ** [Pipeline._init_slugs]: what construction keeps and when it fails *)

Lemma init_slugs_list_erase (l : list Step) :
  Forall (λ el, ∀ seen el' seen',
            init_slugs el seen = Ok (el', seen') →
            erase_slugs el' = erase_slugs el) l →
  ∀ seen l' seen',
    init_slugs_list init_slugs l seen = Ok (l', seen') →
    map erase_slugs l' = map erase_slugs l.
Proof.
  induction 1 as [|el l Hel _ IH]; intros seen l' seen' H; simpl in H.
  - injection H as <- <-. reflexivity.
  - bind_inv H. bind_inv H. injection H as <- <-. simpl.
    f_equal; [eapply Hel|eapply IH]; eassumption.
Qed.

Lemma init_slugs_erase (el : Step) (seen : gset string) (el' : Step)
    (seen' : gset string) :
  init_slugs el seen = Ok (el', seen') → erase_slugs el' = erase_slugs el.
Proof.
  revert seen el' seen'.
  induction el as [cls slug fields|cls slug func args
                   |slug given ec steps Hg He Hs
                   |slug max given ec steps Hg He Hs] using Step_tree_ind;
    intros seen el' seen' H; simpl in H.
  - bind_inv H. injection H as <- <-. reflexivity.
  - bind_inv H. injection H as <- <-. reflexivity.
  - bind_inv H. bind_inv H. bind_inv H. bind_inv H. injection H as <- <-.
    simpl. f_equal.
    + eapply (init_slugs_list_erase given Hg); eassumption.
    + destruct ec as [e|]; simpl in *.
      * bind_inv Hstep1. injection Hstep1 as <- <-. simpl. f_equal.
        eapply He; [reflexivity|eassumption].
      * injection Hstep1 as <- <-. reflexivity.
    + eapply (init_slugs_list_erase steps Hs); eassumption.
  - bind_inv H. bind_inv H. bind_inv H. bind_inv H. injection H as <- <-.
    simpl. f_equal.
    + eapply (init_slugs_list_erase given Hg); eassumption.
    + destruct ec as [e|]; simpl in *.
      * bind_inv Hstep1. injection Hstep1 as <- <-. simpl. f_equal.
        eapply He; [reflexivity|eassumption].
      * injection Hstep1 as <- <-. reflexivity.
    + eapply (init_slugs_list_erase steps Hs); eassumption.
Qed.

Lemma init_slug_keeps (cls_name slug slug' : string) (seen seen' : gset string) :
  init_slug cls_name slug seen = Ok (slug', seen') → kept slug slug'.
Proof. intros H Hne. eapply init_slug_kept; eassumption. Qed.

Lemma init_slugs_list_keeps (l : list Step) :
  Forall (λ el, ∀ seen el' seen',
            init_slugs el seen = Ok (el', seen') →
            Forall2 kept (slugs el) (slugs el')) l →
  ∀ seen l' seen',
    init_slugs_list init_slugs l seen = Ok (l', seen') →
    Forall2 kept (flat_map slugs l) (flat_map slugs l').
Proof.
  induction 1 as [|el l Hel _ IH]; intros seen l' seen' H; simpl in H.
  - injection H as <- <-. constructor.
  - bind_inv H. bind_inv H. injection H as <- <-. simpl.
    apply Forall2_app; [eapply Hel|eapply IH]; eassumption.
Qed.

Lemma init_slugs_keeps (el : Step) (seen : gset string) (el' : Step)
    (seen' : gset string) :
  init_slugs el seen = Ok (el', seen') → Forall2 kept (slugs el) (slugs el').
Proof.
  revert seen el' seen'.
  induction el as [cls slug fields|cls slug func args
                   |slug given ec steps Hg He Hs
                   |slug max given ec steps Hg He Hs] using Step_tree_ind;
    intros seen el' seen' H; simpl in H.
  - bind_inv H. injection H as <- <-.
    constructor; [eapply init_slug_keeps; eassumption|constructor].
  - bind_inv H. injection H as <- <-.
    constructor; [eapply init_slug_keeps; eassumption|constructor].
  - bind_inv H. bind_inv H. bind_inv H. bind_inv H. injection H as <- <-.
    rewrite (slugs_composite _ _ _ _ _ (or_introl eq_refl)).
    rewrite (slugs_composite _ _ _ _ _ (or_introl eq_refl)).
    constructor; [eapply init_slug_keeps; eassumption|].
    apply Forall2_app;
      [eapply (init_slugs_list_keeps given Hg); eassumption|].
    apply Forall2_app;
      [|eapply (init_slugs_list_keeps steps Hs); eassumption].
    destruct ec as [e|]; simpl in *.
    + bind_inv Hstep1. injection Hstep1 as <- <-.
      eapply He; [reflexivity|eassumption].
    + injection Hstep1 as <- <-. constructor.
  - bind_inv H. bind_inv H. bind_inv H. bind_inv H. injection H as <- <-.
    rewrite (slugs_composite _ _ _ _ _ (or_intror (ex_intro _ _ eq_refl))).
    rewrite (slugs_composite _ _ _ _ _ (or_intror (ex_intro _ _ eq_refl))).
    constructor; [eapply init_slug_keeps; eassumption|].
    apply Forall2_app;
      [eapply (init_slugs_list_keeps given Hg); eassumption|].
    apply Forall2_app;
      [|eapply (init_slugs_list_keeps steps Hs); eassumption].
    destruct ec as [e|]; simpl in *.
    + bind_inv Hstep1. injection Hstep1 as <- <-.
      eapply He; [reflexivity|eassumption].
    + injection Hstep1 as <- <-. constructor.
Qed.

(** X1: construction changes nothing but missing slugs: the constructed tree
    has the shape, the classes and the fields of the tree given, and every
    step that came with a slug has kept it. *)
Theorem X1_construction_keeps_tree (r : option Step) (p : Pipeline) :
  Pipeline_init r = Ok p →
  let given := default (Group "main" [] None []) r in
  erase_slugs (root p) = erase_slugs given
  ∧ Forall2 kept (slugs given) (slugs (root p)).
Proof.
  intros H given. unfold Pipeline_init in H. bind_inv H. injection H as <-.
  simpl. split.
  - eapply init_slugs_erase; eassumption.
  - eapply init_slugs_keeps; eassumption.
Qed.

Lemma X1_construction_keeps_tree_witness :
  ∃ p, Pipeline_init (Some sample_tree) = Ok p
       ∧ erase_slugs (root p) = erase_slugs sample_tree
       ∧ Forall2 kept (slugs sample_tree) (slugs (root p)).
Proof.
  eexists. split; [reflexivity|].
  exact (X1_construction_keeps_tree (Some sample_tree) _ eq_refl).
Defined.

Lemma duplicate_slug_of_mono (l l' : list string) (e : Error) :
  l ⊆ l' → duplicate_slug_of l e → duplicate_slug_of l' e.
Proof. intros Hsub (slug & Hne & Hin & ->). exists slug. auto. Qed.

Lemma init_slugs_list_raises_in (l : list Step) :
  Forall (λ el, ∀ seen e, init_slugs el seen = Raise e →
                          duplicate_slug_of (slugs el) e) l →
  ∀ seen e, init_slugs_list init_slugs l seen = Raise e →
            duplicate_slug_of (flat_map slugs l) e.
Proof.
  induction 1 as [|el l Hel _ IH]; intros seen e H; simpl in H;
    [discriminate|].
  raise_inv H.
  { eapply duplicate_slug_of_mono; [|eapply Hel, H]. set_solver. }
  raise_inv H; [|discriminate].
  eapply duplicate_slug_of_mono; [|eapply IH, H]. set_solver.
Qed.

Lemma init_slugs_raises_in (el : Step) (seen : gset string) (e : Error) :
  init_slugs el seen = Raise e → duplicate_slug_of (slugs el) e.
Proof.
  assert (∀ n s sn e' l, init_slug n s sn = Raise e' →
                         duplicate_slug_of (s :: l) e') as Hhead.
  { intros n s sn e' l H. apply init_slug_raises in H as (Hne & _ & ->).
    exists s. split; [assumption|]. split; [left|reflexivity]. }
  revert seen e.
  induction el as [cls slug fields|cls slug func args
                   |slug given ec steps Hg He Hs
                   |slug max given ec steps Hg He Hs] using Step_tree_ind;
    intros seen e H; simpl in H.
  - raise_inv H; [eapply Hhead, H|discriminate].
  - raise_inv H; [eapply Hhead, H|discriminate].
  - rewrite (slugs_composite _ _ _ _ _ (or_introl eq_refl)).
    raise_inv H; [eapply Hhead, H|].
    raise_inv H.
    { eapply duplicate_slug_of_mono;
        [|eapply (init_slugs_list_raises_in given Hg), H]. set_solver. }
    raise_inv H.
    { destruct ec as [e0|]; [|discriminate].
      raise_inv H; [|discriminate].
      eapply duplicate_slug_of_mono; [|eapply He; [reflexivity|exact H]].
      set_solver. }
    raise_inv H; [|discriminate].
    eapply duplicate_slug_of_mono;
      [|eapply (init_slugs_list_raises_in steps Hs), H]. set_solver.
  - rewrite (slugs_composite _ _ _ _ _ (or_intror (ex_intro _ _ eq_refl))).
    raise_inv H; [eapply Hhead, H|].
    raise_inv H.
    { eapply duplicate_slug_of_mono;
        [|eapply (init_slugs_list_raises_in given Hg), H]. set_solver. }
    raise_inv H.
    { destruct ec as [e0|]; [|discriminate].
      raise_inv H; [|discriminate].
      eapply duplicate_slug_of_mono; [|eapply He; [reflexivity|exact H]].
      set_solver. }
    raise_inv H; [|discriminate].
    eapply duplicate_slug_of_mono;
      [|eapply (init_slugs_list_raises_in steps Hs), H]. set_solver.
Qed.

(** X2: for a tree in which no step object occurs twice (the trees the
    terms of [Step] stand for), the one way construction fails is the error
    "duplicate slug found", and the slug it names is not empty and is the
    slug some step of the tree was given by its author: a generated slug is
    never reported, and the search for a free slug never fails. *)
Theorem X2_construction_fails_on_given_slug (r : option Step) (e : Error) :
  Pipeline_init r = Raise e →
  duplicate_slug_of (slugs (default (Group "main" [] None []) r)) e.
Proof.
  unfold Pipeline_init. intros H. raise_inv H; [|discriminate].
  eapply init_slugs_raises_in, H.
Qed.

Lemma X2_construction_fails_on_given_slug_witness :
  duplicate_slug_of ["main"; "swap"; "swap"]
    (RuntimeError "duplicate slug found: swap").
Proof.
  exact (X2_construction_fails_on_given_slug
           (Some (Group "main" [] None
                    [Transform CTransform "swap" func_default [];
                     Transform CTransform "swap" func_default []]))
           _ eq_refl).
Defined.

Lemma kept_elem_of (l l' : list string) (x : string) :
  Forall2 kept l l' → x ≠ "" → x ∈ l → x ∈ l'.
Proof.
  induction 1 as [|a b l l' Hab _ IH]; intros Hne Hin; [inversion Hin|].
  apply elem_of_cons in Hin as [->|Hin].
  - rewrite (Hab Hne). left.
  - right. apply IH; assumption.
Qed.

Lemma kept_NoDup (l l' : list string) :
  Forall2 kept l l' → NoDup l' → NoDup (filter (λ x, x ≠ "") l).
Proof.
  induction 1 as [|a b l l' Hab Hl IH]; intros Hnd; [constructor|].
  apply NoDup_cons in Hnd as [Hb Hnd]. rewrite filter_cons.
  destruct (decide (a ≠ "")) as [Hne|_]; [|apply IH, Hnd].
  apply NoDup_cons. split; [|apply IH, Hnd].
  intros Hin. apply list_elem_of_filter in Hin as [_ Hin].
  apply Hb. rewrite (Hab Hne). eapply kept_elem_of; eassumption.
Qed.

(** X3: a tree in which two steps were given the same slug cannot be made a
    pipeline: construction raises the duplicate-slug error. *)
Theorem X3_given_duplicate_is_rejected (r : Step) :
  ¬ NoDup (filter (λ x, x ≠ "") (slugs r)) →
  ∃ e, Pipeline_init (Some r) = Raise e ∧ duplicate_slug_of (slugs r) e.
Proof.
  intros Hdup. destruct (Pipeline_init (Some r)) as [p|e] eqn:H.
  - exfalso. apply Hdup. unfold Pipeline_init in H. bind_inv H.
    injection H as <-. simpl in Hstep.
    eapply kept_NoDup; [eapply init_slugs_keeps, Hstep|].
    apply init_slugs_assigned in Hstep as (_ & Hnd & _). exact Hnd.
  - exists e. split; [reflexivity|].
    unfold Pipeline_init in H. raise_inv H; [|discriminate].
    eapply init_slugs_raises_in, H.
Qed.

Lemma X3_given_duplicate_is_rejected_witness :
  ∃ e, Pipeline_init
         (Some (Group "" [] None
                  [Leaf Allowance "swap" [];
                   Group "inner" [] None
                     [Transform CTransform "swap" func_default []]]))
       = Raise e
       ∧ duplicate_slug_of [""; "swap"; "inner"; "swap"] e.
Proof.
  refine (X3_given_duplicate_is_rejected _ _).
  vm_compute. intros H. apply NoDup_cons in H as [H _]. apply H.
  right. left.
Defined.

Lemma fresh_for_app (seen seen1 : gset string) (l1 l2 : list string) :
  fresh_for seen (l1 ++ l2) →
  fresh_for seen l1
  ∧ (seen1 = list_to_set l1 ∪ seen → fresh_for seen1 l2).
Proof.
  intros [Hnd H]. apply NoDup_app in Hnd as (Hnd1 & Hdisj & Hnd2). split.
  - split; [assumption|]. intros x Hx. apply H. set_solver.
  - intros ->. split; [assumption|]. intros x Hx.
    destruct (H x) as [Hout Hne]; [set_solver|].
    split; [|assumption]. specialize (Hdisj x). set_solver.
Qed.

Lemma init_slug_given (cls_name slug : string) (seen : gset string) :
  slug ≠ "" → slug ∉ seen →
  init_slug cls_name slug seen = Ok (slug, {[slug]} ∪ seen).
Proof.
  intros Hne Hout. unfold init_slug.
  destruct (String.eqb_spec slug ""); [congruence|]. cbn [negb].
  destruct (decide (slug ∈ seen)); [contradiction|reflexivity].
Qed.

Lemma init_slugs_list_fixed (l : list Step) :
  Forall (λ el, ∀ seen, fresh_for seen (slugs el) →
                        ∃ seen', init_slugs el seen = Ok (el, seen')) l →
  ∀ seen, fresh_for seen (flat_map slugs l) →
          ∃ seen', init_slugs_list init_slugs l seen = Ok (l, seen').
Proof.
  induction 1 as [|el l Hel _ IH]; intros seen Hf; simpl; [eauto|].
  simpl in Hf. apply (fresh_for_app _ (list_to_set (slugs el) ∪ seen)) in Hf
    as [Hf1 Hf2].
  destruct (Hel seen Hf1) as [seen1 H1]. rewrite H1. simpl.
  pose proof (init_slugs_assigned _ _ _ _ H1) as (-> & _).
  destruct (IH _ (Hf2 eq_refl)) as [seen2 H2]. rewrite H2. simpl. eauto.
Qed.

(** A tree that needs no slug and has no duplicate is left as it is. *)
Lemma init_slugs_fixed (el : Step) (seen : gset string) :
  fresh_for seen (slugs el) → ∃ seen', init_slugs el seen = Ok (el, seen').
Proof.
  assert (∀ n slug sn l, fresh_for sn (slug :: l) →
            init_slug n slug sn = Ok (slug, {[slug]} ∪ sn)
            ∧ fresh_for ({[slug]} ∪ sn) l) as Hhead.
  { intros n slug sn l Hf.
    apply (fresh_for_app _ ({[slug]} ∪ sn) [slug] l) in Hf as [[_ H1] H2].
    destruct (H1 slug) as [Hout Hne]; [left|].
    split; [apply init_slug_given; assumption|]. apply H2. set_solver. }
  revert seen.
  induction el as [cls slug fields|cls slug func args
                   |slug given ec steps Hg He Hs
                   |slug max given ec steps Hg He Hs] using Step_tree_ind;
    intros seen Hf.
  - destruct (Hhead (class_name (Leaf cls slug fields)) _ _ _ Hf) as [H _].
    simpl in *. rewrite H. simpl. eauto.
  - destruct (Hhead (class_name (Transform cls slug func args)) _ _ _ Hf)
      as [H _].
    simpl in *. rewrite H. simpl. eauto.
  - rewrite (slugs_composite _ _ _ _ _ (or_introl eq_refl)) in Hf.
    destruct (Hhead (class_name (Group slug given ec steps)) _ _ _ Hf)
      as [H Hf0].
    simpl in *. rewrite H. simpl. clear H Hf.
    apply (fresh_for_app _ (list_to_set (flat_map slugs given)
                            ∪ ({[slug]} ∪ seen))) in Hf0 as [Hf1 Hf2].
    destruct (init_slugs_list_fixed given Hg _ Hf1) as [seen1 H1].
    rewrite H1. simpl.
    pose proof (init_slugs_list_assigned given
                  (proj2 (Forall_forall _ _)
                     (λ x _, init_slugs_assigned x)) _ _ _ H1) as (-> & _).
    specialize (Hf2 eq_refl).
    destruct ec as [e|].
    + apply (fresh_for_app _ (list_to_set (slugs e)
                              ∪ (list_to_set (flat_map slugs given)
                                 ∪ ({[slug]} ∪ seen)))) in Hf2 as [Hf2 Hf3].
      destruct (He e eq_refl _ Hf2) as [seen2 H2]. rewrite H2. simpl.
      pose proof (init_slugs_assigned _ _ _ _ H2) as (-> & _).
      destruct (init_slugs_list_fixed steps Hs _ (Hf3 eq_refl)) as [seen3 H3].
      rewrite H3. simpl. eauto.
    + simpl in Hf2. simpl.
      destruct (init_slugs_list_fixed steps Hs _ Hf2) as [seen3 H3].
      rewrite H3. simpl. eauto.
  - rewrite (slugs_composite _ _ _ _ _ (or_intror (ex_intro _ _ eq_refl)))
      in Hf.
    destruct (Hhead (class_name (Repeat slug max given ec steps)) _ _ _ Hf)
      as [H Hf0].
    simpl in *. rewrite H. simpl. clear H Hf.
    apply (fresh_for_app _ (list_to_set (flat_map slugs given)
                            ∪ ({[slug]} ∪ seen))) in Hf0 as [Hf1 Hf2].
    destruct (init_slugs_list_fixed given Hg _ Hf1) as [seen1 H1].
    rewrite H1. simpl.
    pose proof (init_slugs_list_assigned given
                  (proj2 (Forall_forall _ _)
                     (λ x _, init_slugs_assigned x)) _ _ _ H1) as (-> & _).
    specialize (Hf2 eq_refl).
    destruct ec as [e|].
    + apply (fresh_for_app _ (list_to_set (slugs e)
                              ∪ (list_to_set (flat_map slugs given)
                                 ∪ ({[slug]} ∪ seen)))) in Hf2 as [Hf2 Hf3].
      destruct (He e eq_refl _ Hf2) as [seen2 H2]. rewrite H2. simpl.
      pose proof (init_slugs_assigned _ _ _ _ H2) as (-> & _).
      destruct (init_slugs_list_fixed steps Hs _ (Hf3 eq_refl)) as [seen3 H3].
      rewrite H3. simpl. eauto.
    + simpl in Hf2. simpl.
      destruct (init_slugs_list_fixed steps Hs _ Hf2) as [seen3 H3].
      rewrite H3. simpl. eauto.
Qed.

(** X4: a tree in which every step was given a slug, no slug twice, becomes
    a pipeline with exactly that tree as its root; so the root of a
    constructed pipeline, given to the constructor again, yields the same
    pipeline. *)
Theorem X4_construction_is_idempotent :
  (∀ r, NoDup (slugs r) → Forall (λ slug, slug ≠ "") (slugs r) →
        Pipeline_init (Some r) = Ok {| root := r |})
  ∧ (∀ r p, Pipeline_init r = Ok p → Pipeline_init (Some (root p)) = Ok p).
Proof.
  assert (∀ r, fresh_for ∅ (slugs r) →
               Pipeline_init (Some r) = Ok {| root := r |}) as Hfixed.
  { intros r Hf. unfold Pipeline_init. simpl.
    destruct (init_slugs_fixed r ∅ Hf) as [seen' ->]. reflexivity. }
  split.
  - intros r Hnd Hne. apply Hfixed. split; [assumption|].
    intros x Hx. split; [set_solver|].
    eapply (proj1 (Forall_forall _ _) Hne), Hx.
  - intros r [r'] H. simpl. apply Hfixed.
    unfold Pipeline_init in H. bind_inv H. injection H as <-.
    apply init_slugs_assigned in Hstep as (_ & Hnd & Hnew).
    split; assumption.
Qed.

Lemma X4_construction_is_idempotent_witness :
  Pipeline_init (Some guarded_group) = Ok {| root := guarded_group |}
  ∧ ∃ p, Pipeline_init (Some sample_tree) = Ok p
         ∧ Pipeline_init (Some (root p)) = Ok p.
Proof.
  split.
  - refine (proj1 X4_construction_is_idempotent guarded_group _ _).
    + vm_compute. repeat constructor; set_solver.
    + vm_compute. repeat constructor; discriminate.
  - eexists. split; [reflexivity|].
    exact (proj2 X4_construction_is_idempotent (Some sample_tree) _ eq_refl).
Defined.

(** X23: slugs are handed out in the order of [walk], so that a slug
    generated for a step can be the slug a later step was given: a step
    without children and without a slug, followed by a step that was given
    the snake-case name of the class of the first, makes construction fail
    with the duplicate-slug error for the second, although no two steps
    were given the same slug. *)
Theorem X23_generated_slug_meets_given_slug (slug : string) (a b : Step)
    (rest : list Step) :
  slug ≠ "" → slug_of a = "" → children a = [] →
  slug ≠ camel_to_snake (class_name a) →
  slug_of b = camel_to_snake (class_name a) →
  Pipeline_init (Some (Group slug [] None (a :: b :: rest)))
  = Raise (RuntimeError ("duplicate slug found: " +:+ slug_of b)).
Proof.
  intros Hslug Ha Hleaf Hne Hb.
  assert (camel_to_snake (class_name a) ≠ "") as Hbase
    by apply camel_to_snake_nonempty, class_name_nonempty.
  unfold Pipeline_init. simpl.
  rewrite (init_slug_given "Group" slug ∅ Hslug) by set_solver. simpl.
  assert (init_slug (class_name a) "" ({[slug]} ∪ ∅)
          = Ok (camel_to_snake (class_name a),
                {[camel_to_snake (class_name a)]} ∪ ({[slug]} ∪ ∅))) as Hgen.
  { unfold init_slug. cbn [String.eqb negb gen_slug].
    destruct (decide (camel_to_snake (class_name a) ∈ {[slug]} ∪ ∅));
      [set_solver|reflexivity]. }
  assert (init_slug (class_name b) (slug_of b)
            ({[camel_to_snake (class_name a)]} ∪ ({[slug]} ∪ ∅))
          = Raise (RuntimeError ("duplicate slug found: " +:+ slug_of b)))
    as Hdup.
  { unfold init_slug. rewrite Hb.
    destruct (String.eqb_spec (camel_to_snake (class_name a)) "");
      [contradiction|]. cbn [negb].
    destruct (decide (camel_to_snake (class_name a)
                      ∈ {[camel_to_snake (class_name a)]} ∪ ({[slug]} ∪ ∅)));
      [reflexivity|set_solver]. }
  assert (∃ a', init_slugs a ({[slug]} ∪ ∅)
                = Ok (a', {[camel_to_snake (class_name a)]}
                          ∪ ({[slug]} ∪ ∅))) as [a' Ha'].
  { destruct a as [cls s f|cls s fn args|s given ec steps
                   |s mx given ec steps]; simpl in Ha, Hleaf; subst s.
    - simpl. simpl in Hgen. rewrite Hgen. eexists. reflexivity.
    - simpl. simpl in Hgen. rewrite Hgen. eexists. reflexivity.
    - apply app_eq_nil in Hleaf as [-> Hleaf].
      apply app_eq_nil in Hleaf as [Hec ->].
      destruct ec; [discriminate|]. simpl. simpl in Hgen. rewrite Hgen.
      eexists. reflexivity.
    - apply app_eq_nil in Hleaf as [-> Hleaf].
      apply app_eq_nil in Hleaf as [Hec ->].
      destruct ec; [discriminate|]. simpl. simpl in Hgen. rewrite Hgen.
      eexists. reflexivity. }
  rewrite Ha'. simpl.
  assert (init_slugs b ({[camel_to_snake (class_name a)]} ∪ ({[slug]} ∪ ∅))
          = Raise (RuntimeError ("duplicate slug found: " +:+ slug_of b)))
    as Hb'.
  { destruct b; simpl; simpl in Hdup; rewrite Hdup; reflexivity. }
  rewrite Hb'. reflexivity.
Qed.

Lemma X23_generated_slug_meets_given_slug_witness :
  Pipeline_init
    (Some (Group "main" [] None
             [Transform CTransform "" func_default [];
              Transform CExpr "transform" func_default []]))
  = Raise (RuntimeError "duplicate slug found: transform").
Proof.
  refine (X23_generated_slug_meets_given_slug "main"
            (Transform CTransform "" func_default [])
            (Transform CExpr "transform" func_default []) [] _ eq_refl
            eq_refl _ eq_refl); discriminate.
Defined.

(** ** [utils.camel_to_snake] *)

Lemma to_lower_not_upper (c : ascii) : is_upper (to_lower c) = false.
Proof. destruct c as [[] [] [] [] [] [] [] []]; reflexivity. Qed.

Lemma to_lower_underscore (c : ascii) :
  Ascii.eqb (to_lower c) "_" = Ascii.eqb c "_".
Proof. destruct c as [[] [] [] [] [] [] [] []]; reflexivity. Qed.

Lemma to_lower_id (c : ascii) : is_upper c = false → to_lower c = c.
Proof. unfold to_lower. intros ->. reflexivity. Qed.

Lemma lower_no_upper (s : string) : no_upper (lower s) = true.
Proof.
  induction s as [|c tl IH]; simpl; [reflexivity|].
  rewrite to_lower_not_upper, IH. reflexivity.
Qed.

Lemma strip_sub_first1 (m : Scan) (s : string) :
  strip_underscores (sub_first1 m s) = strip_underscores s.
Proof.
  revert m. induction s as [|c tl IH]; intros m; [reflexivity|].
  assert (∀ m', strip_underscores (String c (sub_first1 m' tl))
                = strip_underscores (String c tl)) as Hc.
  { intros m'. simpl. rewrite IH. reflexivity. }
  assert (strip_underscores (String c (String "_" (sub_first1 OnUpper tl)))
          = strip_underscores (String c tl)) as Hu.
  { simpl. rewrite IH. reflexivity. }
  assert (strip_underscores
            match tl with
            | String u (String l _) =>
                if negb (Ascii.eqb c "010") && is_upper u && is_lower l
                then String c (String "_" (sub_first1 OnUpper tl))
                else String c (sub_first1 Searching tl)
            | _ => String c (sub_first1 Searching tl)
            end
          = strip_underscores (String c tl)) as Hs.
  { destruct tl as [|u [|l tl']]; try apply Hc.
    destruct (negb (Ascii.eqb c "010") && is_upper u && is_lower l);
      [apply Hu|apply Hc]. }
  destruct m; [exact Hs|apply Hc|].
  change (strip_underscores
            (if is_lower c then String c (sub_first1 InLower tl)
             else match tl with
                  | String u (String l _) =>
                      if negb (Ascii.eqb c "010") && is_upper u && is_lower l
                      then String c (String "_" (sub_first1 OnUpper tl))
                      else String c (sub_first1 Searching tl)
                  | _ => String c (sub_first1 Searching tl)
                  end)
          = strip_underscores (String c tl)).
  destruct (is_lower c); [apply Hc|exact Hs].
Qed.

Lemma strip_sub_all2 (s : string) :
  strip_underscores (sub_all2 s) = strip_underscores s.
Proof.
  induction s as [|c tl IH]; [reflexivity|]. cbn [sub_all2].
  destruct tl as [|u tl']; [reflexivity|].
  destruct ((is_lower c || is_digit c) && is_upper u);
    cbn [strip_underscores]; rewrite IH; reflexivity.
Qed.

Lemma strip_lower (s : string) :
  strip_underscores (lower s) = lower (strip_underscores s).
Proof.
  induction s as [|c tl IH]; simpl; [reflexivity|].
  rewrite to_lower_underscore.
  destruct (Ascii.eqb c "_"); simpl; rewrite IH; reflexivity.
Qed.

(** X5: the snake-case form of a name has no upper-case letter, and it is
    the name in lower case but for underscores: the conversion inserts
    underscores and lowers letters, and changes nothing else. *)
Theorem X5_camel_to_snake_lowers_and_inserts (name : string) :
  no_upper (camel_to_snake name) = true
  ∧ strip_underscores (camel_to_snake name) = lower (strip_underscores name).
Proof.
  unfold camel_to_snake. split; [apply lower_no_upper|].
  rewrite strip_lower, strip_sub_all2, strip_sub_first1. reflexivity.
Qed.

Lemma sub_first1_no_upper (m : Scan) (s : string) :
  no_upper s = true → sub_first1 m s = s.
Proof.
  revert m. induction s as [|c tl IH]; intros m Hs; [reflexivity|].
  simpl in Hs. apply andb_prop in Hs as [_ Htl].
  assert (∀ m', String c (sub_first1 m' tl) = String c tl) as Hc.
  { intros m'. rewrite (IH _ Htl). reflexivity. }
  assert (match tl with
          | String u (String l _) =>
              if negb (Ascii.eqb c "010") && is_upper u && is_lower l
              then String c (String "_" (sub_first1 OnUpper tl))
              else String c (sub_first1 Searching tl)
          | _ => String c (sub_first1 Searching tl)
          end = String c tl) as Hs.
  { destruct tl as [|u [|l tl']]; try apply Hc.
    assert (is_upper u = false) as Hu.
    { simpl in Htl. apply andb_prop in Htl as [Hu _].
      apply negb_true_iff, Hu. }
    rewrite Hu, andb_false_r. apply Hc. }
  destruct m; [exact Hs|apply Hc|].
  change ((if is_lower c then String c (sub_first1 InLower tl)
           else match tl with
                | String u (String l _) =>
                    if negb (Ascii.eqb c "010") && is_upper u && is_lower l
                    then String c (String "_" (sub_first1 OnUpper tl))
                    else String c (sub_first1 Searching tl)
                | _ => String c (sub_first1 Searching tl)
                end) = String c tl).
  destruct (is_lower c); [apply Hc|exact Hs].
Qed.

Lemma sub_all2_no_upper (s : string) : no_upper s = true → sub_all2 s = s.
Proof.
  induction s as [|c tl IH]; intros Hs; [reflexivity|].
  simpl in Hs. apply andb_prop in Hs as [_ Htl]. cbn [sub_all2].
  destruct tl as [|u tl']; [reflexivity|].
  rewrite (IH Htl). simpl in Htl. apply andb_prop in Htl as [Hu _].
  apply negb_true_iff in Hu. rewrite Hu, andb_false_r. reflexivity.
Qed.

Lemma lower_id (s : string) : no_upper s = true → lower s = s.
Proof.
  induction s as [|c tl IH]; intros Hs; [reflexivity|].
  simpl in Hs. apply andb_prop in Hs as [Hc Htl]. simpl.
  rewrite (IH Htl), to_lower_id; [reflexivity|].
  apply negb_true_iff, Hc.
Qed.

(** X6: a name without upper-case letters is its own snake-case form, so
    converting twice gives what converting once gives. *)
Theorem X6_camel_to_snake_idempotent (name : string) :
  (no_upper name = true → camel_to_snake name = name)
  ∧ camel_to_snake (camel_to_snake name) = camel_to_snake name.
Proof.
  assert (∀ s, no_upper s = true → camel_to_snake s = s) as Hid.
  { intros s Hs. unfold camel_to_snake.
    rewrite (sub_first1_no_upper _ _ Hs), (sub_all2_no_upper _ Hs).
    apply lower_id, Hs. }
  split; [apply Hid|]. apply Hid. unfold camel_to_snake. apply lower_no_upper.
Qed.

Lemma X6_camel_to_snake_idempotent_witness :
  camel_to_snake "repay_2nd_loan" = "repay_2nd_loan"
  ∧ camel_to_snake (camel_to_snake "ReportUSDValue")
    = camel_to_snake "ReportUSDValue".
Proof.
  split.
  - exact (proj1 (X6_camel_to_snake_idempotent "repay_2nd_loan") eq_refl).
  - exact (proj2 (X6_camel_to_snake_idempotent "ReportUSDValue")).
Defined.

(** ** [Step._prepare_args] and [Transform._prepare_args]: what is read *)

Lemma resolve_field_agree (slug : string) (st st' : State) (up up' : Value)
    (f : Field) :
  agree_on st st' up up' (fvalue f) →
  resolve_field slug st up f = resolve_field slug st' up' f.
Proof.
  unfold resolve_field, agree_on. destruct (fvalue f) as [v|p|r].
  - reflexivity.
  - intros ->. reflexivity.
  - intros ->. reflexivity.
Qed.

Lemma resolve_arg_agree (slug : string) (st st' : State) (up up' : Value)
    (i : nat) (a : FieldValue) :
  agree_on st st' up up' a →
  resolve_arg slug st up i a = resolve_arg slug st' up' i a.
Proof.
  unfold resolve_arg, agree_on. destruct a as [v|p|r].
  - reflexivity.
  - intros ->. reflexivity.
  - intros ->. reflexivity.
Qed.

Lemma prepare_fields_agree (slug : string) (st st' : State) (up up' : Value)
    (fields : list Field) :
  Forall (agree_on st st' up up') (map fvalue fields) →
  prepare_fields slug st up fields = prepare_fields slug st' up' fields.
Proof.
  induction fields as [|f rest IH]; intros H; [reflexivity|].
  simpl in H. apply Forall_cons in H as [Hf Hrest]. simpl.
  rewrite (resolve_field_agree _ _ _ _ _ _ Hf), (IH Hrest). reflexivity.
Qed.

Lemma prepare_arg_list_agree (slug : string) (st st' : State)
    (up up' : Value) (i : nat) (args : list FieldValue) :
  Forall (agree_on st st' up up') args →
  prepare_arg_list slug st up i args = prepare_arg_list slug st' up' i args.
Proof.
  revert i. induction args as [|a rest IH]; intros i H; [reflexivity|].
  apply Forall_cons in H as [Ha Hrest]. simpl.
  rewrite (resolve_arg_agree _ _ _ _ _ _ _ Ha), (IH _ Hrest). reflexivity.
Qed.

Lemma prepare_args_agree (self : Step) (st st' : State) (up up' : Value) :
  Forall (agree_on st st' up up') (held_values self) →
  prepare_args self st up = prepare_args self st' up'.
Proof.
  destruct self as [cls slug fields|cls slug func args|slug given ec steps
                    |slug max given ec steps]; simpl; intros H.
  - rewrite (prepare_fields_agree _ _ _ _ _ _ H). reflexivity.
  - rewrite (prepare_arg_list_agree _ _ _ _ _ _ _ H). reflexivity.
  - reflexivity.
  - apply Forall_cons in H as [H _].
    rewrite (resolve_field_agree _ _ _ _ _
               {| fname := "max"; formal := Repeat_max; fvalue := max |} H).
    reflexivity.
Qed.

Lemma params_fold_keeps (l : list FieldValue) (acc : gmap string Param.t)
    (k : string) :
  is_Some (acc !! k) →
  is_Some (foldl (λ p value, match value with
                             | FParam q => <[Param.key q := q]> p
                             | _ => p
                             end) acc l !! k).
Proof.
  revert acc. induction l as [|v l IH]; intros acc H; [exact H|].
  simpl. apply IH. destruct v as [|q|]; try exact H.
  destruct (decide (Param.key q = k)) as [->|Hne].
  - rewrite lookup_insert_eq. eauto.
  - rewrite lookup_insert_ne by exact Hne. exact H.
Qed.

Lemma params_fold_elem (l : list FieldValue) (acc : gmap string Param.t)
    (q : Param.t) :
  FParam q ∈ l →
  is_Some (foldl (λ p value, match value with
                             | FParam q => <[Param.key q := q]> p
                             | _ => p
                             end) acc l !! Param.key q).
Proof.
  revert acc. induction l as [|v l IH]; intros acc H; [inversion H|].
  apply elem_of_cons in H as [<-|H]; simpl.
  - apply params_fold_keeps. rewrite lookup_insert_eq. eauto.
  - apply IH, H.
Qed.

Lemma ref_keys_elem (self : Step) (r : Ref.t) :
  FRef r ∈ held_values self → Ref.key r ∈ ref_keys self.
Proof.
  intros H. unfold ref_keys. apply list_elem_of_omap.
  exists (FRef r). split; [exact H|reflexivity].
Qed.

(** X7: resolution reads the document only under the keys of the [Param]s
    the step holds (its [params]) and the state only under the keys of its
    [Ref]s: two documents and two states that agree there give the same
    result, prepared step or exception. A step that holds no [Param] does
    not look at its document at all, which may then be anything, even a
    value that is not a dictionary. *)
Theorem X7_resolution_reads_only_its_keys (self : Step) (st st' : State) :
  (∀ m m' : gmap string Value,
     (∀ k, is_Some (Step_params self !! k) → m !! k = m' !! k) →
     (∀ k, k ∈ ref_keys self → st !! k = st' !! k) →
     prepare_args self st (VDict m) = prepare_args self st' (VDict m'))
  ∧ (Step_params self = ∅ →
     ∀ up up', prepare_args self st up = prepare_args self st up').
Proof.
  split.
  - intros m m' Hm Hst. apply prepare_args_agree, Forall_forall.
    intros [v|p|r] Hin; simpl; [exact I| |].
    + rewrite (Hm (Param.key p)); [reflexivity|].
      apply params_fold_elem, Hin.
    + apply Hst, ref_keys_elem, Hin.
  - intros Hnone up up'. apply prepare_args_agree, Forall_forall.
    intros [v|p|r] Hin; simpl; [exact I| |reflexivity].
    pose proof (params_fold_elem _ ∅ p Hin) as [q Hq].
    fold (Step_params self) in Hq. rewrite Hnone in Hq.
    rewrite lookup_empty in Hq. discriminate.
Qed.

Lemma X7_resolution_reads_only_its_keys_witness :
  prepare_args (main_loop (FParam Repeat_max)) ∅
    (VDict {["max" := VInt 3; "swap" := VDict ∅]})
  = prepare_args (main_loop (FParam Repeat_max)) {["max_loops" := VInt 9]}
      (VDict {["max" := VInt 3]})
  ∧ prepare_args (main_loop (FRef max_loops_ref)) {["max_loops" := VInt 9]}
      (VStr "no document")
    = prepare_args (main_loop (FRef max_loops_ref)) {["max_loops" := VInt 9]}
        VNone.
Proof.
  split.
  - refine (proj1 (X7_resolution_reads_only_its_keys
                     (main_loop (FParam Repeat_max)) ∅ _) _ _ _ _).
    + intros k [q Hq]. destruct (decide (k = "max")) as [->|Hne];
        [reflexivity|].
      unfold Step_params in Hq. simpl in Hq.
      rewrite lookup_insert_ne in Hq by congruence.
      rewrite lookup_empty in Hq. discriminate.
    + intros k Hk. inversion Hk.
  - exact (proj2 (X7_resolution_reads_only_its_keys
                    (main_loop (FRef max_loops_ref)) _ ∅) eq_refl _ _).
Defined.

(** ** [Step._prepare_args] and [Transform._prepare_args]: the errors *)

Ltac raise_inv1 H :=
  let H1 := fresh "Hstep" in
  apply res_bind_Raise_inv in H as [H|(? & H1 & H)]; simpl in H;
  [|discriminate].

Lemma resolve_field_error (slug : string) (st : State) (up : Value)
    (f : Field) (e : Error) :
  resolve_field slug st up f = Raise e →
  resolution_error slug e
  ∨ (e = AttributeError ∧ (∀ m, up ≠ VDict m) ∧ ∃ p, fvalue f = FParam p).
Proof.
  unfold resolve_field. destruct (fvalue f) as [v|p|r].
  - destruct (is_scalar v); [|intros [= <-]; left; reflexivity].
    destruct (construct _ _) as [actual|]; [|intros [= <-]; left; reflexivity].
    destruct (is_None actual && _); [|discriminate].
    intros [= <-]. left. reflexivity.
  - destruct up as [| | | | |m|]; simpl;
      try (intros [= <-]; right; split; [reflexivity|];
           split; [discriminate|eauto]).
    destruct (is_None _ || is_empty_str _).
    + destruct (Param.required p); [|discriminate].
      intros [= <-]. left. reflexivity.
    + destruct (construct _ _); [discriminate|].
      intros [= <-]. left. reflexivity.
  - simpl. destruct (is_None _ && _); [|discriminate].
    intros [= <-]. left. reflexivity.
Qed.

Lemma resolve_arg_error (slug : string) (st : State) (up : Value) (i : nat)
    (a : FieldValue) (e : Error) :
  resolve_arg slug st up i a = Raise e →
  resolution_error slug e
  ∨ (e = AttributeError ∧ (∀ m, up ≠ VDict m) ∧ ∃ p, a = FParam p).
Proof.
  unfold resolve_arg. destruct a as [v|p|r].
  - destruct (is_scalar v); [discriminate|].
    intros [= <-]. left. reflexivity.
  - destruct up as [| | | | |m|]; simpl;
      try (intros [= <-]; right; split; [reflexivity|];
           split; [discriminate|eauto]).
    destruct (is_None _ || is_empty_str _).
    + destruct (Param.required p); [|discriminate].
      intros [= <-]. left. reflexivity.
    + destruct (construct _ _); [discriminate|].
      intros [= <-]. left. reflexivity.
  - simpl. destruct (is_None _ && _); [|discriminate].
    intros [= <-]. left. reflexivity.
Qed.

(** The field or argument whose resolution raised. *)
Lemma prepare_fields_raises (slug : string) (st : State) (up : Value)
    (fields : list Field) (e : Error) :
  prepare_fields slug st up fields = Raise e →
  ∃ f, f ∈ fields ∧ resolve_field slug st up f = Raise e.
Proof.
  induction fields as [|f rest IH]; simpl; [discriminate|].
  destruct (resolve_field slug st up f) as [actual|e'] eqn:Hf; simpl.
  - destruct (prepare_fields slug st up rest) as [rest'|e'']; simpl;
      [discriminate|].
    intros [= <-]. destruct (IH eq_refl) as (g & Hin & Hg).
    exists g. split; [right; exact Hin|exact Hg].
  - intros [= <-]. exists f. split; [left|exact Hf].
Qed.

Lemma prepare_arg_list_raises (slug : string) (st : State) (up : Value)
    (i : nat) (args : list FieldValue) (e : Error) :
  prepare_arg_list slug st up i args = Raise e →
  ∃ j a, args !! j = Some a ∧ resolve_arg slug st up (i + j) a = Raise e.
Proof.
  revert i. induction args as [|a rest IH]; intros i; simpl; [discriminate|].
  destruct (resolve_arg slug st up i a) as [actual|e'] eqn:Ha; simpl.
  - destruct (prepare_arg_list slug st up (S i) rest) as [rest'|e''] eqn:Hr;
      simpl; [discriminate|].
    intros [= <-]. destruct (IH _ Hr) as (j & b & Hj & Hb).
    exists (S j), b. split; [exact Hj|].
    replace (i + S j) with (S i + j) by lia. exact Hb.
  - intros [= <-]. exists 0, a. split; [reflexivity|].
    rewrite Nat.add_0_r. exact Ha.
Qed.

(** What raised in [_prepare_args]: one of the values the step holds. *)
Lemma prepare_args_raises (self : Step) (st : State) (up : Value)
    (e : Error) :
  prepare_args self st up = Raise e →
  ∃ a, a ∈ held_values self
       ∧ ((∃ f, fvalue f = a ∧ (∀ cls slug func args,
                                  self ≠ Transform cls slug func args)
                ∧ resolve_field (slug_of self) st up f = Raise e)
          ∨ (∃ i, (∃ cls slug func args,
                     self = Transform cls slug func args)
                  ∧ held_values self !! i = Some a
                  ∧ resolve_arg (slug_of self) st up i a = Raise e)).
Proof.
  destruct self as [cls slug fields|cls slug func args|slug given ec steps
                    |slug max given ec steps]; simpl; intros H.
  - raise_inv1 H.
    apply prepare_fields_raises in H as (f & Hin & Hf).
    exists (fvalue f). split; [apply list_elem_of_fmap; eauto|].
    left. exists f. split; [reflexivity|]. split; [discriminate|exact Hf].
  - raise_inv1 H.
    apply prepare_arg_list_raises in H as (j & a & Hj & Ha).
    exists a. split; [eapply list_elem_of_lookup_2, Hj|].
    right. exists j. split; [eauto 6|]. split; assumption.
  - discriminate.
  - raise_inv1 H. exists max. split; [left|].
    left. exists {| fname := "max"; formal := Repeat_max; fvalue := max |}.
    split; [reflexivity|]. split; [discriminate|exact H].
Qed.

(** X8: whatever state and document a step is resolved with, an exception
    it raises is one of the five resolution errors of [errors.py]
    ([InvalidReferenceError], [InvalidFormalParamTypeError],
    [InvalidFormalParamError], [MissingParamError], [InvalidParamTypeError]),
    and it carries the slug of the step itself; the one exception to this is
    the [AttributeError] of a step that holds a [Param] and is handed a
    document that is not a dictionary. *)
Theorem X8_resolution_errors (self : Step) (st : State) (up : Value)
    (e : Error) :
  prepare_args self st up = Raise e →
  (resolution_error (slug_of self) e ∧ is_Some (error_family e))
  ∨ (e = AttributeError ∧ (∀ m, up ≠ VDict m) ∧ Step_params self ≠ ∅).
Proof.
  intros H.
  assert (resolution_error (slug_of self) e
          ∨ (e = AttributeError ∧ (∀ m, up ≠ VDict m)
             ∧ ∃ p, FParam p ∈ held_values self)) as [Hres|(-> & Hup & p & Hp)].
  { apply prepare_args_raises in H
      as (a & Hin & [(f & <- & _ & Hf)|(i & _ & _ & Ha)]).
    - apply resolve_field_error in Hf as [Hf|(-> & Hup & p & Hp)];
        [left; exact Hf|].
      right. split; [reflexivity|]. split; [exact Hup|].
      exists p. rewrite <- Hp. exact Hin.
    - apply resolve_arg_error in Ha as [Ha|(-> & Hup & p & ->)];
        [left; exact Ha|].
      right. split; [reflexivity|]. split; [exact Hup|]. eauto. }
  - left. split; [exact Hres|].
    destruct e; simpl in Hres; try contradiction; simpl; eauto.
  - right. split; [reflexivity|]. split; [exact Hup|].
    intros Hempty. destruct (params_fold_elem _ ∅ p Hp) as [q Hq].
    fold (Step_params self) in Hq. rewrite Hempty, lookup_empty in Hq.
    discriminate.
Qed.

Lemma X8_resolution_errors_witness :
  (resolution_error "main_loop" (MissingParamError "main_loop" "max")
   ∧ is_Some (error_family (MissingParamError "main_loop" "max")))
  ∨ (MissingParamError "main_loop" "max" = AttributeError
     ∧ (∀ m, VDict {["max" := VStr ""]} ≠ VDict m)
     ∧ Step_params (main_loop (FParam Repeat_max)) ≠ ∅).
Proof.
  exact (X8_resolution_errors (main_loop (FParam Repeat_max)) ∅
           (VDict {["max" := VStr ""]}) _ eq_refl).
Defined.

(** X9: [MissingParamError] is raised only for a required [Param] the step
    holds whose value, taken from the document or else from the default of
    the parameter, is [None] or the empty string; so a step whose [Param]s
    are all optional never raises it. [InvalidReferenceError] is raised only
    for a required [Ref] the step holds whose value in the state, or else
    its default, is [None], and it names the key of that reference. *)
Theorem X9_missing_only_when_required (self : Step) (st : State)
    (up : Value) (s k : string) :
  (prepare_args self st up = Raise (MissingParamError s k) →
   ∃ p raw, FParam p ∈ held_values self ∧ Param.required p = true
            ∧ dict_get up (Param.key p) (Param.default p) = Ok raw
            ∧ is_None raw || is_empty_str raw = true
            ∧ (k = Param.key p ∨ ∃ i, k = arg_name i (Param.key p)))
  ∧ (prepare_args self st up = Raise (InvalidReferenceError s k) →
     ∃ r, FRef r ∈ held_values self ∧ Ref.required r = true
          ∧ k = Ref.key r
          ∧ default (Ref.default r) (st !! Ref.key r) = VNone).
Proof.
  split; intros H;
    apply prepare_args_raises in H
      as (a & Hin & [(f & <- & _ & Hf)|(i & _ & _ & Ha)]).
  - unfold resolve_field in Hf. destruct (fvalue f) as [v|p|r].
    + destruct (is_scalar v); [|discriminate].
      destruct (construct _ _) as [actual|]; [|discriminate].
      destruct (is_None actual && _); discriminate.
    + destruct up as [| | | | |m|]; simpl in Hf; try discriminate.
      destruct (is_None _ || is_empty_str _) eqn:Hempty.
      * destruct (Param.required p) eqn:Hreq; [|discriminate].
        injection Hf as _ <-. exists p. eexists.
        split; [exact Hin|]. split; [exact Hreq|].
        split; [reflexivity|]. split; [exact Hempty|]. left. reflexivity.
      * destruct (construct _ _); discriminate.
    + simpl in Hf. destruct (is_None _ && _); discriminate.
  - unfold resolve_arg in Ha. destruct a as [v|p|r].
    + destruct (is_scalar v); discriminate.
    + destruct up as [| | | | |m|]; simpl in Ha; try discriminate.
      destruct (is_None _ || is_empty_str _) eqn:Hempty.
      * destruct (Param.required p) eqn:Hreq; [|discriminate].
        injection Ha as _ <-. exists p. eexists.
        split; [exact Hin|]. split; [exact Hreq|].
        split; [reflexivity|]. split; [exact Hempty|].
        right. exists i. reflexivity.
      * destruct (construct _ _); discriminate.
    + simpl in Ha. destruct (is_None _ && _); discriminate.
  - unfold resolve_field in Hf. destruct (fvalue f) as [v|p|r].
    + destruct (is_scalar v); [|discriminate].
      destruct (construct _ _) as [actual|]; [|discriminate].
      destruct (is_None actual && _); discriminate.
    + destruct up as [| | | | |m|]; simpl in Hf; try discriminate.
      destruct (is_None _ || is_empty_str _).
      * destruct (Param.required p); discriminate.
      * destruct (construct _ _); discriminate.
    + simpl in Hf.
      destruct (is_None (default (Ref.default r) (st !! Ref.key r)))
        eqn:Hnone; simpl in Hf; [|discriminate].
      destruct (Ref.required r) eqn:Hreq; [|discriminate].
      injection Hf as _ <-. exists r. repeat (split; [assumption||reflexivity|]).
      destruct (default _ _); try discriminate. reflexivity.
  - unfold resolve_arg in Ha. destruct a as [v|p|r].
    + destruct (is_scalar v); discriminate.
    + destruct up as [| | | | |m|]; simpl in Ha; try discriminate.
      destruct (is_None _ || is_empty_str _).
      * destruct (Param.required p); discriminate.
      * destruct (construct _ _); discriminate.
    + simpl in Ha.
      destruct (is_None (default (Ref.default r) (st !! Ref.key r)))
        eqn:Hnone; simpl in Ha; [|discriminate].
      destruct (Ref.required r) eqn:Hreq; [|discriminate].
      injection Ha as _ <-. exists r. repeat (split; [assumption||reflexivity|]).
      destruct (default _ _); try discriminate. reflexivity.
Qed.

Lemma X9_missing_only_when_required_witness :
  ∃ p raw, FParam p ∈ held_values (main_loop (FParam Repeat_max))
           ∧ Param.required p = true
           ∧ dict_get (VDict {["max" := VNone]}) (Param.key p)
               (Param.default p) = Ok raw
           ∧ is_None raw || is_empty_str raw = true
           ∧ ("max" = Param.key p ∨ ∃ i, "max" = arg_name i (Param.key p)).
Proof.
  exact (proj1 (X9_missing_only_when_required (main_loop (FParam Repeat_max))
                  ∅ (VDict {["max" := VNone]}) "main_loop" "max") eq_refl).
Defined.

(** ** [Step._prepare_args] and [Transform._prepare_args]: the result *)

Lemma params_fold_literals (l : list FieldValue) (acc : gmap string Param.t) :
  Forall is_literal l →
  foldl (λ p value, match value with
                    | FParam q => <[Param.key q := q]> p
                    | _ => p
                    end) acc l = acc.
Proof.
  induction 1 as [|a l [v ->] _ IH]; [reflexivity|]. simpl. exact IH.
Qed.

Lemma prepare_fields_result (slug : string) (st : State) (up : Value)
    (fields fields' : list Field) :
  prepare_fields slug st up fields = Ok fields' →
  Forall is_literal (map fvalue fields')
  ∧ map fname fields' = map fname fields
  ∧ map formal fields' = map formal fields.
Proof.
  revert fields'. induction fields as [|f rest IH]; intros fields' H;
    simpl in H.
  - injection H as <-. repeat split. constructor.
  - apply res_bind_Ok_inv in H as (actual & _ & H). simpl in H.
    apply res_bind_Ok_inv in H as (rest' & Hrest & H). simpl in H.
    injection H as <-. destruct (IH _ Hrest) as (Hlit & Hname & Hformal).
    simpl. split; [|split; f_equal; assumption].
    constructor; [eexists; reflexivity|exact Hlit].
Qed.

Lemma prepare_arg_list_result (slug : string) (st : State) (up : Value)
    (i : nat) (args args' : list FieldValue) :
  prepare_arg_list slug st up i args = Ok args' →
  Forall is_literal args'
  ∧ Forall2 (λ a a', ∀ v, a = FLit v → a' = FLit v) args args'.
Proof.
  revert i args'. induction args as [|a rest IH]; intros i args' H;
    simpl in H.
  - injection H as <-. split; constructor.
  - apply res_bind_Ok_inv in H as (actual & Ha & H). simpl in H.
    apply res_bind_Ok_inv in H as (rest' & Hrest & H). simpl in H.
    injection H as <-. destruct (IH _ _ Hrest) as [Hlit Hsame].
    split; constructor; try assumption; [eexists; reflexivity|].
    intros v ->. simpl in Ha. destruct (is_scalar v); [|discriminate].
    injection Ha as <-. reflexivity.
Qed.

(** X10: the step [_prepare_args] returns is the step it was called on but
    for the values it holds: it has the same slug and class, the same
    children, the same formal parameters under the same names, and as many
    values; each value is now a literal, so that the prepared step has no
    [params] left. *)
Theorem X10_prepared_step_holds_literals (self : Step) (st : State)
    (up : Value) (self' : Step) :
  prepare_args self st up = Ok self' →
  slug_of self' = slug_of self
  ∧ class_name self' = class_name self
  ∧ tail (walk [] self') = tail (walk [] self)
  ∧ map fname (formal_fields self') = map fname (formal_fields self)
  ∧ map formal (formal_fields self') = map formal (formal_fields self)
  ∧ length (held_values self') = length (held_values self)
  ∧ Forall is_literal (held_values self')
  ∧ Step_params self' = ∅.
Proof.
  intros H.
  assert (slug_of self' = slug_of self
          ∧ class_name self' = class_name self
          ∧ tail (walk [] self') = tail (walk [] self)
          ∧ map fname (formal_fields self') = map fname (formal_fields self)
          ∧ map formal (formal_fields self') = map formal (formal_fields self)
          ∧ length (held_values self') = length (held_values self)
          ∧ Forall is_literal (held_values self'))
    as (H1 & H2 & H3 & H4 & H5 & H6 & H7).
  { destruct self as [cls slug fields|cls slug func args|slug given ec steps
                      |slug max given ec steps]; simpl in H.
    - apply res_bind_Ok_inv in H as (fields' & Hf & H). injection H as <-.
      apply prepare_fields_result in Hf as (Hlit & Hname & Hformal).
      simpl. repeat (split; [reflexivity||assumption|]).
      split; [|exact Hlit].
      rewrite !length_map.
      rewrite <- (length_map fname fields'), Hname, length_map. reflexivity.
    - apply res_bind_Ok_inv in H as (args' & Ha & H). injection H as <-.
      apply prepare_arg_list_result in Ha as (Hlit & Hsame).
      simpl. repeat (split; [reflexivity|]). split; [|exact Hlit].
      symmetry. eapply Forall2_length, Hsame.
    - injection H as <-. simpl. repeat (split; [reflexivity|]). constructor.
    - apply res_bind_Ok_inv in H as (actual & _ & H). injection H as <-.
      simpl. repeat (split; [reflexivity|]).
      constructor; [eexists; reflexivity|constructor]. }
  repeat (split; [assumption|]).
  unfold Step_params. apply params_fold_literals, H7.
Qed.

Lemma X10_prepared_step_holds_literals_witness :
  ∃ self', prepare_args (guarded_loop (FParam Repeat_max)) ∅
             (VDict {["max" := VStr "7"]}) = Ok self'
           ∧ slug_of self' = "main_loop"
           ∧ held_values self' = [FLit (VInt 7)]
           ∧ Step_params self' = ∅.
Proof.
  eexists. split; [reflexivity|]. split; [reflexivity|].
  split; [reflexivity|].
  exact (proj2 (proj2 (proj2 (proj2 (proj2 (proj2 (proj2
           (X10_prepared_step_holds_literals
              (guarded_loop (FParam Repeat_max)) ∅
              (VDict {["max" := VStr "7"]}) _ eq_refl)))))))).
Defined.

Lemma prepare_arg_list_app (slug : string) (st : State) (up : Value)
    (i : nat) (l1 l2 : list FieldValue) :
  prepare_arg_list slug st up i (l1 ++ l2)
  = (r1 ← prepare_arg_list slug st up i l1;
     r2 ← prepare_arg_list slug st up (i + length l1) l2;
     Ok (r1 ++ r2)).
Proof.
  revert i. induction l1 as [|a l1 IH]; intros i; simpl.
  - rewrite Nat.add_0_r.
    destruct (prepare_arg_list slug st up i l2); reflexivity.
  - destruct (resolve_arg slug st up i a); simpl; [|reflexivity].
    rewrite IH. replace (S i + length l1) with (i + S (length l1)) by lia.
    destruct (prepare_arg_list slug st up (S i) l1); simpl; [|reflexivity].
    destruct (prepare_arg_list slug st up _ l2); reflexivity.
Qed.

Lemma prepare_arg_list_raise_at (slug : string) (st : State) (up : Value)
    (pre pre' : list FieldValue) (a : FieldValue) (post : list FieldValue)
    (e : Error) :
  prepare_arg_list slug st up 0 pre = Ok pre' →
  resolve_arg slug st up (length pre) a = Raise e →
  prepare_arg_list slug st up 0 (pre ++ a :: post) = Raise e.
Proof.
  intros Hpre Ha. rewrite prepare_arg_list_app, Hpre. simpl. rewrite Ha.
  reflexivity.
Qed.

(** X11: [Transform._prepare_args] hands a literal argument on as it is
    (there is no declared type to coerce it with) and keeps [func]; and when
    an argument cannot be resolved, the arguments before it resolving, the
    error names it by its position, counted from 0: [args[i]] for a value
    that is no scalar, and [args[i], key=<key>] for a required [Param]
    without a value and for a [Param] whose type refuses the value. *)
Theorem X11_transform_arguments (cls : TransformClass) (slug : string)
    (func : Callable) (args : list FieldValue) (st : State)
    (m : gmap string Value) :
  (∀ self', prepare_args (Transform cls slug func args) st (VDict m)
            = Ok self' →
            ∃ args', self' = Transform cls slug func args'
                     ∧ Forall2 (λ a a', ∀ v, a = FLit v → a' = FLit v)
                         args args')
  ∧ (∀ pre pre' a post,
       args = pre ++ a :: post →
       prepare_arg_list slug st (VDict m) 0 pre = Ok pre' →
       (∀ v, a = FLit v → is_scalar v = false →
             prepare_args (Transform cls slug func args) st (VDict m)
             = Raise (InvalidFormalParamTypeError slug
                        ("args[" +:+ pretty (length pre) +:+ "]") (FLit v)))
       ∧ (∀ p, a = FParam p →
               let raw := default (Param.default p) (m !! Param.key p) in
               (Param.required p = true →
                is_None raw || is_empty_str raw = true →
                prepare_args (Transform cls slug func args) st (VDict m)
                = Raise (MissingParamError slug
                           (arg_name (length pre) (Param.key p))))
               ∧ (is_None raw || is_empty_str raw = false →
                  construct (Param.type p) (Some raw) = None →
                  prepare_args (Transform cls slug func args) st (VDict m)
                  = Raise (InvalidParamTypeError slug
                             (arg_name (length pre) (Param.key p)) raw)))).
Proof.
  split.
  - intros self' H. simpl in H.
    apply res_bind_Ok_inv in H as (args' & Ha & H). injection H as <-.
    exists args'. split; [reflexivity|].
    eapply prepare_arg_list_result, Ha.
  - intros pre pre' a post -> Hpre.
    assert (∀ e, resolve_arg slug st (VDict m) (length pre) a = Raise e →
                 prepare_args (Transform cls slug func (pre ++ a :: post)) st
                   (VDict m) = Raise e) as Hraise.
    { intros e He. simpl.
      rewrite (prepare_arg_list_raise_at _ _ _ _ _ _ _ _ Hpre He).
      reflexivity. }
    split.
    + intros v -> Hv. apply Hraise. simpl. rewrite Hv. reflexivity.
    + intros p -> raw. split.
      * intros Hreq Hempty. apply Hraise. rewrite resolve_arg_Param.
        fold raw. rewrite Hempty, Hreq. reflexivity.
      * intros Hempty Hty. apply Hraise. rewrite resolve_arg_Param.
        fold raw. rewrite Hempty, Hty. reflexivity.
Qed.

Lemma X11_transform_arguments_witness :
  prepare_args
    (Transform CExpr "above" func_default
       [FLit (VStr "7"); FRef {| Ref.key := "max_loops"; Ref.required := false;
                Ref.default := VNone |}; FParam Repeat_max])
    ∅ (VDict {["max" := VStr ""]})
  = Raise (MissingParamError "above" "args[2], key=max")
  ∧ ∃ args',
      Transform CExpr "above" func_default
        [FLit (VStr "7"); FLit VNone; FLit (VInt 3)]
      = Transform CExpr "above" func_default args'
      ∧ Forall2 (λ a a', ∀ v, a = FLit v → a' = FLit v)
          [FLit (VStr "7"); FRef {| Ref.key := "max_loops";
                                    Ref.required := false;
                                    Ref.default := VNone |};
           FParam Repeat_max] args'.
Proof.
  split.
  - exact (proj1 (proj2 (proj2 (X11_transform_arguments CExpr "above"
                    func_default _ ∅ {["max" := VStr ""]})
                    [FLit (VStr "7"); FRef {| Ref.key := "max_loops"; Ref.required := false;
                Ref.default := VNone |}]
                    [FLit (VStr "7"); FLit VNone] (FParam Repeat_max) []
                    eq_refl eq_refl) Repeat_max eq_refl) eq_refl eq_refl).
  - exact (proj1 (X11_transform_arguments CExpr "above" func_default
                    [FLit (VStr "7");
                     FRef {| Ref.key := "max_loops"; Ref.required := false;
                             Ref.default := VNone |};
                     FParam Repeat_max] ∅ {["max" := VInt 3]})
             (Transform CExpr "above" func_default
                [FLit (VStr "7"); FLit VNone; FLit (VInt 3)]) eq_refl).
Defined.

(** ** [Step.accept] and the classes that override it *)

Section AcceptFacts.

Context {V : Type} (v : Visitor V).

Lemma accept_Leaf (cls : LeafClass) (slug : string) (fields : list Field)
    (st : State) (up : Value) (w : World V) :
  overrides_accept cls = true →
  accept v (Leaf cls slug fields) st up w
  = (self' ← lift (prepare_args (Leaf cls slug fields) st up);
     call (visit v self' st)) w.
Proof. intros H. cbn [accept]. rewrite H. reflexivity. Qed.

Lemma accept_Transform (cls : TransformClass) (slug : string)
    (func : Callable) (args : list FieldValue) (st : State) (up : Value)
    (w : World V) :
  accept v (Transform cls slug func args) st up w
  = (self' ← lift (prepare_args (Transform cls slug func args) st up);
     call (visit v self' st)) w.
Proof. reflexivity. Qed.

(** An exception of [_prepare_args] is the exception of [accept], in the
    world [accept] was called in. *)
Lemma accept_unresolved (self : Step) (st : State) (up : Value)
    (w : World V) (e : Error) :
  (∀ slug fields, self ≠ Leaf Allowance slug fields) →
  prepare_args self st up = Raise e →
  accept v self st up w = (w, Raise e).
Proof.
  intros Hcls H.
  destruct self as [cls slug fields|cls slug func args|slug given ec steps
                    |slug max given ec steps].
  - destruct (overrides_accept cls) eqn:Hover.
    + rewrite (accept_Leaf _ _ _ _ _ _ Hover), H. reflexivity.
    + exfalso. destruct cls; try discriminate. eapply Hcls. reflexivity.
  - rewrite accept_Transform, H. reflexivity.
  - discriminate.
  - rewrite accept_Repeat. simpl in H.
    destruct (resolve_field _ _ _ _) as [actual|e']; [discriminate|].
    injection H as ->. reflexivity.
Qed.

(** X12: a step that cannot be resolved raises before the executor is
    touched: the exception of [_prepare_args] leaves [accept] in the world it
    was called in, with no method or hook of the executor called and nothing
    logged. This holds for every class but [Allowance], which defines [run]
    and not [accept]: it inherits [Step.accept], is never resolved, never
    reaches the executor and returns the state it was given, without a chain
    effect. *)
Theorem X12_unresolved_step_touches_nothing (self : Step) (st : State)
    (up : Value) (w : World V) :
  (∀ e, (∀ slug fields, self ≠ Leaf Allowance slug fields) →
        prepare_args self st up = Raise e →
        accept v self st up w = (w, Raise e))
  ∧ (∀ slug fields, self = Leaf Allowance slug fields →
       accept v self st up w
       = (w, Ok {| state := st; chain_effect := false |})).
Proof.
  split.
  - intros e. apply accept_unresolved.
  - intros slug fields ->. reflexivity.
Qed.

(** X13: a group catches nothing. When a child raises, the children before
    it having run, the group raises the same exception in the world that
    child left: the children after it do not run, [exit_group] is not
    called, and a pipeline with the group as its root ends with that
    exception. *)
Theorem X13_child_exception_propagates (slug : string) (given : list Step)
    (ec : option Step) (pre : list Step) (s : Step) (post : list Step)
    (st : State) (up : Value) (w w0 w1 w2 w3 : World V) (st0 st1 st2 : State)
    (condition : Value) (evs : list Evaluation) (ups : Value) (e : Error) :
  call (enter_group v (Group slug given ec (pre ++ s :: post)) st) w
  = (w0, Ok st0) →
  eval_condition (accept v) slug given ec up st0 w0
  = (w1, Ok (st1, condition)) →
  truthy condition = true →
  Children v up pre st1 w1 evs st2 w2 →
  dict_get up (slug_of s) (VDict ∅) = Ok ups →
  accept v s st2 ups w2 = (w3, Raise e) →
  aborts_with v (Group slug given ec (pre ++ s :: post)) st up w w3 e.
Proof.
  intros Henter Hcond Htrue Hpre Hget Hacc. apply aborts_with_intro.
  eapply accept_Group_children_raise; [exact Henter|exact Hcond|exact Htrue|].
  rewrite run_steps_app.
  rewrite (bind_Ok _ _ _ _ _
             (Children_run_steps v up _ _ _ _ _ _ false Hpre)).
  simpl. rewrite Hget, bind_lift_Ok. apply bind_Raise, Hacc.
Qed.

Lemma prepare_args_not_a_dict (self : Step) (st : State) (up : Value)
    (p : Param.t) (rest : list FieldValue) :
  held_values self = FParam p :: rest → (∀ m, up ≠ VDict m) →
  prepare_args self st up = Raise AttributeError.
Proof.
  intros Hheld Hup.
  assert (dict_get up (Param.key p) (Param.default p) = Raise AttributeError)
    as Hget.
  { destruct up as [| | | | |m|]; try reflexivity. destruct (Hup m eq_refl). }
  destruct self as [cls slug fields|cls slug func args|slug given ec steps
                    |slug max given ec steps]; simpl in Hheld.
  - destruct fields as [|f fields]; [discriminate|].
    injection Hheld as Hf _. simpl. unfold resolve_field.
    rewrite Hf, Hget. reflexivity.
  - subst args. simpl. rewrite Hget. reflexivity.
  - discriminate.
  - injection Hheld as -> _. simpl. unfold resolve_field. simpl.
    rewrite Hget. reflexivity.
Qed.

(** X22: the entry of a document under the slug of a child is handed to the
    child as it is, also when it is [None] or another value that is no
    dictionary (only a missing entry becomes the empty dictionary, and only
    the entry of the root is replaced when it is false). A child whose first
    value is a [Param] then raises [AttributeError], before the executor is
    touched. *)
Theorem X22_entry_that_is_no_dictionary (m : gmap string Value) (s : Step)
    (st : State) (w : World V) (sub : Value) (p : Param.t)
    (rest : list FieldValue) :
  m !! slug_of s = Some sub →
  (∀ d, sub ≠ VDict d) →
  held_values s = FParam p :: rest →
  (∀ slug fields, s ≠ Leaf Allowance slug fields) →
  dict_get (VDict m) (slug_of s) (VDict ∅) = Ok sub
  ∧ accept v s st sub w = (w, Raise AttributeError).
Proof.
  intros Hm Hsub Hheld Hcls. split.
  - simpl. rewrite Hm. reflexivity.
  - apply accept_unresolved; [exact Hcls|].
    eapply prepare_args_not_a_dict; eassumption.
Qed.

End AcceptFacts.

Lemma X12_unresolved_step_touches_nothing_witness :
  accept (counting 1) (main_loop (FParam Repeat_max)) ∅
    (VDict {["max" := VStr "many"]}) (Build_World 0 [])
  = (Build_World 0 [],
     Raise (InvalidParamTypeError "main_loop" "max" (VStr "many")))
  ∧ accept (counting 1) (Leaf Allowance "allowance" []) ∅ VNone
      (Build_World 0 [])
    = (Build_World 0 [], Ok {| state := ∅; chain_effect := false |}).
Proof.
  split.
  - refine (proj1 (X12_unresolved_step_touches_nothing (counting 1)
                     (main_loop (FParam Repeat_max)) ∅
                     (VDict {["max" := VStr "many"]}) (Build_World 0 []))
              _ _ eq_refl).
    discriminate.
  - exact (proj2 (X12_unresolved_step_touches_nothing (counting 1)
                    (Leaf Allowance "allowance" []) ∅ VNone
                    (Build_World 0 [])) "allowance" [] eq_refl).
Defined.

Lemma X13_child_exception_propagates_witness :
  aborts_with (counting 1)
    (Group "main" [] None
       [Transform CTransform "swap" func_default [];
        main_loop (FParam Repeat_max);
        Transform CTransform "repay" func_default []])
    ∅ (VDict {["main_loop" := VDict {["max" := VStr ""]}]})
    (Build_World 0 []) (Build_World 1 [])
    (MissingParamError "main_loop" "max").
Proof.
  refine (X13_child_exception_propagates (counting 1) "main" [] None
            [Transform CTransform "swap" func_default []]
            (main_loop (FParam Repeat_max))
            [Transform CTransform "repay" func_default []]
            ∅ (VDict {["main_loop" := VDict {["max" := VStr ""]}]})
            (Build_World 0 []) (Build_World 0 []) (Build_World 0 [])
            (Build_World 1 []) (Build_World 1 []) ∅ ∅
            {["swap" := VInt 0]} (VBool true)
            [{| state := {["swap" := VInt 0]}; chain_effect := true |}]
            (VDict {["max" := VStr ""]}) _
            eq_refl eq_refl eq_refl _ eq_refl eq_refl).
  eapply Children_cons; [reflexivity|reflexivity|apply Children_nil].
Defined.

Lemma X22_entry_that_is_no_dictionary_witness :
  dict_get (VDict {["main_loop" := VNone]})
    (slug_of (main_loop (FParam Repeat_max))) (VDict ∅) = Ok VNone
  ∧ accept (counting 1) (main_loop (FParam Repeat_max)) ∅ VNone
      (Build_World 0 [])
    = (Build_World 0 [], Raise AttributeError).
Proof.
  refine (X22_entry_that_is_no_dictionary (counting 1)
            {["main_loop" := VNone]} (main_loop (FParam Repeat_max)) ∅
            (Build_World 0 []) VNone Repeat_max [] eq_refl _ eq_refl _);
    discriminate.
Defined.

(** ** [Repeat.accept] *)

Section RepeatFacts.

Context {V : Type} (v : Visitor V).

(** Where the loop variable stands when the loop is left: on the value of
    the pass it was left in, the passes before that one having run the
    children. *)
Lemma Repeat_loop_index (cond : State → M V (State * Value))
    (body : State → bool → M V (State * bool)) (cs : list Z) (c : Z)
    (st : State) (any : bool) (p : nat) (w w' : World V) (r : LoopResult) :
  Repeat_loop cond body cs c st any p w = (w', Ok r) →
  (cs = [] ∧ loop_c r = c ∧ loop_passes r = p)
  ∨ (∃ j, cs !! j = Some (loop_c r)
          ∧ p + j ≤ loop_passes r ≤ p + j + 1).
Proof.
  revert c st any p w. induction cs as [|c' cs IH]; intros c st any p w;
    simpl.
  - intros [= <- <-]. left. repeat split.
  - intros H. right. revert H. unfold mbind at 1, M_bind at 1.
    destruct (cond st w) as [w1 [[st1 condition]|e]]; [|discriminate].
    destruct (truthy condition); simpl.
    + unfold mbind at 1, M_bind at 1.
      destruct (body st1 any w1) as [w2 [[st2 any2]|e]]; [|discriminate].
      destruct any2; simpl.
      * intros H. destruct (IH _ _ _ _ _ H) as [(-> & Hc & Hp)|(j & Hj & Hp)].
        -- exists 0. rewrite Hc. split; [reflexivity|lia].
        -- exists (S j). split; [exact Hj|lia].
      * intros [= <- <-]. exists 0. simpl. split; [reflexivity|lia].
    + intros [= <- <-]. exists 0. simpl. split; [reflexivity|lia].
Qed.



(** The equation of [Repeat.accept] once its loop has returned. *)
Lemma accept_Repeat_after_loop (slug : string) (max : FieldValue)
    (given : list Step) (ec : option Step) (steps : list Step) (st : State)
    (up : Value) (actual : Value) (cs : list Z) (n : Z) (w w0 w1 : World V)
    (st0 : State) (r : LoopResult) :
  resolve_field slug st up
    {| fname := "max"; formal := Repeat_max; fvalue := max |} = Ok actual →
  py_range actual = Ok (cs, n) →
  call (enter_repeat v (Repeat slug (FLit actual) given ec steps) st) w
  = (w0, Ok st0) →
  Repeat_loop (eval_condition (accept v) slug given ec up)
    (run_steps (accept v) up steps) cs 0%Z st0 false 0 w0 = (w1, Ok r) →
  accept v (Repeat slug max given ec steps) st up w
  = (st1 ← call (exit_repeat v (Repeat slug (FLit actual) given ec steps)
                   (loop_state r));
     mret {| state := st1; chain_effect := loop_chain_effect r |})
      (if (n - 1 <=? loop_c r)%Z then warned w1 else w1).
Proof.
  intros Hmax Hrange Henter Hloop.
  rewrite accept_Repeat, Hmax, bind_lift_Ok, (bind_Ok _ _ _ _ _ Henter).
  rewrite Hrange, bind_lift_Ok, (bind_Ok _ _ _ _ _ Hloop).
  destruct (n - 1 <=? loop_c r)%Z; reflexivity.
Qed.

(** X14: when the warning about the maximum of iterations is logged. It is
    logged when the loop is left with its variable on the last value,
    whatever made it leave; so with a maximum of 1 or less it is logged in
    every run that gets through the loop (with 0 or less although no pass
    was begun, with 1 also when the one pass ended by its condition), and
    it is not logged when the children ran fewer than [max - 1] times. *)
Theorem X14_when_the_cap_warning_is_logged (slug : string)
    (max : FieldValue) (given : list Step) (ec : option Step)
    (steps : list Step) (st : State) (up : Value) (actual : Value)
    (cs : list Z) (n : Z) (w w0 w1 : World V) (st0 : State) (r : LoopResult) :
  resolve_field slug st up
    {| fname := "max"; formal := Repeat_max; fvalue := max |} = Ok actual →
  py_range actual = Ok (cs, n) →
  call (enter_repeat v (Repeat slug (FLit actual) given ec steps) st) w
  = (w0, Ok st0) →
  Repeat_loop (eval_condition (accept v) slug given ec up)
    (run_steps (accept v) up steps) cs 0%Z st0 false 0 w0 = (w1, Ok r) →
  let finish (w' : World V) :=
    (st1 ← call (exit_repeat v (Repeat slug (FLit actual) given ec steps)
                   (loop_state r));
     mret {| state := st1; chain_effect := loop_chain_effect r |}) w' in
  ((n ≤ 1)%Z →
   accept v (Repeat slug max given ec steps) st up w = finish (warned w1))
  ∧ ((Z.of_nat (loop_passes r) < n - 1)%Z →
     accept v (Repeat slug max given ec steps) st up w = finish w1).
Proof.
  intros Hmax Hrange Henter Hloop finish.
  pose proof (accept_Repeat_after_loop _ _ _ _ _ _ _ _ _ _ _ _ _ _ _
                Hmax Hrange Henter Hloop) as Hacc.
  apply py_range_seqZ in Hrange as ->.
  assert ((0 ≤ loop_c r ≤ Z.of_nat (loop_passes r))%Z) as Hc.
  { destruct (Repeat_loop_index _ _ _ _ _ _ _ _ _ _ Hloop)
      as [(_ & -> & ->)|(j & Hj & Hp)]; [lia|].
    apply lookup_seqZ in Hj as [-> _]. lia. }
  split.
  - intros Hn. rewrite Hacc.
    replace (n - 1 <=? loop_c r)%Z with true; [reflexivity|].
    symmetry. apply Z.leb_le. lia.
  - intros Hp. rewrite Hacc.
    replace (n - 1 <=? loop_c r)%Z with false; [reflexivity|].
    symmetry. apply Z.leb_gt. lia.
Qed.


(** X16: a maximum that is neither an [int] nor a [bool] (the [None] of an
    optional [Param] without a value, or what a [Ref] found in the state,
    which no type coerces) makes [range] raise [TypeError]: after
    [enter_repeat] was called, and without a call of [exit_repeat]. *)
Theorem X16_maximum_must_be_an_int (slug : string) (max : FieldValue)
    (given : list Step) (ec : option Step) (steps : list Step) (st : State)
    (up : Value) (actual : Value) (w w0 : World V) (st0 : State) :
  resolve_field slug st up
    {| fname := "max"; formal := Repeat_max; fvalue := max |} = Ok actual →
  (∀ z, actual ≠ VInt z) → (∀ b, actual ≠ VBool b) →
  call (enter_repeat v (Repeat slug (FLit actual) given ec steps) st) w
  = (w0, Ok st0) →
  accept v (Repeat slug max given ec steps) st up w = (w0, Raise TypeError).
Proof.
  intros Hmax Hint Hbool Henter.
  rewrite accept_Repeat, Hmax, bind_lift_Ok, (bind_Ok _ _ _ _ _ Henter).
  destruct actual as [| |b|z| | |]; try reflexivity.
  - destruct (Hbool b eq_refl).
  - destruct (Hint z eq_refl).
Qed.


(** X24: a maximum of zero or less ([False] counts as 0) runs nothing: no
    guard, no entry condition and no child is run, the state [enter_repeat]
    returned goes to [exit_repeat], no chain effect is reported, and the
    warning about the maximum is logged all the same. *)
Theorem X24_no_pass_with_maximum_zero (slug : string) (max : FieldValue)
    (given : list Step) (ec : option Step) (steps : list Step) (st : State)
    (up : Value) (actual : Value) (cs : list Z) (n : Z) (w w0 : World V)
    (st0 : State) :
  resolve_field slug st up
    {| fname := "max"; formal := Repeat_max; fvalue := max |} = Ok actual →
  py_range actual = Ok (cs, n) →
  (n ≤ 0)%Z →
  call (enter_repeat v (Repeat slug (FLit actual) given ec steps) st) w
  = (w0, Ok st0) →
  accept v (Repeat slug max given ec steps) st up w
  = (st1 ← call (exit_repeat v (Repeat slug (FLit actual) given ec steps)
                   st0);
     mret {| state := st1; chain_effect := false |}) (warned w0).
Proof.
  intros Hmax Hrange Hn Henter.
  pose proof (py_range_seqZ _ _ _ Hrange) as Hcs.
  rewrite seqZ_nil in Hcs by exact Hn. subst cs.
  rewrite (accept_Repeat_after_loop _ _ _ _ _ _ _ _ _ _ _ _ w0 _
             {| loop_state := st0; loop_chain_effect := false;
                loop_c := 0; loop_passes := 0 |} Hmax Hrange Henter eq_refl).
  simpl. replace (n - 1 <=? 0)%Z with true; [reflexivity|].
  symmetry. apply Z.leb_le. lia.
Qed.

End RepeatFacts.

Lemma X14_when_the_cap_warning_is_logged_witness :
  accept (counting 0) (main_loop (FLit (VInt 1))) ∅ (VDict ∅)
    (Build_World 0 [])
  = (Build_World 1 [max_iterations_warning],
     Ok {| state := {["swap" := VInt 0]}; chain_effect := false |})
  ∧ accept (counting 0) (main_loop (FLit (VInt 5))) ∅ (VDict ∅)
      (Build_World 0 [])
    = (Build_World 1 [],
       Ok {| state := {["swap" := VInt 0]}; chain_effect := false |}).
Proof.
  split.
  - exact (proj1 (X14_when_the_cap_warning_is_logged (counting 0)
                    "main_loop" (FLit (VInt 1)) [] None
                    [Transform CTransform "swap" func_default []] ∅ (VDict ∅)
                    (VInt 1) (seqZ 0 1) 1 (Build_World 0 [])
                    (Build_World 0 []) (Build_World 1 []) ∅
                    {| loop_state := {["swap" := VInt 0]};
                       loop_chain_effect := false; loop_c := 0;
                       loop_passes := 1 |}
                    eq_refl eq_refl eq_refl eq_refl) ltac:(lia)).
  - exact (proj2 (X14_when_the_cap_warning_is_logged (counting 0)
                    "main_loop" (FLit (VInt 5)) [] None
                    [Transform CTransform "swap" func_default []] ∅ (VDict ∅)
                    (VInt 5) (seqZ 0 5) 5 (Build_World 0 [])
                    (Build_World 0 []) (Build_World 1 []) ∅
                    {| loop_state := {["swap" := VInt 0]};
                       loop_chain_effect := false; loop_c := 0;
                       loop_passes := 1 |}
                    eq_refl eq_refl eq_refl eq_refl) ltac:(simpl; lia)).
Defined.


Lemma X16_maximum_must_be_an_int_witness :
  accept (counting 0)
    (main_loop (FParam {| Param.type := py_int; Param.key := "max";
                          Param.name := ""; Param.required := false;
                          Param.default := VNone |}))
    ∅ (VDict ∅) (Build_World 0 [])
  = (Build_World 0 [], Raise TypeError).
Proof.
  refine (X16_maximum_must_be_an_int (counting 0) "main_loop"
            (FParam {| Param.type := py_int; Param.key := "max";
                       Param.name := ""; Param.required := false;
                       Param.default := VNone |})
            [] None [Transform CTransform "swap" func_default []] ∅
            (VDict ∅) VNone (Build_World 0 []) (Build_World 0 []) ∅
            eq_refl _ _ eq_refl); discriminate.
Defined.


Lemma X24_no_pass_with_maximum_zero_witness :
  accept (counting 1) (guarded_loop (FLit (VBool false))) ∅ (VDict ∅)
    (Build_World 0 [])
  = (Build_World 0 [max_iterations_warning],
     Ok {| state := ∅; chain_effect := false |}).
Proof.
  exact (X24_no_pass_with_maximum_zero (counting 1) "main_loop"
           (FLit (VBool false))
           [Transform CTransform "limit" func_default []]
           (Some (Transform CExpr "above" func_default []))
           [Transform CTransform "swap" func_default []] ∅ (VDict ∅)
           (VInt 0) [] 0 (Build_World 0 []) (Build_World 0 []) ∅
           eq_refl eq_refl ltac:(lia) eq_refl).
Defined.

(** ** [Pipeline.__call__] *)

Lemma root_params_falsy (p : Pipeline) (doc : Value) :
  truthy doc = false → root_params p doc = Ok (VDict ∅).
Proof. unfold root_params. intros ->. simpl. rewrite lookup_empty. reflexivity. Qed.

Lemma truthy_empty_dict : truthy (VDict ∅) = false.
Proof. simpl. rewrite map_size_empty. reflexivity. Qed.

Lemma root_params_dict (p : Pipeline) (m : gmap string Value) :
  root_params p (VDict m)
  = Ok (let sub := default VNone (m !! slug_of (root p)) in
        if truthy sub then sub else VDict ∅).
Proof.
  unfold root_params. destruct (truthy (VDict m)) eqn:Hm; [reflexivity|].
  simpl in Hm. apply negb_false_iff, Nat.eqb_eq, map_size_empty_iff in Hm.
  subst m. simpl. rewrite lookup_empty. reflexivity.
Qed.

(** X18: what a run takes from the document it is called with is the entry
    under the slug of the root, and nothing else: two documents with the
    same entry there give the same run. No document ([None]), an empty one
    or any other value that is false in a boolean context, a document
    without that entry and a document in which the entry is itself false
    all give the run of the empty document; a document that is true but no
    dictionary raises [AttributeError] before the executor is touched. *)
Theorem X18_document_of_a_run {V : Type} (v : Visitor V) (p : Pipeline)
    (w : World V) :
  (∀ m m' : gmap string Value,
     m !! slug_of (root p) = m' !! slug_of (root p) →
     Pipeline_call v p (VDict m) w = Pipeline_call v p (VDict m') w)
  ∧ (∀ doc, truthy doc = false →
            Pipeline_call v p doc w = Pipeline_call v p (VDict ∅) w)
  ∧ (∀ m, truthy (default VNone (m !! slug_of (root p))) = false →
          Pipeline_call v p (VDict m) w = Pipeline_call v p (VDict ∅) w)
  ∧ (∀ doc, truthy doc = true → (∀ m, doc ≠ VDict m) →
            Pipeline_call v p doc w = (w, Raise AttributeError)).
Proof.
  unfold Pipeline_call. repeat split.
  - intros m m' H. rewrite !root_params_dict, H. reflexivity.
  - intros doc H. rewrite (root_params_falsy p doc H).
    rewrite (root_params_falsy p (VDict ∅) truthy_empty_dict). reflexivity.
  - intros m H. rewrite root_params_dict. simpl. rewrite H.
    rewrite (root_params_falsy p (VDict ∅) truthy_empty_dict). reflexivity.
  - intros doc Htrue Hdict. unfold root_params. rewrite Htrue.
    destruct doc as [| | | | |m|]; try reflexivity.
    destruct (Hdict m eq_refl).
Qed.

Lemma X18_document_of_a_run_witness :
  Pipeline_call (counting 1) {| root := plain_group |}
    (VDict {["main" := VInt 0; "other" := VStr "x"]}) (Build_World 0 [])
  = Pipeline_call (counting 1) {| root := plain_group |} (VDict ∅)
      (Build_World 0 [])
  ∧ Pipeline_call (counting 1) {| root := plain_group |} (VStr "main")
      (Build_World 0 [])
    = (Build_World 0 [], Raise AttributeError).
Proof.
  split.
  - exact (proj1 (proj2 (proj2 (X18_document_of_a_run (counting 1)
                    {| root := plain_group |} (Build_World 0 []))))
                 {["main" := VInt 0; "other" := VStr "x"]} eq_refl).
  - refine (proj2 (proj2 (proj2 (X18_document_of_a_run (counting 1)
                     {| root := plain_group |} (Build_World 0 []))))
                  (VStr "main") eq_refl _).
    discriminate.
Defined.

(** ** [Step.walk] and [Group.walk] *)

Lemma walk_head (p : list string) (s : Step) :
  head (walk p s) = Some (p ++ [slug_of s], s).
Proof. destruct s; reflexivity. Qed.

Lemma flat_map_walk_steps (l : list Step) (p q : list string) :
  Forall (λ s, ∀ p q, map snd (walk p s) = map snd (walk q s)) l →
  map snd (flat_map (walk p) l) = map snd (flat_map (walk q) l).
Proof.
  induction 1 as [|s l Hs _ IH]; simpl; [reflexivity|].
  rewrite !map_app, IH, (Hs p q). reflexivity.
Qed.

Lemma walk_steps_path (s : Step) (p q : list string) :
  map snd (walk p s) = map snd (walk q s).
Proof.
  revert p q. induction s as [| |slug given ec steps Hg He Hs
                              |slug max given ec steps Hg He Hs]
    using Step_tree_ind; intros p q; simpl; try reflexivity.
  - rewrite !map_app. f_equal.
    rewrite (flat_map_walk_steps given _ (q ++ [slug]) Hg).
    rewrite (flat_map_walk_steps steps _ (q ++ [slug]) Hs).
    destruct ec as [e|]; [|reflexivity].
    rewrite (He e eq_refl _ (q ++ [slug])). reflexivity.
  - rewrite !map_app. f_equal.
    rewrite (flat_map_walk_steps given _ (q ++ [slug]) Hg).
    rewrite (flat_map_walk_steps steps _ (q ++ [slug]) Hs).
    destruct ec as [e|]; [|reflexivity].
    rewrite (He e eq_refl _ (q ++ [slug])). reflexivity.
Qed.

Lemma flat_map_walk_paths (l : list Step) (p : list string) :
  Forall (λ s, ∀ p, Forall (λ x, (p ++ [slug_of s]) `prefix_of` x.1
                                 ∧ last x.1 = Some (slug_of x.2))
                      (walk p s)) l →
  Forall (λ x, p `prefix_of` x.1 ∧ last x.1 = Some (slug_of x.2))
    (flat_map (walk p) l).
Proof.
  induction 1 as [|s l Hs _ IH]; simpl; [constructor|].
  apply Forall_app. split; [|exact IH].
  eapply Forall_impl; [apply Hs|]. intros x [Hpre Hlast].
  split; [|exact Hlast]. etrans; [|exact Hpre]. apply prefix_app_r. reflexivity.
Qed.

(** X19: [walk] yields the step it is called on first, under the path it was
    given extended by the slug of that step; every path it yields extends
    that one and ends with the slug of the step it comes with; and the steps
    it yields do not depend on the path it was given. *)
Theorem X19_walk_paths (s : Step) (p : list string) :
  head (walk p s) = Some (p ++ [slug_of s], s)
  ∧ Forall (λ x, (p ++ [slug_of s]) `prefix_of` x.1
                 ∧ last x.1 = Some (slug_of x.2)) (walk p s)
  ∧ map snd (walk p s) = map snd (walk [] s).
Proof.
  split; [apply walk_head|]. split; [|apply walk_steps_path].
  revert p. induction s as [cls slug fields|cls slug func args
                            |slug given ec steps Hg He Hs
                            |slug max given ec steps Hg He Hs]
    using Step_tree_ind; intros p.
  - constructor; [split; [reflexivity|apply last_snoc]|constructor].
  - constructor; [split; [reflexivity|apply last_snoc]|constructor].
  - simpl. constructor; [split; [reflexivity|apply last_snoc]|].
    apply Forall_app. split; [apply flat_map_walk_paths, Hg|].
    apply Forall_app. split; [|apply flat_map_walk_paths, Hs].
    destruct ec as [e|]; [|constructor].
    eapply Forall_impl; [apply (He e eq_refl)|]. intros x [Hpre Hlast].
    split; [|exact Hlast]. etrans; [|exact Hpre].
    apply prefix_app_r. reflexivity.
  - simpl. constructor; [split; [reflexivity|apply last_snoc]|].
    apply Forall_app. split; [apply flat_map_walk_paths, Hg|].
    apply Forall_app. split; [|apply flat_map_walk_paths, Hs].
    destruct ec as [e|]; [|constructor].
    eapply Forall_impl; [apply (He e eq_refl)|]. intros x [Hpre Hlast].
    split; [|exact Hlast]. etrans; [|exact Hpre].
    apply prefix_app_r. reflexivity.
Qed.

(** ** [Visitor.expr] under [Group._eval_condition] *)

(** X20: under an executor that takes [expr] from [Visitor], the condition
    of a group or loop is the value [func] returns for the state the guards
    left and the resolved arguments. That value is stored under
    ["_condition_"], replacing what an earlier condition left there, the
    executor is not changed, and an exception of [func] is the exception of
    the condition. *)
Theorem X20_inherited_expr_decides {V : Type} (v : Visitor V)
    (slug : string) (given : list Step) (cslug : string) (func : Callable)
    (args : list FieldValue) (up : Value) (st0 st1 : State)
    (w0 w1 : World V) (upc : Value) (args' : list FieldValue) :
  (∀ a st x, visit v (Transform CExpr cslug func a) st x
             = (x, Visitor_expr (Transform CExpr cslug func a) st)) →
  eval_given (accept v) slug up given st0 w0 = (w1, Ok st1) →
  dict_get up cslug (VDict ∅) = Ok upc →
  prepare_arg_list cslug st1 upc 0 args = Ok args' →
  (∀ c, func st1 (literal_values args') = Some c →
        eval_condition (accept v) slug given
          (Some (Transform CExpr cslug func args)) up st0 w0
        = (w1, Ok (<["_condition_" := c]> st1, c)))
  ∧ (func st1 (literal_values args') = None →
     eval_condition (accept v) slug given
       (Some (Transform CExpr cslug func args)) up st0 w0
     = (w1, Raise (OtherException "func"))).
Proof.
  intros Hvisit Hgiven Hget Hargs.
  assert (accept v (Transform CExpr cslug func args) st1 upc w1
          = (w1, Visitor_expr (Transform CExpr cslug func args') st1))
    as Hacc.
  { rewrite accept_Transform. simpl prepare_args. rewrite Hargs. simpl.
    rewrite bind_lift_Ok. unfold call. rewrite Hvisit. destruct w1.
    reflexivity. }
  unfold eval_condition. rewrite (bind_Ok _ _ _ _ _ Hgiven). simpl slug_of.
  rewrite Hget, bind_lift_Ok. split.
  - intros c Hc. simpl in Hacc. fold (literal_values args') in Hacc.
    rewrite Hc in Hacc. rewrite (bind_Ok _ _ _ _ _ Hacc). simpl.
    rewrite lookup_insert_eq. reflexivity.
  - intros Hc. simpl in Hacc. fold (literal_values args') in Hacc.
    rewrite Hc in Hacc. apply bind_Raise, Hacc.
Qed.

Lemma X20_inherited_expr_decides_witness :
  eval_condition (accept inherited_expr) "borrow" []
    (Some (Transform CExpr "above" func_limit [])) (VDict ∅)
    {["limit" := VInt 0; "_condition_" := VBool true]} (Build_World () [])
  = (Build_World () [],
     Ok (<["_condition_" := VInt 0]>
           {["limit" := VInt 0; "_condition_" := VBool true]}, VInt 0))
  ∧ eval_condition (accept inherited_expr) "borrow" []
      (Some (Transform CExpr "above" func_limit [])) (VDict ∅) ∅
      (Build_World () [])
    = (Build_World () [], Raise (OtherException "func")).
Proof.
  split.
  - exact (proj1 (X20_inherited_expr_decides inherited_expr "borrow" []
                    "above" func_limit [] (VDict ∅)
                    {["limit" := VInt 0; "_condition_" := VBool true]}
                    {["limit" := VInt 0; "_condition_" := VBool true]}
                    (Build_World () [])
                    (Build_World () []) (VDict ∅) []
                    (λ _ _ _, eq_refl) eq_refl eq_refl eq_refl)
                 (VInt 0) eq_refl).
  - exact (proj2 (X20_inherited_expr_decides inherited_expr "borrow" []
                    "above" func_limit [] (VDict ∅) ∅ ∅ (Build_World () [])
                    (Build_World () []) (VDict ∅) []
                    (λ _ _ _, eq_refl) eq_refl eq_refl eq_refl) eq_refl).
Defined.

(** ** [Pipeline.params] *)

Lemma add_params_Raise (e : Error) (l : list (list string * Step)) :
  foldl add_params (Raise e) l = Raise e.
Proof. induction l as [|x l IH]; [reflexivity|exact IH]. Qed.

Lemma walk_composite (s : Step) (p : list string) :
  walk p s
  = (p ++ [slug_of s], s) :: flat_map (walk (p ++ [slug_of s])) (children s).
Proof.
  destruct s as [| |slug given ec steps|slug max given ec steps]; simpl;
    try reflexivity;
    rewrite !flat_map_app; destruct ec; simpl; rewrite ?app_nil_r;
    reflexivity.
Qed.

Lemma flat_map_walk_cons (k : string) (p : list string) (l : list Step) :
  Forall (λ s, ∀ p, walk (k :: p) s
                    = map (λ x, (k :: x.1, x.2)) (walk p s)) l →
  flat_map (walk (k :: p)) l
  = map (λ x, (k :: x.1, x.2)) (flat_map (walk p) l).
Proof.
  induction 1 as [|s l Hs _ IH]; simpl; [reflexivity|].
  rewrite map_app, IH, Hs. reflexivity.
Qed.

(** A path that starts one key higher. *)
Lemma walk_cons (k : string) (s : Step) (p : list string) :
  walk (k :: p) s = map (λ x, (k :: x.1, x.2)) (walk p s).
Proof.
  revert p. induction s as [| |slug given ec steps Hg He Hs
                            |slug max given ec steps Hg He Hs]
    using Step_tree_ind; intros p; try reflexivity.
  - rewrite !walk_composite. simpl. f_equal.
    apply (flat_map_walk_cons k (p ++ [slug])).
    apply Forall_app. split; [exact Hg|]. apply Forall_app.
    split; [|exact Hs]. destruct ec as [e|]; repeat constructor.
    apply He. reflexivity.
  - rewrite !walk_composite. simpl. f_equal.
    apply (flat_map_walk_cons k (p ++ [slug])).
    apply Forall_app. split; [exact Hg|]. apply Forall_app.
    split; [|exact Hs]. destruct ec as [e|]; repeat constructor.
    apply He. reflexivity.
Qed.

(** The updates below one key are updates of the dictionary under it. *)
Lemma add_params_focus (k : string) (l : list (list string * Step))
    (d inner : gmap string ParamTree) :
  d !! k = Some (PDict inner) ∨ (d !! k = None ∧ inner = ∅ ∧ l ≠ []) →
  foldl add_params (Ok d) (map (λ x, (k :: x.1, x.2)) l)
  = (inner' ← foldl add_params (Ok inner) l; Ok (<[k := PDict inner']> d)).
Proof.
  revert d inner. induction l as [|x l IH]; intros d inner Hk.
  - destruct Hk as [Hk|(_ & _ & Hl)]; [|congruence].
    simpl. rewrite insert_id by exact Hk. reflexivity.
  - assert (default (PDict ∅) (d !! k) = PDict inner) as Hd.
    { destruct Hk as [->|(-> & -> & _)]; reflexivity. }
    simpl. rewrite Hd.
    destruct (nested x.1 _ inner) as [inner1|e]; simpl.
    + rewrite (IH _ inner1) by (left; apply lookup_insert_eq).
      destruct (foldl add_params (Ok inner1) l) as [inner'|e]; simpl;
        [|reflexivity].
      rewrite insert_insert_eq. reflexivity.
    + rewrite !add_params_Raise. reflexivity.
Qed.

Lemma slug_of_in_slugs (s : Step) : slug_of s ∈ slugs s.
Proof.
  unfold slugs. rewrite walk_composite. simpl. left.
Qed.

Lemma slugs_children (s : Step) :
  slugs s = slug_of s :: flat_map slugs (children s).
Proof.
  destruct s as [| |slug given ec steps|slug max given ec steps];
    try reflexivity.
  - rewrite (slugs_composite _ _ _ _ _ (or_introl eq_refl)). simpl.
    rewrite !flat_map_app. destruct ec; simpl; rewrite ?app_nil_r;
      reflexivity.
  - rewrite (slugs_composite _ _ _ _ _ (or_intror (ex_intro _ _ eq_refl))).
    simpl. rewrite !flat_map_app. destruct ec; simpl; rewrite ?app_nil_r;
      reflexivity.
Qed.

Lemma params_tree_children (s : Step) :
  params_tree s
  = foldl (λ m c, <[slug_of c := PDict (params_tree c)]> m)
      (PParam <$> Step_params s) (children s).
Proof.
  destruct s as [| |slug given ec steps|slug max given ec steps];
    try reflexivity; simpl; rewrite !foldl_app; destruct ec; reflexivity.
Qed.

Lemma collision_free_children (s : Step) :
  collision_free s
  = forallb (λ c, bool_decide (slug_of c ∉ dom (Step_params s))
                  && collision_free c) (children s).
Proof.
  destruct s as [| |slug given ec steps|slug max given ec steps];
    try reflexivity; simpl; rewrite !forallb_app; destruct ec; simpl;
    rewrite ?andb_true_r, ?andb_assoc; reflexivity.
Qed.

(** The loop of [Pipeline.params] over the sub-trees [l], in a dictionary
    [m] that holds a [Param] under the slug of a child exactly when [free]
    says so. *)
Lemma add_params_children (free : Step → bool) (l : list Step) :
  Forall (λ c, ∀ d, NoDup (slugs c) → d !! slug_of c = None →
                    foldl add_params (Ok d) (walk [] c)
                    = if collision_free c
                      then Ok (<[slug_of c := PDict (params_tree c)]> d)
                      else Raise AttributeError) l →
  ∀ m, NoDup (flat_map slugs l) →
       (∀ c, c ∈ l → if free c then m !! slug_of c = None
                     else ∃ q, m !! slug_of c = Some (PParam q)) →
       foldl add_params (Ok m) (flat_map (walk []) l)
       = if forallb (λ c, free c && collision_free c) l
         then Ok (foldl (λ m c, <[slug_of c := PDict (params_tree c)]> m)
                    m l)
         else Raise AttributeError.
Proof.
  induction 1 as [|c l Hc _ IH]; intros m Hnd Hm; [reflexivity|].
  simpl in Hnd. apply NoDup_app in Hnd as (Hndc & Hdisj & Hndl).
  simpl. rewrite foldl_app.
  pose proof (Hm c ltac:(left)) as Hmc.
  destruct (free c); simpl.
  - rewrite (Hc m Hndc Hmc). destruct (collision_free c); simpl.
    + apply IH; [exact Hndl|]. intros c' Hc'.
      assert (slug_of c ≠ slug_of c') as Hne.
      { intros Heq. apply (Hdisj (slug_of c)); [apply slug_of_in_slugs|].
        rewrite Heq. apply list_elem_of_In, in_flat_map.
        exists c'. split; [apply list_elem_of_In, Hc'|].
        apply list_elem_of_In, slug_of_in_slugs. }
      rewrite lookup_insert_ne by exact Hne. apply Hm. right. exact Hc'.
    + apply add_params_Raise.
  - destruct Hmc as [q Hq]. rewrite walk_composite. simpl. rewrite Hq.
    simpl. rewrite !add_params_Raise. reflexivity.
Qed.

(** The loop over the tree below one step. *)
Lemma add_params_tree (s : Step) (d : gmap string ParamTree) :
  NoDup (slugs s) → d !! slug_of s = None →
  foldl add_params (Ok d) (walk [] s)
  = if collision_free s
    then Ok (<[slug_of s := PDict (params_tree s)]> d)
    else Raise AttributeError.
Proof.
  revert d.
  assert (∀ s, Forall (λ c, ∀ d, NoDup (slugs c) → d !! slug_of c = None →
                            foldl add_params (Ok d) (walk [] c)
                            = if collision_free c
                              then Ok (<[slug_of c := PDict (params_tree c)]>
                                         d)
                              else Raise AttributeError) (children s) →
               ∀ d, NoDup (slugs s) → d !! slug_of s = None →
                    foldl add_params (Ok d) (walk [] s)
                    = if collision_free s
                      then Ok (<[slug_of s := PDict (params_tree s)]> d)
                      else Raise AttributeError) as Hstep.
  { clear s. intros s IH d Hnd Hd.
    rewrite slugs_children in Hnd. apply NoDup_cons in Hnd as [_ Hnd].
    rewrite walk_composite. simpl app.
    rewrite (flat_map_walk_cons (slug_of s) [] (children s))
      by (apply Forall_forall; intros c _ p; apply walk_cons).
    change ((([slug_of s], s)
             :: map (λ x, (slug_of s :: x.1, x.2))
                  (flat_map (walk []) (children s))))
      with (map (λ x : list string * Step, (slug_of s :: x.1, x.2))
              (([], s) :: flat_map (walk []) (children s))).
    rewrite (add_params_focus (slug_of s) _ d ∅)
      by (right; split; [exact Hd|split; [reflexivity|discriminate]]).
    simpl. rewrite (right_id_L ∅ (∪)).
    rewrite (add_params_children
               (λ c, bool_decide (slug_of c ∉ dom (Step_params s)))
               (children s) IH _ Hnd).
    - rewrite <- collision_free_children, <- params_tree_children.
      destruct (collision_free s); reflexivity.
    - intros c _. rewrite lookup_fmap.
      destruct (bool_decide (slug_of c ∉ dom (Step_params s))) eqn:Hfree.
      + apply bool_decide_eq_true in Hfree.
        apply not_elem_of_dom in Hfree. rewrite Hfree. reflexivity.
      + apply bool_decide_eq_false in Hfree.
        apply dec_stable, elem_of_dom in Hfree as [q Hq].
        exists q. rewrite Hq. reflexivity. }
  induction s as [cls slug fields|cls slug func args
                  |slug given ec steps Hg He Hs
                  |slug max given ec steps Hg He Hs] using Step_tree_ind;
    apply Hstep; simpl; try constructor.
  - apply Forall_app. split; [exact Hg|]. apply Forall_app.
    split; [|exact Hs]. destruct ec as [e|]; repeat constructor.
    apply He. reflexivity.
  - apply Forall_app. split; [exact Hg|]. apply Forall_app.
    split; [|exact Hs]. destruct ec as [e|]; repeat constructor.
    apply He. reflexivity.
Qed.

(** X21: [params] of a constructed pipeline is the tree of the pipeline as
    nested dictionaries: one entry, under the slug of the root, that holds
    the dictionary of the root, where the dictionary of a step holds the
    [Param]s of the step by key and the dictionaries of its children by
    slug. This is so when no step has a child whose slug is the key of one
    of its own [Param]s; when some step has one, [params] raises
    [AttributeError]. *)
Theorem X21_params_is_the_tree (r : option Step) (p : Pipeline) :
  Pipeline_init r = Ok p →
  Pipeline_params p
  = if collision_free (root p)
    then Ok {[slug_of (root p) := PDict (params_tree (root p))]}
    else Raise AttributeError.
Proof.
  intros H. unfold Pipeline_init in H. bind_inv H. injection H as <-.
  apply init_slugs_assigned in Hstep as (_ & Hnd & _). simpl.
  unfold Pipeline_params. simpl.
  rewrite add_params_tree; [|exact Hnd|apply lookup_empty].
  rewrite insert_empty. reflexivity.
Qed.

Lemma X21_params_is_the_tree_witness :
  Pipeline_params {| root := guarded_loop (FParam Repeat_max) |}
  = Ok {["main_loop" :=
           PDict (<["swap" := PDict ∅]>
                    (<["above" := PDict ∅]>
                       (<["limit" := PDict ∅]>
                          {["max" := PParam Repeat_max]})))]}
  ∧ Pipeline_params
      {| root := Repeat "main_loop" (FParam Repeat_max) [] None
                   [Transform CTransform "max" func_default []] |}
    = Raise AttributeError.
Proof.
  split.
  - exact (X21_params_is_the_tree
             (Some (guarded_loop (FParam Repeat_max))) _ eq_refl).
  - exact (X21_params_is_the_tree
             (Some (Repeat "main_loop" (FParam Repeat_max) [] None
                      [Transform CTransform "max" func_default []]))
             _ eq_refl).
Defined.

(** ** The document on its way down the tree *)

Section DocumentFacts.

Context {V : Type} (v : Visitor V).

Lemma M_bind_ext {A B : Type} (m m' : M V A) (f f' : A → M V B)
    (w : World V) :
  m w = m' w → (∀ a w', f a w' = f' a w') →
  (m ≫= f) w = (m' ≫= f') w.
Proof.
  intros Hm Hf. unfold mbind, M_bind. rewrite Hm.
  destruct (m' w) as [w' [a|e]]; [apply Hf|reflexivity].
Qed.

Lemma eval_given_entries (slug : string) (m m' : gmap string Value)
    (given : list Step) (st : State) (w : World V) :
  (∀ c, c ∈ given → m !! slug_of c = m' !! slug_of c) →
  eval_given (accept v) slug (VDict m) given st w
  = eval_given (accept v) slug (VDict m') given st w.
Proof.
  revert st w. induction given as [|g given IH]; intros st w H;
    [reflexivity|].
  simpl. rewrite (H g) by left.
  apply M_bind_ext; [reflexivity|]. intros up w0.
  apply M_bind_ext; [reflexivity|]. intros ev w1.
  destruct (chain_effect ev); [reflexivity|].
  apply IH. intros c Hc. apply H. right. exact Hc.
Qed.

Lemma eval_condition_entries (slug : string) (m m' : gmap string Value)
    (given : list Step) (ec : option Step) (st : State) (w : World V) :
  (∀ c, c ∈ given ++ option_list ec → m !! slug_of c = m' !! slug_of c) →
  eval_condition (accept v) slug given ec (VDict m) st w
  = eval_condition (accept v) slug given ec (VDict m') st w.
Proof.
  intros H. unfold eval_condition. apply M_bind_ext.
  - apply eval_given_entries. intros c Hc. apply H, elem_of_app. left.
    exact Hc.
  - intros st1 w1. destruct ec as [e|]; [|reflexivity].
    simpl. rewrite (H e); [reflexivity|]. apply elem_of_app. right. left.
Qed.

Lemma run_steps_entries (m m' : gmap string Value) (steps : list Step)
    (st : State) (any : bool) (w : World V) :
  (∀ c, c ∈ steps → m !! slug_of c = m' !! slug_of c) →
  run_steps (accept v) (VDict m) steps st any w
  = run_steps (accept v) (VDict m') steps st any w.
Proof.
  revert st any w. induction steps as [|s steps IH]; intros st any w H;
    [reflexivity|].
  simpl. rewrite (H s) by left.
  apply M_bind_ext; [reflexivity|]. intros up w0.
  apply M_bind_ext; [reflexivity|]. intros ev w1.
  apply IH. intros c Hc. apply H. right. exact Hc.
Qed.

Lemma Repeat_loop_ext (cond cond' : State → M V (State * Value))
    (body body' : State → bool → M V (State * bool)) (cs : list Z) (c : Z)
    (st : State) (any : bool) (p : nat) (w : World V) :
  (∀ st w, cond st w = cond' st w) →
  (∀ st any w, body st any w = body' st any w) →
  Repeat_loop cond body cs c st any p w
  = Repeat_loop cond' body' cs c st any p w.
Proof.
  intros Hcond Hbody. revert c st any p w.
  induction cs as [|c' cs IH]; intros c st any p w; [reflexivity|].
  simpl. apply M_bind_ext; [apply Hcond|]. intros [st1 condition] w1.
  destruct (negb (truthy condition)); [reflexivity|].
  apply M_bind_ext; [apply Hbody|]. intros [st2 any2] w2.
  destruct (negb any2); [reflexivity|]. apply IH.
Qed.

(** X25: a step reads the document it is handed only under the keys of the
    [Param]s it holds and under the slugs of the steps directly below it:
    two documents that agree there give the same run, with the same calls
    of the executor, the same result and the same warnings. What else a
    document holds is never looked at. *)
Theorem X25_document_is_read_by_slug_and_key (self : Step) (st : State)
    (m m' : gmap string Value) (w : World V) :
  (∀ k, is_Some (Step_params self !! k) → m !! k = m' !! k) →
  (∀ c, c ∈ children self → m !! slug_of c = m' !! slug_of c) →
  accept v self st (VDict m) w = accept v self st (VDict m') w.
Proof.
  intros Hkeys Hslugs.
  assert (prepare_args self st (VDict m) = prepare_args self st (VDict m'))
    as Hprep.
  { apply prepare_args_agree, Forall_forall.
    intros [x|p|r] Hin; simpl; [exact I| |reflexivity].
    rewrite (Hkeys (Param.key p)); [reflexivity|].
    apply params_fold_elem, Hin. }
  assert (∀ given ec steps,
            children self = given ++ option_list ec ++ steps →
            (∀ slug st' w',
               eval_condition (accept v) slug given ec (VDict m) st' w'
               = eval_condition (accept v) slug given ec (VDict m') st' w')
            ∧ (∀ st' any' w',
                 run_steps (accept v) (VDict m) steps st' any' w'
                 = run_steps (accept v) (VDict m') steps st' any' w'))
    as Hbelow.
  { intros given ec steps Hch. rewrite Hch in Hslugs. split.
    - intros slug st' w'. apply eval_condition_entries. intros c Hc.
      apply Hslugs. rewrite app_assoc. apply elem_of_app. left. exact Hc.
    - intros st' any' w'. apply run_steps_entries. intros c Hc.
      apply Hslugs. rewrite app_assoc. apply elem_of_app. right. exact Hc. }
  destruct self as [cls slug fields|cls slug func args|slug given ec steps
                    |slug max given ec steps].
  - destruct (overrides_accept cls) eqn:Hover.
    + rewrite !(accept_Leaf _ _ _ _ _ _ _ Hover), Hprep. reflexivity.
    + cbn [accept]. rewrite Hover. reflexivity.
  - rewrite !accept_Transform, Hprep. reflexivity.
  - destruct (Hbelow given ec steps eq_refl) as [Hcond Hrun].
    rewrite !accept_Group.
    apply M_bind_ext; [reflexivity|]. intros st0 w0.
    apply M_bind_ext; [apply Hcond|]. intros [st1 condition] w1.
    apply M_bind_ext; [|reflexivity].
    destruct (truthy condition); [apply Hrun|reflexivity].
  - destruct (Hbelow given ec steps eq_refl) as [Hcond Hrun].
    rewrite !accept_Repeat. apply M_bind_ext.
    { unfold lift. f_equal. simpl in Hprep.
      destruct (resolve_field slug st (VDict m) _) as [a|e],
               (resolve_field slug st (VDict m') _) as [a'|e'];
        simpl in Hprep; congruence. }
    intros actual w0.
    apply M_bind_ext; [reflexivity|]. intros st0 w1.
    apply M_bind_ext; [reflexivity|]. intros [cs n] w2.
    apply M_bind_ext; [|reflexivity].
    apply Repeat_loop_ext; [apply Hcond|apply Hrun].
Qed.

End DocumentFacts.

Lemma X25_document_is_read_by_slug_and_key_witness :
  accept (counting 1) (guarded_loop (FParam Repeat_max)) ∅
    (VDict {["max" := VInt 2; "main_loop" := VInt 7]}) (Build_World 0 [])
  = accept (counting 1) (guarded_loop (FParam Repeat_max)) ∅
      (VDict {["max" := VInt 2]}) (Build_World 0 []).
Proof.
  refine (X25_document_is_read_by_slug_and_key (counting 1)
            (guarded_loop (FParam Repeat_max)) ∅
            {["max" := VInt 2; "main_loop" := VInt 7]} {["max" := VInt 2]}
            (Build_World 0 []) _ _).
  - intros k [q Hq]. destruct (decide (k = "max")) as [->|Hne];
      [reflexivity|].
    unfold Step_params in Hq. simpl in Hq.
    rewrite lookup_insert_ne in Hq by congruence.
    rewrite lookup_empty in Hq. discriminate.
  - intros c Hc. simpl in Hc.
    repeat (apply elem_of_cons in Hc as [->|Hc]; [reflexivity|]).
    inversion Hc.
Defined.
